(** * Glow building blocks ([network/module.py]): model and properties

    A shallow embedding of the invertible layers of [network/module.py].

    Modelling conventions.
    - A tensor is a shape together with its elements in contiguous
      row-major order (what [.contiguous()] produces); [view] keeps the
      elements and changes the shape, [permute(...).contiguous()] copies
      them in the order of the permuted strides.
    - Scalars are real numbers: the layers are studied in exact
      arithmetic, rounding of 32-bit floats is not part of the model.
    - A Python exception is a [Raise e] result; an [assert] that fails
      raises [AssertionError].
    - A module's attributes are a record that [forward] takes and returns
      when it writes to it (ActNorm), and only takes otherwise. *)

From Stdlib Require Import String.
From Stdlib Require Import List Arith Bool Lia Permutation.
From Stdlib Require Import Reals Lra.
Import ListNotations.

Set Implicit Arguments.

(** ** Exceptions *)

Inductive exn : Type :=
| AssertionError
| AttributeError
| IndexError
| NameError
| NotImplementedError
| RuntimeError
| TypeError
| ValueError
| ZeroDivisionError.

Inductive result (A : Type) : Type :=
| Ok (a : A)
| Raise (e : exn).

Arguments Ok {A} a.
Arguments Raise {A} e.

Definition bind {A B : Type} (c : result A) (k : A -> result B) : result B :=
  match c with
  | Ok a => k a
  | Raise e => Raise e
  end.

Notation "x <- c ;; k" := (bind c (fun x => k))
  (at level 61, c at next level, right associativity).
Notation "c ;;; k" := (bind c (fun _ => k))
  (at level 61, right associativity).

Definition assert (b : bool) : result unit :=
  if b then Ok tt else Raise AssertionError.

(** ** Tensors *)

Record tensor : Type := mkTensor { shape : list nat; data : list R }.

Fixpoint numel (s : list nat) : nat :=
  match s with
  | [] => 1
  | d :: s' => d * numel s'
  end.

(** Row-major strides of a contiguous tensor of shape [s]. *)
Fixpoint strides (s : list nat) : list nat :=
  match s with
  | [] => []
  | _ :: s' => numel s' :: strides s'
  end.

(** Offset of a multi-index under a list of strides. *)
Fixpoint dot (idx st : list nat) : nat :=
  match idx, st with
  | i :: idx', c :: st' => i * c + dot idx' st'
  | _, _ => 0
  end.

Definition ravel (s idx : list nat) : nat := dot idx (strides s).

(** Multi-index of the [k]-th element of a contiguous tensor of shape [s]. *)
Fixpoint unravel (s : list nat) (k : nat) : list nat :=
  match s with
  | [] => []
  | _ :: s' => k / numel s' :: unravel s' (k mod numel s')
  end.

Definition get (t : tensor) (k : nat) : R := nth k (data t) 0%R.

Definition tabulate (s : list nat) (f : nat -> R) : tensor :=
  mkTensor s (map f (seq 0 (numel s))).

Definition wf (t : tensor) : Prop := length (data t) = numel (shape t).

(** [x.shape[i]] *)
Definition dim (t : tensor) (i : nat) : result nat :=
  match nth_error (shape t) i with
  | Some d => Ok d
  | None => Raise IndexError
  end.

(** [x.view(-1, d1, ..., dn)]: the leading size is inferred; torch refuses
    the call when the other sizes multiply to zero (the inferred size is
    ambiguous) or do not divide the number of elements. *)
Definition view_infer (t : tensor) (rest : list nat) : result tensor :=
  let m := numel rest in
  if m =? 0 then Raise RuntimeError
  else if numel (shape t) mod m =? 0
       then Ok (mkTensor (numel (shape t) / m :: rest) (data t))
       else Raise RuntimeError.

(** [x.permute(dims).contiguous()]: sizes and strides are permuted, then the
    elements are copied out in row-major order of the new shape. *)
Definition permute_contiguous (t : tensor) (dims : list nat) : tensor :=
  let s' := map (fun d => nth d (shape t) 0) dims in
  let st' := map (fun d => nth d (strides (shape t)) 0) dims in
  tabulate s' (fun k => get t (dot (unravel s' k) st')).

(** ** Elementwise operations and broadcasting *)

Definition tmap (f : R -> R) (t : tensor) : tensor :=
  mkTensor (shape t) (map f (data t)).

Definition Rsum (l : list R) : R := fold_right Rplus 0%R l.

(** [torch.sum(t)]: a zero-dimensional tensor. *)
Definition tsum (t : tensor) : tensor := mkTensor [] [Rsum (data t)].

(** Broadcast of two shapes given last dimension first: sizes must agree
    or one of them is 1; the shorter shape is padded with ones. *)
Fixpoint broadcast_rev (a b : list nat) : option (list nat) :=
  match a, b with
  | [], _ => Some b
  | _, [] => Some a
  | x :: a', y :: b' =>
      match broadcast_rev a' b' with
      | None => None
      | Some r =>
          if x =? y then Some (x :: r)
          else if x =? 1 then Some (y :: r)
          else if y =? 1 then Some (x :: r)
          else None
      end
  end.

Definition broadcast_shape (a b : list nat) : option (list nat) :=
  option_map (@rev nat) (broadcast_rev (rev a) (rev b)).

Fixpoint clamp_ones (s idx : list nat) : list nat :=
  match s, idx with
  | d :: s', i :: idx' => (if d =? 1 then 0 else i) :: clamp_ones s' idx'
  | _, _ => []
  end.

(** Index into an operand of shape [s] for the index [idx] of the broadcast
    result: the trailing [length s] components, 0 where [s] has size 1. *)
Definition bidx (s idx : list nat) : list nat :=
  clamp_ones s (skipn (length idx - length s) idx).

Definition bget (t : tensor) (idx : list nat) : R :=
  get t (ravel (shape t) (bidx (shape t) idx)).

(** [a op b] with broadcasting. *)
Definition binop (f : R -> R -> R) (a b : tensor) : result tensor :=
  match broadcast_shape (shape a) (shape b) with
  | None => Raise RuntimeError
  | Some s =>
      Ok (tabulate s (fun k => let idx := unravel s k in
                               f (bget a idx) (bget b idx)))
  end.

Definition list_nat_eqb (a b : list nat) : bool :=
  if list_eq_dec Nat.eq_dec a b then true else false.

(** [a op= b]: in place, so the broadcast shape must be the shape of [a]. *)
Definition binop_ (f : R -> R -> R) (a b : tensor) : result tensor :=
  match broadcast_shape (shape a) (shape b) with
  | None => Raise RuntimeError
  | Some s =>
      if list_nat_eqb s (shape a)
      then Ok (tabulate s (fun k => let idx := unravel s k in
                                    f (bget a idx) (bget b idx)))
      else Raise RuntimeError
  end.

(** [dst.copy_(src)] *)
Definition copy_ (dst src : tensor) : result tensor :=
  binop_ (fun _ v => v) dst src.

Definition zeros (s : list nat) : tensor := tabulate s (fun _ => 0%R).

(** ** Channel indexing *)

(** Channel of the [k]-th element of a rank-4 tensor. *)
Definition channel_of (s : list nat) (k : nat) : nat := nth 1 (unravel s k) 0.


(** [x[:, idxs, :, :]]: the channels listed in [idxs], in that order. *)
Definition select_channels (x : tensor) (idxs : list nat) : result tensor :=
  match shape x with
  | n :: c :: h :: w :: rest =>
      if forallb (fun i => i <? c) idxs then
        let s' := n :: length idxs :: h :: w :: rest in
        Ok (tabulate s' (fun k =>
              match unravel s' k with
              | a :: b :: r => get x (ravel (shape x) (a :: nth b idxs 0 :: r))
              | _ => 0%R
              end))
      else Raise IndexError
  | _ => Raise IndexError
  end.

(** Indices of the slice [start:stop:step] of an axis ([step >= 1]). *)
Fixpoint slice_indices (fuel start stop step : nat) : list nat :=
  match fuel with
  | 0 => []
  | S fuel' =>
      if start <? stop
      then start :: slice_indices fuel' (start + step) stop step
      else []
  end.

(** [x[:, start:stop:step, :, :]]; an absent [stop] is the channel count,
    a present one is clipped to it. *)
Definition slice_channels (x : tensor) (start : nat) (stop : option nat)
    (step : nat) : result tensor :=
  c <- dim x 1 ;;
  let stop' := match stop with Some e => Nat.min e c | None => c end in
  select_channels x (slice_indices c start stop' step).

(** [torch.cat((a, b), dim=1)] *)
Definition cat_channels (a b : tensor) : result tensor :=
  match shape a, shape b with
  | n :: ca :: ra, n' :: cb :: rb =>
      if (n =? n') && list_nat_eqb ra rb then
        let s' := n :: (ca + cb) :: ra in
        Ok (tabulate s' (fun k =>
              match unravel s' k with
              | i :: c :: r =>
                  if c <? ca then get a (ravel (shape a) (i :: c :: r))
                  else get b (ravel (shape b) (i :: (c - ca) :: r))
              | _ => 0%R
              end))
      else Raise RuntimeError
  | _, _ => Raise RuntimeError
  end.

(** ** Reductions ([misc.ops]) *)

Module ops.

Definition reduced (dims : option (list nat)) (i : nat) : bool :=
  match dims with
  | None => true
  | Some ds => existsb (Nat.eqb i) ds
  end.

(** Shape after reducing [dims] with [keepdim=True]. *)
Definition keep_shape (s : list nat) (dims : option (list nat)) : list nat :=
  map (fun p => if reduced dims (fst p) then 1 else snd p)
      (combine (seq 0 (length s)) s).

(** Two multi-indices agree outside the reduced axes. *)
Definition agree (dims : option (list nat)) (idx' idx : list nat) : bool :=
  forallb (fun p => reduced dims (fst p) || (fst (snd p) =? snd (snd p)))
          (combine (seq 0 (length idx)) (combine idx' idx)).

Definition drop_reduced (s : list nat) (dims : option (list nat)) : list nat :=
  map snd (filter (fun p => negb (reduced dims (fst p)))
                  (combine (seq 0 (length s)) s)).

(** Modelled from the spec: [misc/ops.py] is not part of the sources at
    hand.  [reduce_sum(t, dim, keepdim)] sums [t] over the axes [dim]
    (all axes when [dim] is absent); the logp helper is "summed over all
    non-batch axes to yield a per-batch-element scalar". *)
Definition reduce_sum (t : tensor) (dims : option (list nat))
    (keepdim : bool) : tensor :=
  let s' := keep_shape (shape t) dims in
  let r := tabulate s' (fun k' =>
             let idx' := unravel s' k' in
             Rsum (map (get t)
                     (filter (fun k => agree dims idx' (unravel (shape t) k))
                             (seq 0 (numel (shape t)))))) in
  if keepdim then r else mkTensor (drop_reduced (shape t) dims) (data r).

(** Modelled from the spec: [misc/ops.py] is not part of the sources at
    hand.  [reduce_mean(t, dim, keepdim)] is the mean of [t] over the axes
    [dim] ("over batch+spatial dims per channel" for [dim=[0, 2, 3]]),
    over all axes ("pooled across channels") when [dim] is absent. *)
Definition reduce_mean (t : tensor) (dims : option (list nat))
    (keepdim : bool) : tensor :=
  let cnt := numel (map snd (filter (fun p => reduced dims (fst p))
                               (combine (seq 0 (length (shape t))) (shape t)))) in
  tmap (fun v => (v / INR cnt)%R) (reduce_sum t dims keepdim).

End ops.

(** ** Backend operations ([torch], [torch.nn.functional]) *)

Module F.

(** Output size of a convolution along one axis. *)
Definition conv_out (size pad dil k stride : nat) : result nat :=
  if stride =? 0 then Raise RuntimeError
  else
    let eff := dil * (k - 1) + 1 in
    if size + 2 * pad <? eff then Raise RuntimeError
    else Ok ((size + 2 * pad - eff) / stride + 1).

(** Element [(a, c, y, z)] of [x] padded with [ph], [pw] zeros on each
    side; [y] and [z] are coordinates in the padded image. *)
Definition padded_get (x : tensor) (ph pw a c y z : nat) : R :=
  match shape x with
  | [_; _; h; w] =>
      if (ph <=? y) && (y - ph <? h) && (pw <=? z) && (z - pw <? w)
      then get x (ravel (shape x) [a; c; y - ph; z - pw])
      else 0%R
  | _ => 0%R
  end.

Definition conv2d_shape (sx sw : list nat) (stride : nat)
    (padding : nat * nat) (dilation groups : nat) : result (list nat) :=
  match sx, sw with
  | [n; cin; h; w], [o; cg; kh; kw] =>
      if groups =? 0 then Raise RuntimeError
      else if negb (cin =? cg * groups) then Raise RuntimeError
      else if negb (o mod groups =? 0) then Raise RuntimeError
      else
        ho <- conv_out h (fst padding) dilation kh stride ;;
        wo <- conv_out w (snd padding) dilation kw stride ;;
        Ok [n; o; ho; wo]
  | _, _ => Raise RuntimeError
  end.

(** [F.conv2d(x, weight, bias, stride, padding, dilation, groups)] *)
Definition conv2d (x weight : tensor) (bias : option tensor) (stride : nat)
    (padding : nat * nat) (dilation groups : nat) : result tensor :=
  s' <- conv2d_shape (shape x) (shape weight) stride padding dilation groups ;;
  let o := nth 0 (shape weight) 0 in
  let cg := nth 1 (shape weight) 0 in
  let kh := nth 2 (shape weight) 0 in
  let kw := nth 3 (shape weight) 0 in
  Ok (tabulate s' (fun k =>
        match unravel s' k with
        | [a; oc; y; z] =>
            let g := oc / (o / groups) in
            (Rsum (map (fun t =>
                     match unravel [cg; kh; kw] t with
                     | [c; i; j] =>
                         get weight (ravel (shape weight) [oc; c; i; j])
                         * padded_get x (fst padding) (snd padding)
                             a (g * cg + c)
                             (y * stride + i * dilation)
                             (z * stride + j * dilation)
                     | _ => 0
                     end) (seq 0 (cg * kh * kw)))
             + match bias with Some b => get b oc | None => 0 end)%R
        | _ => 0%R
        end)).

Definition linear_shape (sx sw : list nat) : result (list nat) :=
  match sw, rev sx with
  | [o; i], i' :: pre => if i =? i' then Ok (rev (o :: pre)) else Raise RuntimeError
  | _, _ => Raise RuntimeError
  end.

(** [F.linear(x, weight, bias)]: [x @ weight.T + bias] on the last axis. *)
Definition linear (x weight : tensor) (bias : option tensor) : result tensor :=
  s' <- linear_shape (shape x) (shape weight) ;;
  let o := nth 0 (shape weight) 0 in
  let i := nth 1 (shape weight) 0 in
  Ok (tabulate s' (fun k =>
        let p := k / o in
        let oc := k mod o in
        (Rsum (map (fun j => get x (p * i + j) * get weight (oc * i + j))
                   (seq 0 i))
         + match bias with Some b => get b oc | None => 0 end)%R)).

Fixpoint set_nth (l : list nat) (i v : nat) : list nat :=
  match l, i with
  | [], _ => []
  | _ :: l', 0 => v :: l'
  | a :: l', S i' => a :: set_nth l' i' v
  end.

(** [F.normalize(x, p=2, dim=dim)]: every vector along [dim] divided by
    [max(norm, 1e-12)]. *)
Definition normalize (x : tensor) (dim : nat) : result tensor :=
  if dim <? length (shape x) then
    Ok (tabulate (shape x) (fun k =>
          let idx := unravel (shape x) k in
          let norm := sqrt (Rsum (map (fun j =>
                        (get x (ravel (shape x) (set_nth idx dim j)) ^ 2)%R)
                        (seq 0 (nth dim (shape x) 0)))) in
          (get x k / Rmax norm (1 / 10 ^ 12))%R))
  else Raise IndexError.

End F.

Module linalg.

Fixpoint remove_at {A : Type} (j : nat) (l : list A) : list A :=
  match l, j with
  | [], _ => []
  | _ :: l', 0 => l'
  | a :: l', S j' => a :: remove_at j' l'
  end.

(** Determinant of an [n] by [n] matrix given by rows, by expansion along
    the first row. *)
Fixpoint det_rows (n : nat) (m : list (list R)) : R :=
  match n, m with
  | S n', row :: rest =>
      Rsum (map (fun j => ((-1) ^ j * nth j row 0
                           * det_rows n' (map (remove_at j) rest))%R)
                (seq 0 (S n')))
  | _, _ => 1%R
  end.

Definition rows (t : tensor) : list (list R) :=
  match shape t with
  | [r; c] => map (fun i => map (fun j => get t (i * c + j)) (seq 0 c)) (seq 0 r)
  | _ => []
  end.

(** [torch.det(w)] *)
Definition det (w : tensor) : result R :=
  match shape w with
  | [r; c] => if r =? c then Ok (det_rows r (rows w)) else Raise RuntimeError
  | _ => Raise RuntimeError
  end.

(** [w.inverse()]: adjugate over determinant; a singular matrix is
    refused. *)
Definition inverse (w : tensor) : result tensor :=
  dt <- det w ;;
  if Req_EM_T dt 0 then Raise RuntimeError
  else
    let n := nth 0 (shape w) 0 in
    Ok (tabulate (shape w) (fun k =>
          let i := k / n in
          let j := k mod n in
          ((-1) ^ (i + j)
           * det_rows (n - 1) (map (remove_at i) (remove_at j (rows w)))
           / dt)%R)).

End linalg.

(** ** ActNorm *)

Module ActNorm.

Record t : Type := mk {
  num_channels : nat;
  scale : R;
  logscale_factor : R;
  batch_variance : bool;
  bias_inited : bool;
  logs_inited : bool;
  bias : tensor;
  logs : tensor;
  training : bool
}.

(** [__init__]; a fresh [nn.Module] is in training mode. *)
Definition init (num_channels : nat) (scale logscale_factor : R)
    (batch_variance : bool) : t :=
  mk num_channels scale logscale_factor batch_variance
     false false
     (zeros [1; num_channels; 1; 1])
     (zeros [1; num_channels; 1; 1])
     true.

(** [module.train(mode)] *)
Definition train (mode : bool) (self : t) : t :=
  mk (num_channels self) (scale self) (logscale_factor self)
     (batch_variance self) (bias_inited self) (logs_inited self)
     (bias self) (logs self) mode.

Definition write_bias (self : t) (b : tensor) : t :=
  mk (num_channels self) (scale self) (logscale_factor self)
     (batch_variance self) true (logs_inited self)
     b (logs self) (training self).

Definition write_logs (self : t) (l : tensor) : t :=
  mk (num_channels self) (scale self) (logscale_factor self)
     (batch_variance self) (bias_inited self) true
     (bias self) l (training self).

Definition initialize_bias (self : t) (x : tensor) : result t :=
  if negb (training self) then Ok self
  else
    let x_mean := tmap (fun v => (-1 * v)%R)
                    (ops.reduce_mean x (Some [0; 2; 3]) true) in
    b <- copy_ (bias self) x_mean ;;
    Ok (write_bias self b).

Definition initialize_logs (self : t) (x : tensor) : result t :=
  if negb (training self) then Ok self
  else
    let x_var :=
      if batch_variance self
      then ops.reduce_mean (tmap (fun v => (v ^ 2)%R) x) None true
      else ops.reduce_mean (tmap (fun v => (v ^ 2)%R) x) (Some [0; 2; 3]) true in
    let logs' := tmap (fun v => (ln (scale self / (sqrt v + 1 / 10 ^ 6))
                                 / logscale_factor self)%R) x_var in
    l <- copy_ (logs self) logs' ;;
    Ok (write_logs self l).

Definition actnorm_center (self : t) (x : tensor) (reverse : bool)
    : result (t * tensor) :=
  self <- (if negb (bias_inited self) then initialize_bias self x
           else Ok self) ;;
  y <- (if negb reverse then binop Rplus x (bias self)
        else binop Rminus x (bias self)) ;;
  Ok (self, y).

Definition actnorm_scale (self : t) (x : tensor) (logdet : option tensor)
    (reverse : bool) : result (t * tensor * option tensor) :=
  self <- (if negb (logs_inited self) then initialize_logs self x
           else Ok self) ;;
  let logs := tmap (fun v => (v * logscale_factor self)%R) (logs self) in
  x <- (if negb reverse then binop Rmult x (tmap exp logs)
        else binop Rmult x (tmap exp (tmap Ropp logs))) ;;
  logdet <- match logdet with
            | Some ld =>
                h <- dim x 2 ;;
                w <- dim x 3 ;;
                let logdet_factor := h * w in
                let dlogdet :=
                  tmap (fun v => (v * INR logdet_factor)%R) (tsum logs) in
                let dlogdet :=
                  if reverse then tmap (fun v => (v * -1)%R) dlogdet
                  else dlogdet in
                ld' <- binop_ Rplus ld dlogdet ;;
                Ok (Some ld')
            | None => Ok None
            end ;;
  Ok (self, x, logdet).

Definition forward (self : t) (x : tensor) (logdet : option tensor)
    (reverse : bool) : result (t * tensor * option tensor) :=
  assert (length (shape x) =? 4) ;;;
  assert (nth 1 (shape x) 0 =? num_channels self) ;;;
  if negb reverse then
    p <- actnorm_center self x reverse ;;
    let '(self, x) := p in
    actnorm_scale self x logdet reverse
  else
    p <- actnorm_scale self x logdet reverse ;;
    let '(self, x, logdet) := p in
    q <- actnorm_center self x reverse ;;
    let '(self, x) := q in
    Ok (self, x, logdet).

(** The parameters have the shape given at construction. *)
Definition shaped (self : t) : Prop :=
  shape (bias self) = [1; num_channels self; 1; 1]
  /\ shape (logs self) = [1; num_channels self; 1; 1]
  /\ wf (bias self) /\ wf (logs self).

(** Rank 4 with the configured channel count. *)
Definition valid_input (self : t) (x : tensor) : Prop :=
  exists n h w, shape x = [n; num_channels self; h; w].

(** A sequence of [forward] calls on one layer; the driver sets the mode
    before each call. *)
Record call : Type := mkCall {
  call_training : bool;
  call_x : tensor;
  call_logdet : option tensor;
  call_reverse : bool
}.

Fixpoint run (self : t) (calls : list call) : result t :=
  match calls with
  | [] => Ok self
  | c :: calls' =>
      r <- forward (train (call_training c) self)
             (call_x c) (call_logdet c) (call_reverse c) ;;
      let '(self', _, _) := r in
      run self' calls'
  end.

End ActNorm.

(** [t.data.zero_()] *)
Definition zero_ (t : tensor) : tensor := tmap (fun _ => 0%R) t.

(** ** LinearZeros *)

Module LinearZeros.

Record t : Type := mk {
  in_features : nat;
  out_features : nat;
  weight : tensor;
  bias : option tensor;
  logscale_factor : R;
  logs : tensor
}.

(** [__init__]; [w0] and [b0] are the values drawn by [nn.Linear] for its
    weight and bias.  Without a bias, [self.bias] is [None] and
    [self.bias.data] fails. *)
Definition init (in_features out_features : nat) (has_bias : bool)
    (logscale_factor : R) (w0 b0 : nat -> R) : result t :=
  let weight := tabulate [out_features; in_features] w0 in
  let bias := if has_bias then Some (tabulate [out_features] b0) else None in
  let weight := zero_ weight in
  bias <- match bias with
          | Some b => Ok (Some (zero_ b))
          | None => Raise AttributeError
          end ;;
  Ok (mk in_features out_features weight bias logscale_factor
         (zeros [out_features])).

Definition forward (self : t) (x : tensor) : result tensor :=
  output <- F.linear x (weight self) (bias self) ;;
  binop_ Rmult output
    (tmap exp (tmap (fun v => (v * logscale_factor self)%R) (logs self))).

End LinearZeros.

(** ** [nn.Conv2d], the base class of [Conv2d] and [Conv2dZeros] *)

Module nnConv2d.

Record t : Type := mk {
  in_channels : nat;
  out_channels : nat;
  kernel_size : nat * nat;
  stride : nat;
  padding : nat * nat;
  dilation : nat;
  groups : nat;
  weight : tensor;
  bias : option tensor
}.

(** [w0] and [b0] are the values drawn for the weight and the bias. *)
Definition init (in_channels out_channels : nat) (kernel_size : nat * nat)
    (stride : nat) (padding : nat * nat) (dilation groups : nat)
    (has_bias : bool) (w0 b0 : nat -> R) : result t :=
  if groups =? 0 then Raise ZeroDivisionError
  else if negb (in_channels mod groups =? 0) then Raise ValueError
  else if negb (out_channels mod groups =? 0) then Raise ValueError
  else
    Ok (mk in_channels out_channels kernel_size stride padding dilation groups
           (tabulate [out_channels; in_channels / groups;
                      fst kernel_size; snd kernel_size] w0)
           (if has_bias then Some (tabulate [out_channels] b0) else None)).

Definition forward (self : t) (x : tensor) : result tensor :=
  F.conv2d x (weight self) (bias self) (stride self) (padding self)
    (dilation self) (groups self).

Definition with_weight (self : t) (w : tensor) : t :=
  mk (in_channels self) (out_channels self) (kernel_size self) (stride self)
     (padding self) (dilation self) (groups self) w (bias self).

Definition with_bias (self : t) (b : option tensor) : t :=
  mk (in_channels self) (out_channels self) (kernel_size self) (stride self)
     (padding self) (dilation self) (groups self) (weight self) b.

End nnConv2d.

(** ** Conv2d *)

Module Conv2d.

(** [kernel_size]: [tuple(int) or int]. *)
Inductive kernel_arg : Type :=
| KInt (k : nat)
| KPair (kh kw : nat).

Definition pair_of (k : kernel_arg) : nat * nat :=
  match k with
  | KInt k => (k, k)
  | KPair kh kw => (kh, kw)
  end.

Definition get_padding (padding_type : String.string)
    (kernel_size : kernel_arg) (stride : nat) : result (nat * nat) :=
  assert (String.eqb padding_type "SAME"%string || String.eqb padding_type "VALID"%string) ;;;
  let kernel_size := pair_of kernel_size in
  if String.eqb padding_type "SAME"%string then
    assert (stride =? 1) ;;;
    Ok ((fst kernel_size - 1) / 2, (snd kernel_size - 1) / 2)
  else Ok (0, 0).

Record t : Type := mk {
  conv : nnConv2d.t;
  do_weight_norm : bool;
  do_actnorm : bool;
  actnorm : option ActNorm.t
}.

(** [__init__]; [w0], [b0] are the draws of [nn.Conv2d], [wn] those of
    [normal_(mean=0.0, std=0.05)]. *)
Definition init (in_channels out_channels : nat) (kernel_size : kernel_arg)
    (stride : nat) (padding_type : String.string)
    (do_weightnorm do_actnorm : bool) (dilation groups : nat)
    (w0 b0 wn : nat -> R) : result t :=
  padding <- get_padding padding_type kernel_size stride ;;
  base <- nnConv2d.init in_channels out_channels (pair_of kernel_size) stride
            padding dilation groups (negb do_actnorm) w0 b0 ;;
  let base := nnConv2d.with_weight base
                (tabulate (shape (nnConv2d.weight base)) wn) in
  if do_actnorm then
    Ok (mk base do_weightnorm do_actnorm
           (Some (ActNorm.init out_channels 1 3 false)))
  else
    b <- match nnConv2d.bias base with
         | Some b => Ok (Some (zero_ b))
         | None => Raise AttributeError
         end ;;
    Ok (mk (nnConv2d.with_bias base b) do_weightnorm do_actnorm None).

Definition forward (self : t) (x : tensor) : result (t * tensor) :=
  x <- nnConv2d.forward (conv self) x ;;
  (if do_weight_norm self then
     (* normalize N, H and W dims *)
     _ <- F.normalize x 0 ;;
     _ <- F.normalize x 2 ;;
     _ <- F.normalize x 3 ;;
     Ok tt
   else Ok tt) ;;;
  if do_actnorm self then
    match actnorm self with
    | Some a =>
        r <- ActNorm.forward a x None false ;;
        let '(a', x', _) := r in
        Ok (mk (conv self) (do_weight_norm self) (do_actnorm self) (Some a'), x')
    | None => Raise AttributeError
    end
  else Ok (self, x).

End Conv2d.

(** ** Conv2dZeros *)

Module Conv2dZeros.

Record t : Type := mk {
  conv : nnConv2d.t;
  logscale_factor : R;
  logs : tensor
}.

Definition init (in_channels out_channels : nat)
    (kernel_size : Conv2d.kernel_arg) (stride : nat)
    (padding_type : String.string) (logscale_factor : R)
    (dilation groups : nat) (has_bias : bool) (w0 b0 : nat -> R) : result t :=
  padding <- Conv2d.get_padding padding_type kernel_size stride ;;
  base <- nnConv2d.init in_channels out_channels (Conv2d.pair_of kernel_size)
            stride padding dilation groups has_bias w0 b0 ;;
  (* initialize variables with zero *)
  b <- match nnConv2d.bias base with
       | Some b => Ok (Some (zero_ b))
       | None => Raise AttributeError
       end ;;
  let base := nnConv2d.with_bias base b in
  let base := nnConv2d.with_weight base (zero_ (nnConv2d.weight base)) in
  Ok (mk base logscale_factor (zeros [out_channels; 1; 1])).

Definition forward (self : t) (x : tensor) : result tensor :=
  x <- nnConv2d.forward (conv self) x ;;
  binop_ Rmult x
    (tmap exp (tmap (fun v => (v * logscale_factor self)%R) (logs self))).

End Conv2dZeros.

(** ** Invertible1x1Conv *)

Module Invertible1x1Conv.

Record t : Type := mk {
  num_channels : nat;
  lu_decomposed : bool;
  weight : tensor
}.

(** [__init__]; [w_init] holds the entries of the orthogonal factor of the
    QR decomposition of the random matrix. *)
Definition init (num_channels : nat) (lu_decomposed : bool)
    (w_init : nat -> R) : result t :=
  if lu_decomposed then Raise NotImplementedError
  else Ok (mk num_channels lu_decomposed
              (tabulate [num_channels; num_channels] w_init)).

(** In-place update of an optional accumulator by a scalar. *)
Definition accumulate (f : R -> R -> R) (logdet : option tensor)
    (dlogdet : tensor) : result (option tensor) :=
  match logdet with
  | Some ld => ld' <- binop_ f ld dlogdet ;; Ok (Some ld')
  | None => Ok None
  end.

Definition forward (self : t) (x : tensor) (logdet : option tensor)
    (reverse : bool) : result (tensor * option tensor) :=
  d1 <- dim x 1 ;;
  d2 <- dim x 2 ;;
  let logdet_factor := d1 * d2 in  (* H * W *)
  dt <- linalg.det (weight self) ;;
  let dlogdet := mkTensor [] [(ln (Rabs dt) * INR logdet_factor)%R] in
  if negb reverse then
    let weight := mkTensor (shape (weight self) ++ [1; 1]) (data (weight self)) in
    z <- F.conv2d x weight None 1 (0, 0) 1 1 ;;
    logdet <- accumulate Rplus logdet dlogdet ;;
    Ok (z, logdet)
  else
    winv <- linalg.inverse (weight self) ;;
    let weight := mkTensor (shape (weight self) ++ [1; 1]) (data winv) in
    z <- F.conv2d x weight None 1 (0, 0) 1 1 ;;
    logdet <- accumulate Rminus logdet dlogdet ;;
    Ok (z, logdet).

End Invertible1x1Conv.

(** ** Permutation2d *)

Module Permutation2d.

Record t : Type := mk {
  num_channels : nat;
  indices : list nat;
  indices_inverse : list nat
}.

Fixpoint update (l : list nat) (k v : nat) : list nat :=
  match l, k with
  | [], _ => []
  | _ :: l', 0 => v :: l'
  | a :: l', S k' => a :: update l' k' v
  end.

(** [arr[k] = v] *)
Definition set_item (l : list nat) (k v : nat) : result (list nat) :=
  if k <? length l then Ok (update l k v) else Raise IndexError.

(** [for i in range(...): indices_inverse[indices[i]] = i] *)
Fixpoint invert_loop (range indices inv : list nat) : result (list nat) :=
  match range with
  | [] => Ok inv
  | i :: range' =>
      match nth_error indices i with
      | Some k => inv' <- set_item inv k i ;; invert_loop range' indices inv'
      | None => Raise IndexError
      end
  end.

(** [np.random.shuffle(arr)]: the generator picks the order [sigma] in
    which the positions of [arr] are laid out. *)
Definition shuffle_by (sigma arr : list nat) : list nat :=
  map (fun p => nth p arr 0) sigma.

Definition init (num_channels : nat) (shuffle : bool) (sigma : list nat)
    : result t :=
  let indices := rev (seq 0 num_channels) in
  let indices := if shuffle then shuffle_by sigma indices else indices in
  inv <- invert_loop (seq 0 num_channels) indices (repeat 0 num_channels) ;;
  Ok (mk num_channels indices inv).

Definition forward (self : t) (x : tensor) (reverse : bool) : result tensor :=
  assert (length (shape x) =? 4) ;;;
  if negb reverse then select_channels x (indices self)
  else select_channels x (indices_inverse self).

End Permutation2d.

(** ** GaussianDiag *)

Module GaussianDiag.

(** [torch.randn_like(mean)]; [noise] lists the values drawn. *)
Definition eps (noise : nat -> R) (mean : tensor) : tensor :=
  tabulate (shape mean) noise.

Definition flatten_sum (t : tensor) : result tensor :=
  assert (length (shape t) =? 4) ;;;
  Ok (ops.reduce_sum t (Some [1; 2; 3]) false).

Definition logps (mean logs x : tensor) : result tensor :=
  d <- binop Rminus x mean ;;
  q <- binop Rdiv (tmap (fun v => (v ^ 2)%R) d)
         (tmap exp (tmap (fun v => (2 * v)%R) logs)) ;;
  s <- binop Rplus (tmap (fun v => (ln (2 * PI) + 2 * v)%R) logs) q ;;
  Ok (tmap (fun v => (- (1 / 2) * v)%R) s).

Definition logp (mean logs x : tensor) : result tensor :=
  s <- logps mean logs x ;;
  flatten_sum s.

Definition sample (noise : nat -> R) (mean logs : tensor) : result tensor :=
  let eps := eps noise mean in
  m <- binop Rmult (tmap exp logs) eps ;;
  binop Rplus mean m.

End GaussianDiag.

(** ** Name resolution inside a method of [module.py] *)

Module Py.

Inductive value : Type :=
| Tensor (t : tensor)
| ModuleGlobal (name : String.string)
| BuiltinFunction (name : String.string).

(** Names bound at the top level of [module.py]. *)
Definition module_globals : list String.string :=
  ["np"; "torch"; "nn"; "F"; "ops"; "ActNorm"; "LinearZeros"; "Conv2d";
   "Conv2dZeros"; "f"; "Invertible1x1Conv"; "Permutation2d"; "GaussianDiag";
   "Split2d"; "Squeeze2d"]%string.

(** Built-in functions the module could name. *)
Definition builtins : list String.string :=
  ["int"; "len"; "isinstance"; "range"; "tuple"; "super"; "input"]%string.

Definition mem (name : String.string) (l : list String.string) : bool :=
  existsb (String.eqb name) l.

Fixpoint assoc (name : String.string) (l : list (String.string * value))
    : option value :=
  match l with
  | [] => None
  | (n, v) :: l' => if String.eqb name n then Some v else assoc name l'
  end.

(** Local scope first, then the module's globals, then the built-ins. *)
Definition lookup (locals : list (String.string * value))
    (name : String.string) : result value :=
  match assoc name locals with
  | Some v => Ok v
  | None =>
      if mem name module_globals then Ok (ModuleGlobal name)
      else if mem name builtins then Ok (BuiltinFunction name)
      else Raise NameError
  end.

(** [v.shape] *)
Definition shape_of (v : value) : result (list nat) :=
  match v with
  | Tensor t => Ok (shape t)
  | _ => Raise AttributeError
  end.

(** [v[...]] *)
Definition subscriptable (v : value) : result tensor :=
  match v with
  | Tensor t => Ok t
  | _ => Raise TypeError
  end.

(** [s[i]] on a shape *)
Definition item (s : list nat) (i : nat) : result nat :=
  match nth_error s i with
  | Some d => Ok d
  | None => Raise IndexError
  end.

End Py.

(** ** Split2d *)

Module Split2d.

Record t : Type := mk {
  num_channels : nat;
  conv2d_zeros : Conv2dZeros.t
}.

Definition init (num_channels : nat) (w0 b0 : nat -> R) : result t :=
  cz <- Conv2dZeros.init (num_channels / 2) num_channels (Conv2d.KPair 3 3)
          1 "SAME"%string 3 1 1 true w0 b0 ;;
  Ok (mk num_channels cz).

Definition prior (self : t) (z : tensor) : result (tensor * tensor) :=
  h <- Conv2dZeros.forward (conv2d_zeros self) z ;;
  mean <- slice_channels h 0 None 2 ;;
  logs <- slice_channels h 1 None 2 ;;
  Ok (mean, logs).

(** [logdet += v] *)
Definition iadd (logdet : option tensor) (v : tensor) : result (option tensor) :=
  match logdet with
  | None => Raise TypeError
  | Some ld => ld' <- binop_ Rplus ld v ;; Ok (Some ld')
  end.

(** [forward]; its local names are the arguments [x], [logdet], [reverse]
    and what the body assigns.  [noise] lists the values drawn by
    [randn_like] in this call. *)
Definition forward (self : t) (x : tensor) (logdet : option tensor)
    (reverse : bool) (noise : nat -> R) : result (tensor * option tensor) :=
  let locals := [("x"%string, Py.Tensor x)] in
  if negb reverse then
    input <- Py.lookup locals "input"%string ;;
    s <- Py.shape_of input ;;
    nc <- Py.item s 1 ;;
    input1 <- Py.subscriptable input ;;
    z1 <- slice_channels input1 0 (Some (nc / 2)) 1 ;;
    z2 <- slice_channels input1 (nc / 2) None 1 ;;
    p <- prior self z1 ;;
    let '(mean, logs) := p in
    lp <- GaussianDiag.logp mean logs z2 ;;
    logdet <- iadd logdet lp ;;
    Ok (z1, logdet)
  else
    let z1 := x in
    p <- prior self z1 ;;
    let '(mean, logs) := p in
    z2 <- GaussianDiag.sample noise mean logs ;;
    z <- cat_channels z1 z2 ;;
    Ok (z, logdet).

(** The zero-convolution has the configuration given at construction
    (3 x 3 kernel, stride 1, 'SAME' padding); its parameter values are
    free. *)
Definition well_shaped (self : t) : Prop :=
  let c := Conv2dZeros.conv (conv2d_zeros self) in
  shape (nnConv2d.weight c) = [num_channels self; num_channels self / 2; 3; 3]
  /\ nnConv2d.stride c = 1
  /\ nnConv2d.padding c = (1, 1)
  /\ nnConv2d.dilation c = 1
  /\ nnConv2d.groups c = 1
  /\ shape (Conv2dZeros.logs (conv2d_zeros self)) = [num_channels self; 1; 1].

End Split2d.

(** ** Squeeze2d *)

Module Squeeze2d.

Record t : Type := mk { factor : nat }.

Definition unsqueeze (x : tensor) (factor : nat) : result tensor :=
  assert (1 <=? factor) ;;;
  if factor =? 1 then Ok x else
  nc <- dim x 1 ;;
  nh <- dim x 2 ;;
  nw <- dim x 3 ;;
  assert ((4 <=? nc) && (nc mod 4 =? 0)) ;;;
  x <- view_infer x [nc / factor ^ 2; factor; factor; nh; nw] ;;
  let x := permute_contiguous x [0; 1; 4; 2; 5; 3] in
  view_infer x [nc / factor ^ 2; nh * factor; nw * factor].

Definition squeeze (x : tensor) (factor : nat) : result tensor :=
  assert (1 <=? factor) ;;;
  if factor =? 1 then Ok x else
  nc <- dim x 1 ;;
  nh <- dim x 2 ;;
  nw <- dim x 3 ;;
  assert ((nh mod factor =? 0) && (nw mod factor =? 0)) ;;;
  x <- view_infer x [nc; nh / factor; factor; nw / factor; factor] ;;
  let x := permute_contiguous x [0; 1; 3; 5; 2; 4] in
  view_infer x [nc * factor * factor; nh / factor; nw / factor].

Definition forward (self : t) (x : tensor) (logdet : option tensor)
    (reverse : bool) : result (tensor * option tensor) :=
  output <- (if negb reverse then squeeze x (factor self)
             else unsqueeze x (factor self)) ;;
  Ok (output, logdet).

End Squeeze2d.

(** ** The convolution block [f] *)

(** [nn.ReLU] *)
Definition relu (t : tensor) : tensor := tmap (Rmax 0) t.

Module Sequential.

(** The [nn.Sequential] that [f] returns: Conv2d, ReLU, Conv2d, ReLU,
    Conv2dZeros. *)
Record t : Type := mk {
  conv_in : Conv2d.t;
  conv_mid : Conv2d.t;
  conv_out : Conv2dZeros.t
}.

Definition forward (self : t) (x : tensor) : result (t * tensor) :=
  p <- Conv2d.forward (conv_in self) x ;;
  let '(c1, x) := p in
  let x := relu x in
  q <- Conv2d.forward (conv_mid self) x ;;
  let '(c2, x) := q in
  let x := relu x in
  x <- Conv2dZeros.forward (conv_out self) x ;;
  Ok (mk c1 c2 (conv_out self), x).

End Sequential.

(** [f(in_channels, hidden_channels, out_channels)]; [draws i] lists the
    values of the [i]-th random initialisation made by the constructors. *)
Definition f (in_channels hidden_channels out_channels : nat)
    (draws : nat -> nat -> R) : result Sequential.t :=
  c1 <- Conv2d.init in_channels hidden_channels (Conv2d.KPair 3 3) 1 "SAME"
          false true 1 1 (draws 0) (draws 1) (draws 2) ;;
  c2 <- Conv2d.init hidden_channels hidden_channels (Conv2d.KInt 1) 1 "SAME"
          false true 1 1 (draws 3) (draws 4) (draws 5) ;;
  c3 <- Conv2dZeros.init hidden_channels out_channels (Conv2d.KPair 3 3) 1
          "SAME" 3 1 1 true (draws 6) (draws 7) ;;
  Ok (Sequential.mk c1 c2 c3).

(** ** Vocabulary of the statements and concrete inputs *)

(** A 1 x 1 x 3 x 3 tensor. *)
Definition zeros_1_1_3_3 : tensor := mkTensor [1; 1; 3; 3] (repeat 0%R 9).

(** Same configuration and same flags apart from [bias_inited]. *)
Definition same_but_bias (s s' : ActNorm.t) : Prop :=
  ActNorm.num_channels s' = ActNorm.num_channels s
  /\ ActNorm.scale s' = ActNorm.scale s
  /\ ActNorm.logscale_factor s' = ActNorm.logscale_factor s
  /\ ActNorm.batch_variance s' = ActNorm.batch_variance s
  /\ ActNorm.training s' = ActNorm.training s
  /\ ActNorm.logs s' = ActNorm.logs s
  /\ ActNorm.logs_inited s' = ActNorm.logs_inited s.

(** Same configuration and same flags apart from [logs_inited]. *)
Definition same_but_logs (s s' : ActNorm.t) : Prop :=
  ActNorm.num_channels s' = ActNorm.num_channels s
  /\ ActNorm.scale s' = ActNorm.scale s
  /\ ActNorm.logscale_factor s' = ActNorm.logscale_factor s
  /\ ActNorm.batch_variance s' = ActNorm.batch_variance s
  /\ ActNorm.training s' = ActNorm.training s
  /\ ActNorm.bias s' = ActNorm.bias s
  /\ ActNorm.bias_inited s' = ActNorm.bias_inited s.

(** Same construction arguments and same mode. *)
Definition same_config (s s' : ActNorm.t) : Prop :=
  ActNorm.num_channels s' = ActNorm.num_channels s
  /\ ActNorm.scale s' = ActNorm.scale s
  /\ ActNorm.logscale_factor s' = ActNorm.logscale_factor s
  /\ ActNorm.batch_variance s' = ActNorm.batch_variance s
  /\ ActNorm.training s' = ActNorm.training s.

(** Output of [forward] in terms of the parameters [b], [l] in use. *)
Definition actnorm_output (b l : tensor) (lf : R) (x : tensor) (rev : bool)
    : tensor :=
  tabulate (shape x)
    (fun k =>
       let B := get b (channel_of (shape x) k) in
       let L := (get l (channel_of (shape x) k) * lf)%R in
       if rev then (get x k * exp (- L) - B)%R
       else ((get x k + B) * exp L)%R).

(** Accumulator returned by [forward] in terms of the log-scales [l]. *)
Definition actnorm_logdet (l : tensor) (lf : R) (x : tensor) (rev : bool)
    (logdet : option tensor) : option tensor :=
  option_map
    (fun ld =>
       tabulate (shape ld)
         (fun k =>
            (get ld k +
             (if rev then (fun v => v * -1) else (fun v => v))
               (Rsum (map (fun v => v * lf) (data l))
                * INR (nth 2 (shape x) 0 * nth 3 (shape x) 0)%nat))%R))
    logdet.

(** A single element of value 1: its mean is 1. *)
Definition ones_1_1_1_1 : tensor := mkTensor [1; 1; 1; 1] [1%R].

(** A two-channel mixing layer whose weight diag(2, 1) has determinant 2. *)
Definition mixing_layer_det_2 : Invertible1x1Conv.t :=
  Invertible1x1Conv.mk 2 false (mkTensor [2; 2] [2; 0; 0; 1]%R).

(** Shape (N, C, H, W) = (1, 2, 1, 3). *)
Definition ones_1_2_1_3 : tensor := mkTensor [1; 2; 1; 3] [1; 1; 1; 1; 1; 1]%R.

(** A one-element accumulator at 0. *)
Definition zero_accumulator : tensor := mkTensor [1] [0%R].

(** A single element of value 2. *)
Definition twos_1_1_1_1 : tensor := mkTensor [1; 1; 1; 1] [2%R].

(** [Conv2d(1, 1, kernel_size=1, do_weightnorm=True, do_actnorm=False)]
    whose weight was drawn as 1. *)
Definition unit_conv2d_weightnorm : Conv2d.t :=
  Conv2d.mk
    (nnConv2d.mk 1 1 (1, 1) 1 (0, 0) 1 1
       (tabulate [1; 1; 1; 1] (fun _ => 1%R))
       (Some (zero_ (tabulate [1] INR))))
    true false None.

(** The retained half handed to the reverse pass of a two-channel split. *)
Definition retained_half : tensor := mkTensor [1; 1; 1; 1] [1%R].

Definition present_accumulator : option tensor := Some (mkTensor [1] [0%R]).

(* ================================================================== *)
(** * Properties *)

(** ** Index arithmetic *)

Lemma numel_app (s1 s2 : list nat) : numel (s1 ++ s2) = numel s1 * numel s2.
Proof.
  induction s1 as [|d s1 IH]; simpl; [lia|]. rewrite IH. lia.
Qed.

Lemma unravel_in_range (s : list nat) :
  forall k, k < numel s -> Forall2 lt (unravel s k) s.
Proof.
  induction s as [|d s IH]; intros k Hk; simpl in *; [constructor|].
  assert (Hm : numel s <> 0) by (intro E; rewrite E in Hk; lia).
  constructor.
  - apply Nat.Div0.div_lt_upper_bound. lia.
  - apply IH. apply Nat.mod_upper_bound. exact Hm.
Qed.

Lemma ravel_unravel (s : list nat) :
  forall k, k < numel s -> ravel s (unravel s k) = k.
Proof.
  unfold ravel.
  induction s as [|d s IH]; intros k Hk; simpl in *; [lia|].
  assert (Hm : numel s <> 0) by (intro E; rewrite E in Hk; lia).
  rewrite IH by (apply Nat.mod_upper_bound; exact Hm).
  pose proof (Nat.div_mod_eq k (numel s)). lia.
Qed.

Lemma ravel_lt (s : list nat) :
  forall idx, Forall2 lt idx s -> ravel s idx < numel s.
Proof.
  unfold ravel.
  induction s as [|d s IH]; intros idx H; inversion H; subst; simpl; [lia|].
  specialize (IH _ H4). nia.
Qed.

Lemma unravel_ravel (s : list nat) :
  forall idx, Forall2 lt idx s -> unravel s (ravel s idx) = idx.
Proof.
  unfold ravel.
  induction s as [|d s IH]; intros idx H; inversion H; subst; simpl; [reflexivity|].
  pose proof (ravel_lt H4) as Hlt. unfold ravel in Hlt.
  assert (Hm : numel s <> 0) by lia.
  f_equal.
  - rewrite Nat.div_add_l by exact Hm.
    rewrite Nat.div_small by exact Hlt. lia.
  - rewrite Nat.add_comm, Nat.Div0.mod_add.
    rewrite Nat.mod_small by exact Hlt. apply IH. exact H4.
Qed.

Lemma get_tabulate (s : list nat) (f : nat -> R) (k : nat) :
  k < numel s -> get (tabulate s f) k = f k.
Proof.
  intro Hk. unfold get, tabulate. simpl.
  rewrite nth_indep with (d' := f 0).
  - rewrite map_nth, seq_nth by exact Hk. reflexivity.
  - rewrite length_map, length_seq. exact Hk.
Qed.

Lemma tabulate_wf (s : list nat) (f : nat -> R) : wf (tabulate s f).
Proof. unfold wf, tabulate. simpl. now rewrite length_map, length_seq. Qed.

Lemma permute_contiguous_get (t : tensor) (dims idx : list nat) :
  let s' := map (fun d => nth d (shape t) 0) dims in
  let st' := map (fun d => nth d (strides (shape t)) 0) dims in
  Forall2 lt idx s' ->
  get (permute_contiguous t dims) (ravel s' idx) = get t (dot idx st').
Proof.
  intros s' st' Hidx. unfold permute_contiguous. fold s' st'.
  rewrite get_tabulate by (apply ravel_lt; exact Hidx).
  rewrite unravel_ravel by exact Hidx. reflexivity.
Qed.

Lemma view_infer_ok (t : tensor) (rest : list nat) (n : nat) :
  numel rest <> 0 ->
  numel (shape t) = n * numel rest ->
  view_infer t rest = Ok (mkTensor (n :: rest) (data t)).
Proof.
  intros Hm Hn. unfold view_infer.
  destruct (Nat.eqb_spec (numel rest) 0) as [E|_]; [contradiction|].
  rewrite Hn, Nat.Div0.mod_mul, Nat.div_mul by exact Hm. reflexivity.
Qed.

(** ** Squeeze2d *)

Ltac dims_tac :=
  unfold permute_contiguous, tabulate;
  cbn [shape data numel map nth];
  first [lia | repeat (apply Nat.neq_mul_0; split); lia].

Section SqueezeRoundTrip.

Variables (N C h w f : nat) (d : list R).
Hypothesis Hf : 2 <= f.
Hypothesis HC : 0 < C.
Hypothesis Hh : 0 < h.
Hypothesis Hw : 0 < w.
Hypothesis Hd : length d = numel [N; C; h * f; w * f].

Let x : tensor := mkTensor [N; C; h * f; w * f] d.

(** The six-dimensional view taken by [squeeze] and produced by
    [unsqueeze], and the one between the two. *)
Let s6 : list nat := [N; C; h; f; w; f].
Let s6' : list nat := [N; C; f; f; h; w].

Let squeezed : tensor :=
  mkTensor [N; C * f * f; h; w]
    (data (permute_contiguous (mkTensor s6 d) [0; 1; 3; 5; 2; 4])).

Lemma squeeze_block : Squeeze2d.squeeze x f = Ok squeezed.
Proof.
  unfold Squeeze2d.squeeze, assert.
  destruct (Nat.leb_spec 1 f) as [_|?]; [|lia].
  destruct (Nat.eqb_spec f 1) as [?|_]; [lia|].
  unfold x. cbn [bind dim shape nth_error].
  rewrite !Nat.Div0.mod_mul, !Nat.div_mul by lia.
  cbn [Nat.eqb andb bind].
  rewrite (@view_infer_ok _ _ N) by dims_tac. cbn [bind].
  rewrite (@view_infer_ok _ _ N) by dims_tac.
  reflexivity.
Qed.

Lemma pow2_sq : f ^ 2 = f * f.
Proof. simpl. lia. Qed.

Lemma unsqueeze_block :
  4 <= C * f * f -> (C * f * f) mod 4 = 0 ->
  Squeeze2d.unsqueeze squeezed f =
  Ok (mkTensor [N; C; h * f; w * f]
        (data (permute_contiguous (mkTensor s6' (data squeezed))
                 [0; 1; 4; 2; 5; 3]))).
Proof.
  intros H4 Hm4.
  unfold Squeeze2d.unsqueeze, assert.
  destruct (Nat.leb_spec 1 f) as [_|?]; [|lia].
  destruct (Nat.eqb_spec f 1) as [?|_]; [lia|].
  unfold dim. change (shape squeezed) with [N; C * f * f; h; w].
  cbn [bind nth_error].
  destruct (Nat.leb_spec 4 (C * f * f)) as [_|?]; [|lia].
  rewrite Hm4. cbn [Nat.eqb andb bind].
  rewrite pow2_sq.
  replace (C * f * f / (f * f)) with C
    by (rewrite <- Nat.mul_assoc, Nat.div_mul; nia).
  rewrite (@view_infer_ok _ _ N)
    by (change (shape squeezed) with [N; C * f * f; h; w]; dims_tac).
  cbn [bind].
  rewrite (@view_infer_ok _ _ N) by dims_tac.
  reflexivity.
Qed.

Lemma unsqueeze_squeeze_data :
  data (permute_contiguous (mkTensor s6' (data squeezed)) [0; 1; 4; 2; 5; 3])
  = d.
Proof.
  assert (Hn : numel s6 = length d) by (rewrite Hd; simpl; lia).
  apply nth_ext with (d := 0%R) (d' := 0%R).
  - unfold permute_contiguous, tabulate.
    cbn [data shape map nth]. rewrite length_map, length_seq.
    exact Hn.
  - intros k Hk.
    assert (Hk6 : k < numel s6).
    { unfold permute_contiguous, tabulate in Hk.
      cbn [data shape map nth] in Hk.
      rewrite length_map, length_seq in Hk. exact Hk. }
    pose proof (unravel_in_range s6 Hk6) as Hr.
    pose proof (ravel_unravel s6 Hk6) as Hrv.
    remember (unravel s6 k) as idx eqn:Eidx. clear Eidx.
    unfold s6 in Hr.
    repeat match goal with
           | H : Forall2 lt _ (_ :: _) |- _ => inversion H; subst; clear H
           | H : Forall2 lt _ [] |- _ => inversion H; subst; clear H
           end.
    rename x0 into n, x1 into c, x2 into a, x3 into i, x4 into b, x5 into j.
    change (get (permute_contiguous (mkTensor s6' (data squeezed))
                   [0; 1; 4; 2; 5; 3]) (ravel s6 [n; c; a; i; b; j])
            = get x (ravel s6 [n; c; a; i; b; j])).
    assert (E1 : get (permute_contiguous (mkTensor s6' (data squeezed))
                        [0; 1; 4; 2; 5; 3]) (ravel s6 [n; c; a; i; b; j])
                 = get (mkTensor s6' (data squeezed))
                       (ravel s6' [n; c; i; j; a; b])).
    { pose proof (@permute_contiguous_get (mkTensor s6' (data squeezed))
                    [0; 1; 4; 2; 5; 3] [n; c; a; i; b; j]) as P.
      cbn [shape map nth s6' strides] in P.
      unfold s6. rewrite P by (repeat constructor; assumption).
      f_equal. unfold ravel, s6'. cbn [dot strides]. lia. }
    rewrite E1.
    assert (E2 : get (mkTensor s6' (data squeezed))
                     (ravel s6' [n; c; i; j; a; b])
                 = get (mkTensor s6 d) (ravel s6 [n; c; a; i; b; j])).
    { pose proof (@permute_contiguous_get (mkTensor s6 d)
                    [0; 1; 3; 5; 2; 4] [n; c; i; j; a; b]) as P.
      cbn [shape map nth s6 strides] in P.
      unfold get at 1. cbn [data squeezed]. fold s6.
      change (nth ?k (data ?t) 0%R) with (get t k).
      unfold s6, s6' in *. rewrite P by (repeat constructor; assumption).
      f_equal. unfold ravel. cbn [dot strides]. lia. }
    rewrite E2. reflexivity.
Qed.

Lemma unsqueeze_squeeze_block :
  4 <= C * f * f -> (C * f * f) mod 4 = 0 ->
  (y <- Squeeze2d.squeeze x f ;; Squeeze2d.unsqueeze y f) = Ok x.
Proof.
  intros H4 Hm4. rewrite squeeze_block. cbn [bind].
  rewrite unsqueeze_block by assumption.
  rewrite unsqueeze_squeeze_data. reflexivity.
Qed.

End SqueezeRoundTrip.

Lemma squeeze_factor_1 (x : tensor) : Squeeze2d.squeeze x 1 = Ok x.
Proof. reflexivity. Qed.

Lemma unsqueeze_factor_1 (x : tensor) : Squeeze2d.unsqueeze x 1 = Ok x.
Proof. reflexivity. Qed.

(** C7, as amended.  For a rank-4 tensor [x] of shape (N, C, H, W) and a
    factor [f >= 1] dividing H and W, [unsqueeze (squeeze x f) f] is [x]
    itself, provided [f = 1] or H and W are positive and the squeezed
    channel count [C * f * f] passes the guard of [unsqueeze] (at least 4
    and divisible by 4).  With factor 1 both functions are the identity. *)
Theorem unsqueeze_squeeze_roundtrip (x : tensor) (N C H W f : nat) :
  wf x ->
  shape x = [N; C; H; W] ->
  1 <= f -> H mod f = 0 -> W mod f = 0 ->
  f = 1 \/ (0 < H /\ 0 < W /\ 4 <= C * f * f /\ (C * f * f) mod 4 = 0) ->
  (y <- Squeeze2d.squeeze x f ;; Squeeze2d.unsqueeze y f) = Ok x
  /\ Squeeze2d.squeeze x 1 = Ok x
  /\ Squeeze2d.unsqueeze x 1 = Ok x.
Proof.
  intros Hwf Hs Hf HH HW Hcase.
  split; [|split; reflexivity].
  destruct Hcase as [->|(HH0 & HW0 & H4 & Hm4)]; [reflexivity|].
  destruct (Nat.eq_dec f 1) as [->|Hf1]; [reflexivity|].
  destruct x as [s d]. simpl in Hs. subst s. unfold wf in Hwf. simpl in Hwf.
  apply Nat.Div0.div_exact in HH, HW.
  remember (H / f) as h eqn:Eh. remember (W / f) as w eqn:Ew.
  clear Eh Ew.
  assert (EH : H = h * f) by lia.
  assert (EW : W = w * f) by lia.
  clear HH HW. subst H W.
  apply unsqueeze_squeeze_block; try assumption.
  - lia.
  - destruct C; [simpl in H4|]; lia.
  - destruct h; [simpl in HH0|]; lia.
  - destruct w; [simpl in HW0|]; lia.
Qed.

(** C7 witness: factor 2 on a 1 x 1 x 2 x 2 tensor. *)
Lemma unsqueeze_squeeze_roundtrip_witness :
  let x := mkTensor [1; 1; 2; 2] [1; 2; 3; 4]%R in
  (y <- Squeeze2d.squeeze x 2 ;; Squeeze2d.unsqueeze y 2) = Ok x
  /\ Squeeze2d.squeeze x 1 = Ok x
  /\ Squeeze2d.unsqueeze x 1 = Ok x.
Proof.
  intro x.
  apply (@unsqueeze_squeeze_roundtrip x 1 1 2 2 2).
  - reflexivity.
  - reflexivity.
  - lia.
  - reflexivity.
  - reflexivity.
  - right. simpl. lia.
Defined.

(** C7 as stated fails: factor 3 divides the height and the width of a
    1 x 1 x 3 x 3 tensor, [squeeze] gives 9 channels, and [unsqueeze]
    refuses a channel count that is not a multiple of 4. *)
Lemma unsqueeze_squeeze_factor_3_fails :
  wf zeros_1_1_3_3 /\ shape zeros_1_1_3_3 = [1; 1; 3; 3]
  /\ 1 <= 3 /\ 3 mod 3 = 0
  /\ (y <- Squeeze2d.squeeze zeros_1_1_3_3 3 ;; Squeeze2d.unsqueeze y 3)
     = Raise AssertionError.
Proof.
  split; [reflexivity|]. split; [reflexivity|].
  split; [lia|]. split; [reflexivity|].
  assert (E : Squeeze2d.squeeze zeros_1_1_3_3 3 =
              Ok (mkTensor [1; 9; 1; 1]
                    (data (permute_contiguous
                             (mkTensor [1; 1; 1; 3; 1; 3] (repeat 0%R 9))
                             [0; 1; 3; 5; 2; 4])))).
  { apply (@squeeze_block 1 1 1 1 3 (repeat 0%R 9)); first [lia | reflexivity]. }
  rewrite E. reflexivity.
Qed.

(** ** Channel selection *)

Lemma tabulate_ext (s : list nat) (f g : nat -> R) :
  (forall k, k < numel s -> f k = g k) -> tabulate s f = tabulate s g.
Proof.
  intro H. unfold tabulate. f_equal. apply map_ext_in.
  intros k Hk. apply in_seq in Hk. apply H. lia.
Qed.

Lemma map_nth_seq {A : Type} (l : list A) (d : A) :
  map (fun i => nth i l d) (seq 0 (length l)) = l.
Proof.
  apply nth_ext with (d := d) (d' := d).
  - now rewrite length_map, length_seq.
  - intros k Hk. rewrite length_map, length_seq in Hk.
    rewrite nth_indep with (d' := nth 0 l d)
      by (rewrite length_map, length_seq; exact Hk).
    rewrite (map_nth (fun i => nth i l d)), seq_nth by exact Hk.
    reflexivity.
Qed.

Lemma tabulate_get (t : tensor) : wf t -> tabulate (shape t) (get t) = t.
Proof.
  intro Hwf. destruct t as [s d]. unfold tabulate, get, wf in *. simpl in *.
  f_equal. rewrite <- Hwf. apply map_nth_seq. 
Qed.

Lemma unravel_cons2 (n c : nat) (r : list nat) (k : nat) :
  k < numel (n :: c :: r) ->
  exists a b t, unravel (n :: c :: r) k = a :: b :: t
                /\ a < n /\ b < c /\ Forall2 lt t r.
Proof.
  intro Hk. pose proof (unravel_in_range _ Hk) as H.
  remember (unravel (n :: c :: r) k) as idx. clear Heqidx.
  inversion H as [|a ? idx1 ? Ha H1]; subst.
  inversion H1 as [|b ? t ? Hb H2]; subst.
  exists a, b, t. auto.
Qed.

Lemma select_select (x : tensor) (n c h w : nat) (rest A B : list nat) :
  wf x ->
  shape x = n :: c :: h :: w :: rest ->
  length A = c -> length B = c ->
  (forall i, In i A -> i < c) ->
  (forall i, In i B -> i < c) ->
  (forall i, i < c -> nth (nth i B 0) A 0 = i) ->
  (y <- select_channels x A ;; select_channels y B) = Ok x.
Proof.
  intros Hwf Hs HA HB HAc HBc Hinv.
  assert (FA : forallb (fun i => i <? c) A = true).
  { apply forallb_forall. intros i Hi. apply Nat.ltb_lt. auto. }
  assert (FB : forallb (fun i => i <? c) B = true).
  { apply forallb_forall. intros i Hi. apply Nat.ltb_lt. auto. }
  unfold select_channels at 1. rewrite Hs, FA. cbn [bind].
  unfold select_channels. cbn [shape tabulate]. rewrite HA, HB, FB.
  transitivity (Ok (tabulate (shape x) (get x)));
    [|now rewrite (tabulate_get Hwf)].
  rewrite Hs.
  f_equal. apply tabulate_ext. intros k Hk.
  destruct (@unravel_cons2 _ _ _ _ Hk) as (a & b & t & E & Ha & Hb & Ht).
  rewrite E.
  assert (Hb' : nth b B 0 < c) by (apply HBc, nth_In; lia).
  set (f := fun k0 : nat =>
              match unravel (n :: c :: h :: w :: rest) k0 with
              | a0 :: b0 :: r => get x (ravel (n :: c :: h :: w :: rest)
                                         (a0 :: nth b0 A 0 :: r))
              | _ => 0%R
              end).
  change (get (tabulate (n :: c :: h :: w :: rest) f)
            (ravel (n :: c :: h :: w :: rest) (a :: nth b B 0 :: t))
          = get x k).
  assert (Hr : Forall2 lt (a :: nth b B 0 :: t) (n :: c :: h :: w :: rest))
    by (repeat constructor; assumption).
  rewrite get_tabulate by (apply ravel_lt; exact Hr).
  unfold f. rewrite unravel_ravel by exact Hr.
  rewrite Hinv by exact Hb. rewrite <- E.
  rewrite ravel_unravel by exact Hk. reflexivity.
Qed.

(** ** Permutation2d *)

Lemma update_length (l : list nat) : forall k v,
  length (Permutation2d.update l k v) = length l.
Proof.
  induction l as [|a l IH]; intros [|k] v; simpl; auto.
Qed.

Lemma nth_update_eq (l : list nat) : forall k v,
  k < length l -> nth k (Permutation2d.update l k v) 0 = v.
Proof.
  induction l as [|a l IH]; intros [|k] v Hk; simpl in *; try lia; auto.
  apply IH. lia.
Qed.

Lemma nth_update_neq (l : list nat) : forall k j v,
  k <> j -> nth j (Permutation2d.update l k v) 0 = nth j l 0.
Proof.
  induction l as [|a l IH]; intros [|k] [|j] v Hkj; simpl; auto; try lia.
Qed.

Lemma invert_loop_spec (indices : list nat) (C : nat) :
  (forall k, In k indices -> k < C) ->
  forall range inv,
    length inv = C ->
    (forall i, In i range -> i < length indices) ->
    NoDup (map (fun i => nth i indices 0) range) ->
    exists inv',
      Permutation2d.invert_loop range indices inv = Ok inv'
      /\ length inv' = C
      /\ (forall i, In i range -> nth (nth i indices 0) inv' 0 = i)
      /\ (forall k, ~ In k (map (fun i => nth i indices 0) range) ->
                    nth k inv' 0 = nth k inv 0).
Proof.
  intros Hlt range.
  induction range as [|i range IH]; intros inv Hlen Hin Hnd.
  - exists inv. simpl. repeat split; auto. intros i [].
  - simpl in Hnd. apply NoDup_cons_iff in Hnd. destruct Hnd as [Hnotin Hnd'].
    assert (Hi : i < length indices) by (apply Hin; left; reflexivity).
    cbn [Permutation2d.invert_loop].
    rewrite (nth_error_nth' indices 0 Hi).
    set (k := nth i indices 0) in *.
    assert (Hk : k < length inv).
    { rewrite Hlen. apply Hlt. unfold k. apply nth_In. exact Hi. }
    unfold Permutation2d.set_item.
    destruct (Nat.ltb_spec k (length inv)) as [_|?]; [|lia].
    cbn [bind].
    destruct (IH (Permutation2d.update inv k i)) as (inv' & E & L & P1 & P2).
    + rewrite update_length. exact Hlen.
    + intros j Hj. apply Hin. right. exact Hj.
    + exact Hnd'.
    + exists inv'. split; [exact E|]. split; [exact L|]. split.
      * intros j [<-|Hj].
        -- fold k. rewrite P2 by exact Hnotin. apply nth_update_eq. exact Hk.
        -- apply P1. exact Hj.
      * intros k' Hk'. simpl in Hk'.
        rewrite P2 by tauto. apply nth_update_neq. tauto.
Qed.

Lemma map_nth_seq_self (l : list nat) :
  map (fun i => nth i l 0) (seq 0 (length l)) = l.
Proof. apply map_nth_seq. Qed.

Lemma shuffle_by_perm (sigma arr : list nat) :
  Permutation sigma (seq 0 (length arr)) ->
  Permutation (Permutation2d.shuffle_by sigma arr) arr.
Proof.
  intro H. unfold Permutation2d.shuffle_by.
  apply Permutation_map with (f := fun p => nth p arr 0) in H.
  rewrite map_nth_seq_self in H. exact H.
Qed.

Lemma init_indices_perm (C : nat) (shuffle : bool) (sigma : list nat) :
  (shuffle = true -> Permutation sigma (seq 0 C)) ->
  Permutation
    (if shuffle then Permutation2d.shuffle_by sigma (rev (seq 0 C))
     else rev (seq 0 C))
    (seq 0 C).
Proof.
  intro H. destruct shuffle.
  - transitivity (rev (seq 0 C)).
    + apply shuffle_by_perm. rewrite length_rev, length_seq. auto.
    + symmetry. apply Permutation_rev.
  - symmetry. apply Permutation_rev.
Qed.

Section PermutationTables.

Variables (C : nat) (indices : list nat).
Hypothesis Hperm : Permutation indices (seq 0 C).

Lemma indices_length : length indices = C.
Proof. rewrite (Permutation_length Hperm). apply length_seq. Qed.

Lemma indices_lt : forall k, In k indices -> k < C.
Proof.
  intros k Hk. apply (Permutation_in _ Hperm) in Hk.
  apply in_seq in Hk. lia.
Qed.

Lemma indices_NoDup : NoDup indices.
Proof.
  apply (Permutation_NoDup (Permutation_sym Hperm)). apply seq_NoDup.
Qed.

Lemma indices_onto : forall i, i < C -> exists j, j < C /\ nth j indices 0 = i.
Proof.
  intros i Hi.
  assert (Hin : In i indices).
  { apply (Permutation_in _ (Permutation_sym Hperm)). apply in_seq. lia. }
  destruct (In_nth _ _ 0 Hin) as (j & Hj & E).
  exists j. rewrite indices_length in Hj. auto.
Qed.

Lemma invert_tables :
  exists inv,
    Permutation2d.invert_loop (seq 0 C) indices (repeat 0 C) = Ok inv
    /\ length inv = C
    /\ (forall j, j < C -> nth (nth j indices 0) inv 0 = j)
    /\ (forall i, i < C -> nth (nth i inv 0) indices 0 = i)
    /\ (forall k, In k inv -> k < C).
Proof.
  destruct (@invert_loop_spec indices C indices_lt (seq 0 C) (repeat 0 C))
    as (inv & E & L & P1 & _).
  - apply repeat_length.
  - intros i Hi. apply in_seq in Hi. rewrite indices_length. lia.
  - rewrite <- indices_length, map_nth_seq_self. apply indices_NoDup.
  - exists inv. split; [exact E|]. split; [exact L|].
    assert (Q1 : forall j, j < C -> nth (nth j indices 0) inv 0 = j).
    { intros j Hj. apply P1. apply in_seq. lia. }
    split; [exact Q1|]. split.
    + intros i Hi. destruct (indices_onto Hi) as (j & Hj & <-).
      rewrite Q1 by exact Hj. reflexivity.
    + intros k Hk. destruct (In_nth _ _ 0 Hk) as (i & Hi & <-).
      rewrite L in Hi. destruct (indices_onto Hi) as (j & Hj & <-).
      rewrite Q1 by exact Hj. exact Hj.
Qed.

End PermutationTables.

Lemma select_channels_ok (x : tensor) (n c h w : nat) (rest A : list nat) :
  shape x = n :: c :: h :: w :: rest ->
  (forall i, In i A -> i < c) ->
  exists y, select_channels x A = Ok y
            /\ shape y = n :: length A :: h :: w :: rest.
Proof.
  intros Hs HA. unfold select_channels. rewrite Hs.
  assert (FA : forallb (fun i => i <? c) A = true).
  { apply forallb_forall. intros i Hi. apply Nat.ltb_lt. auto. }
  rewrite FA. eexists. split; reflexivity.
Qed.

Lemma permutation2d_forward_pair (p : Permutation2d.t) (x : tensor)
    (A B : list nat) (r1 r2 : bool) (C : nat) :
  (if negb r1 then Permutation2d.indices p
   else Permutation2d.indices_inverse p) = A ->
  (if negb r2 then Permutation2d.indices p
   else Permutation2d.indices_inverse p) = B ->
  wf x -> length (shape x) = 4 -> nth 1 (shape x) 0 = C ->
  length A = C -> length B = C ->
  (forall i, In i A -> i < C) ->
  (forall i, In i B -> i < C) ->
  (forall i, i < C -> nth (nth i B 0) A 0 = i) ->
  (y <- Permutation2d.forward p x r1 ;; Permutation2d.forward p y r2) = Ok x.
Proof.
  intros EA EB Hwf Hrank Hc HA HB HAc HBc Hinv.
  destruct x as [s d]. cbn [shape] in *.
  destruct s as [|n [|c [|h [|w [|? ?]]]]]; try discriminate.
  cbn [nth] in Hc. subst c.
  set (x := mkTensor [n; C; h; w] d) in *.
  pose proof (@select_select x n C h w [] A B Hwf eq_refl HA HB HAc HBc Hinv)
    as Hrt.
  destruct (@select_channels_ok x n C h w [] A eq_refl HAc) as (y & Ey & Sy).
  rewrite Ey in Hrt. cbn [bind] in Hrt.
  unfold Permutation2d.forward at 1. cbn [shape x length Nat.eqb assert bind].
  assert (E1 : (if negb r1 then select_channels x (Permutation2d.indices p)
                else select_channels x (Permutation2d.indices_inverse p))
               = Ok y).
  { rewrite <- Ey, <- EA. destruct r1; reflexivity. }
  rewrite E1. cbn [bind].
  unfold Permutation2d.forward. rewrite Sy.
  cbn [length Nat.eqb assert bind].
  rewrite <- Hrt, <- EB. destruct r2; reflexivity.
Qed.

(** C9.  For every channel count [C], with the default reversed indices or
    with any shuffle of them, construction succeeds, the inverse table
    satisfies [indices[indices_inverse[i]] = i] for every channel [i], and
    on every rank-4 input with [C] channels the reverse pass followed by
    the forward pass, and the forward pass followed by the reverse pass,
    give the input back. *)
Theorem permutation2d_inverse_roundtrip (C : nat) (shuffle : bool)
    (sigma : list nat) :
  (shuffle = true -> Permutation sigma (seq 0 C)) ->
  exists p,
    Permutation2d.init C shuffle sigma = Ok p
    /\ (forall i, i < C ->
          nth (nth i (Permutation2d.indices_inverse p) 0)
              (Permutation2d.indices p) 0 = i)
    /\ (forall x, wf x -> length (shape x) = 4 -> nth 1 (shape x) 0 = C ->
          (y <- Permutation2d.forward p x true ;;
           Permutation2d.forward p y false) = Ok x
          /\ (y <- Permutation2d.forward p x false ;;
              Permutation2d.forward p y true) = Ok x).
Proof.
  intro Hsigma.
  pose proof (@init_indices_perm C shuffle sigma Hsigma) as Hperm.
  unfold Permutation2d.init.
  set (indices := if shuffle
                  then Permutation2d.shuffle_by sigma (rev (seq 0 C))
                  else rev (seq 0 C)) in *.
  destruct (@invert_tables C indices Hperm) as (inv & E & L & Q1 & Q2 & Q3).
  rewrite E. cbn [bind].
  eexists. split; [reflexivity|].
  cbn [Permutation2d.indices Permutation2d.indices_inverse].
  split; [exact Q2|].
  pose proof (@indices_length C indices Hperm) as Li.
  pose proof (@indices_lt C indices Hperm) as Bi.
  intros x Hwf Hrank Hc. split.
  - apply permutation2d_forward_pair with (A := inv) (B := indices) (C := C);
      auto.
  - apply permutation2d_forward_pair with (A := indices) (B := inv) (C := C);
      auto.
Qed.

(** C9 witness: two channels, shuffled into the order [1; 0]. *)
Lemma permutation2d_inverse_roundtrip_witness :
  exists p,
    Permutation2d.init 2 true [1; 0] = Ok p
    /\ (forall i, i < 2 ->
          nth (nth i (Permutation2d.indices_inverse p) 0)
              (Permutation2d.indices p) 0 = i)
    /\ (forall x, wf x -> length (shape x) = 4 -> nth 1 (shape x) 0 = 2 ->
          (y <- Permutation2d.forward p x true ;;
           Permutation2d.forward p y false) = Ok x
          /\ (y <- Permutation2d.forward p x false ;;
              Permutation2d.forward p y true) = Ok x).
Proof.
  apply (@permutation2d_inverse_roundtrip 2 true [1; 0]).
  intros _. simpl. apply perm_swap.
Defined.

(** ** Split2d *)

Lemma lookup_input (x : tensor) :
  Py.lookup [("x"%string, Py.Tensor x)] "input"%string
  = Ok (Py.BuiltinFunction "input"%string).
Proof. reflexivity. Qed.

(** C2 (the code departs from it).  With [reverse=False] the body never
    reads its argument [x]: the name [input] is neither a local name nor a
    global of the module, so it is the built-in function, which has no
    [shape]; the call raises [AttributeError] for every input and every
    accumulator. *)
Theorem split2d_forward_raises (self : Split2d.t) (x : tensor)
    (logdet : option tensor) (noise : nat -> R) :
  Split2d.forward self x logdet false noise = Raise AttributeError.
Proof.
  unfold Split2d.forward. cbn [negb]. rewrite lookup_input. reflexivity.
Qed.

(** ** Broadcasting *)

Lemma broadcast_rev_refl (s : list nat) : broadcast_rev s s = Some s.
Proof.
  induction s as [|d s IH]; simpl; [reflexivity|].
  rewrite IH, Nat.eqb_refl. reflexivity.
Qed.

Lemma broadcast_shape_refl (s : list nat) : broadcast_shape s s = Some s.
Proof.
  unfold broadcast_shape. rewrite broadcast_rev_refl. simpl.
  now rewrite rev_involutive.
Qed.

Lemma broadcast_rev_nil_r (s : list nat) : broadcast_rev s [] = Some s.
Proof. destruct s; reflexivity. Qed.

Lemma broadcast_shape_nil_r (s : list nat) : broadcast_shape s [] = Some s.
Proof.
  unfold broadcast_shape. cbn [rev]. rewrite broadcast_rev_nil_r.
  cbn [option_map]. now rewrite rev_involutive.
Qed.

Ltac broadcast_tac :=
  unfold broadcast_shape; cbn [rev app broadcast_rev];
  rewrite ?Nat.eqb_refl;
  repeat match goal with
         | |- context [?x =? 1] => destruct (x =? 1)
         end;
  reflexivity.

Lemma broadcast_shape_channel (n c h w : nat) :
  broadcast_shape [n; c; h; w] [1; c; 1; 1] = Some [n; c; h; w].
Proof. broadcast_tac. Qed.

Lemma broadcast_shape_chw (n c h w : nat) :
  broadcast_shape [n; c; h; w] [c; 1; 1] = Some [n; c; h; w].
Proof. broadcast_tac. Qed.

Lemma list_nat_eqb_refl (s : list nat) : list_nat_eqb s s = true.
Proof.
  unfold list_nat_eqb. destruct (list_eq_dec Nat.eq_dec s s); congruence.
Qed.

Lemma clamp_ones_in_range (s : list nat) :
  forall idx, Forall2 lt idx s -> clamp_ones s idx = idx.
Proof.
  induction s as [|d s IH]; intros idx H; inversion H; subst; simpl;
    [reflexivity|].
  rewrite IH by assumption.
  destruct (Nat.eqb_spec d 1); [f_equal; lia | reflexivity].
Qed.

Lemma bidx_in_range (s idx : list nat) : Forall2 lt idx s -> bidx s idx = idx.
Proof.
  intro H. unfold bidx.
  rewrite (Forall2_length H), Nat.sub_diag. simpl.
  apply clamp_ones_in_range. exact H.
Qed.

Lemma bget_self (a : tensor) (k : nat) :
  k < numel (shape a) -> bget a (unravel (shape a) k) = get a k.
Proof.
  intro Hk. unfold bget.
  rewrite bidx_in_range by (apply unravel_in_range; exact Hk).
  rewrite ravel_unravel by exact Hk. reflexivity.
Qed.

(** A zero-dimensional operand contributes its single element. *)
Lemma bget_scalar (v : R) (idx : list nat) : bget (mkTensor [] [v]) idx = v.
Proof. reflexivity. Qed.

(** A per-channel operand of shape (1, C, 1, 1) contributes the element of
    the channel. *)
Lemma bget_channel (b : tensor) (c i j k l : nat) :
  shape b = [1; c; 1; 1] -> j < c ->
  bget b [i; j; k; l] = get b j.
Proof.
  intros Hs Hj. unfold bget, bidx. rewrite Hs.
  cbn [length Nat.sub skipn clamp_ones Nat.eqb ravel strides dot numel].
  f_equal. destruct (Nat.eqb_spec c 1); lia.
Qed.

Lemma bget_chw (b : tensor) (c i j k l : nat) :
  shape b = [c; 1; 1] -> j < c ->
  bget b [i; j; k; l] = get b j.
Proof.
  intros Hs Hj. unfold bget, bidx. rewrite Hs.
  cbn [length Nat.sub skipn clamp_ones Nat.eqb ravel strides dot numel].
  f_equal. destruct (Nat.eqb_spec c 1); lia.
Qed.

Lemma unravel4 (n c h w k : nat) :
  k < numel [n; c; h; w] ->
  exists i j y z, unravel [n; c; h; w] k = [i; j; y; z]
                  /\ i < n /\ j < c /\ y < h /\ z < w.
Proof.
  intro Hk. pose proof (unravel_in_range _ Hk) as H.
  remember (unravel [n; c; h; w] k) as idx. clear Heqidx.
  repeat match goal with
         | H : Forall2 lt _ (_ :: _) |- _ => inversion H; subst; clear H
         | H : Forall2 lt _ [] |- _ => inversion H; subst; clear H
         end.
  eauto 10.
Qed.

Lemma channel_of_lt (n c h w k : nat) :
  k < numel [n; c; h; w] -> channel_of [n; c; h; w] k < c.
Proof.
  intro Hk. unfold channel_of.
  destruct (unravel4 _ _ _ _ Hk) as (i & j & y & z & E & ? & ? & ? & ?).
  rewrite E. assumption.
Qed.

(** [x op b] for a per-channel [b] of shape (1, C, 1, 1). *)
Lemma binop_channel (f : R -> R -> R) (x b : tensor) (n c h w : nat) :
  shape x = [n; c; h; w] -> shape b = [1; c; 1; 1] ->
  binop f x b
  = Ok (tabulate [n; c; h; w]
          (fun k => f (get x k) (get b (channel_of [n; c; h; w] k)))).
Proof.
  intros Hx Hb. unfold binop. rewrite Hx, Hb, broadcast_shape_channel.
  f_equal. apply tabulate_ext. intros k Hk. cbn zeta.
  rewrite <- Hx at 1. rewrite bget_self by (rewrite Hx; exact Hk).
  unfold channel_of.
  destruct (unravel4 _ _ _ _ Hk) as (i & j & y & z & E & ? & ? & ? & ?).
  rewrite E. cbn [nth]. rewrite (@bget_channel b c) by assumption.
  reflexivity.
Qed.

(** [x op= b] for a per-channel [b] of shape (C, 1, 1). *)
Lemma binop__chw (f : R -> R -> R) (x b : tensor) (n c h w : nat) :
  shape x = [n; c; h; w] -> shape b = [c; 1; 1] ->
  binop_ f x b
  = Ok (tabulate [n; c; h; w]
          (fun k => f (get x k) (get b (channel_of [n; c; h; w] k)))).
Proof.
  intros Hx Hb. unfold binop_. rewrite Hx, Hb, broadcast_shape_chw.
  rewrite list_nat_eqb_refl.
  f_equal. apply tabulate_ext. intros k Hk. cbn zeta.
  rewrite <- Hx at 1. rewrite bget_self by (rewrite Hx; exact Hk).
  unfold channel_of.
  destruct (unravel4 _ _ _ _ Hk) as (i & j & y & z & E & ? & ? & ? & ?).
  rewrite E. cbn [nth]. rewrite (@bget_chw b c) by assumption.
  reflexivity.
Qed.

(** [a op= v] for a zero-dimensional [v]. *)
Lemma binop__scalar (f : R -> R -> R) (a : tensor) (v : R) :
  binop_ f a (mkTensor [] [v])
  = Ok (tabulate (shape a) (fun k => f (get a k) v)).
Proof.
  unfold binop_. cbn [shape]. rewrite broadcast_shape_nil_r.
  rewrite list_nat_eqb_refl.
  f_equal. apply tabulate_ext. intros k Hk. cbn zeta.
  rewrite bget_self by exact Hk. reflexivity.
Qed.

(** [a op b] for operands of one shape. *)
Lemma binop_same (f : R -> R -> R) (a b : tensor) :
  shape a = shape b ->
  binop f a b = Ok (tabulate (shape a) (fun k => f (get a k) (get b k))).
Proof.
  intro E. unfold binop. rewrite <- E, broadcast_shape_refl.
  f_equal. apply tabulate_ext. intros k Hk. cbn zeta.
  rewrite bget_self by exact Hk.
  rewrite E at 1. rewrite bget_self by (rewrite <- E; exact Hk).
  reflexivity.
Qed.

(** ** ActNorm *)

Lemma get_tmap (f : R -> R) (t : tensor) (k : nat) :
  k < length (data t) -> get (tmap f t) k = f (get t k).
Proof.
  intro Hk. unfold get, tmap. cbn [data].
  rewrite nth_indep with (d' := f 0%R) by (rewrite length_map; exact Hk).
  apply map_nth.
Qed.

Lemma tmap_wf (f : R -> R) (t : tensor) : wf t -> wf (tmap f t).
Proof. unfold wf, tmap. cbn [data shape]. now rewrite length_map. Qed.

Lemma copy__ok (dst src : tensor) :
  broadcast_shape (shape dst) (shape src) = Some (shape dst) ->
  exists r, copy_ dst src = Ok r /\ shape r = shape dst /\ wf r.
Proof.
  intro H. unfold copy_, binop_. rewrite H, list_nat_eqb_refl.
  eexists. split; [reflexivity|]. split; [reflexivity|apply tabulate_wf].
Qed.

Lemma broadcast_shape_pooled (c : nat) :
  broadcast_shape [1; c; 1; 1] [1; 1; 1; 1] = Some [1; c; 1; 1].
Proof. broadcast_tac. Qed.

Lemma reduce_mean_shape_nhw (x : tensor) (n c h w : nat) :
  shape x = [n; c; h; w] ->
  shape (ops.reduce_mean x (Some [0; 2; 3]) true) = [1; c; 1; 1].
Proof.
  intro Hs. unfold ops.reduce_mean, ops.reduce_sum, tmap, tabulate.
  cbn [shape]. rewrite Hs. reflexivity.
Qed.

Lemma reduce_mean_shape_all (x : tensor) (n c h w : nat) :
  shape x = [n; c; h; w] ->
  shape (ops.reduce_mean x None true) = [1; 1; 1; 1].
Proof.
  intro Hs. unfold ops.reduce_mean, ops.reduce_sum, tmap, tabulate.
  cbn [shape]. rewrite Hs. reflexivity.
Qed.

Lemma maybe_initialize_bias (self : ActNorm.t) (x : tensor) (n h w : nat) :
  ActNorm.shaped self ->
  shape x = [n; ActNorm.num_channels self; h; w] ->
  exists sb,
    (if negb (ActNorm.bias_inited self) then ActNorm.initialize_bias self x
     else Ok self) = Ok sb
    /\ ActNorm.shaped sb
    /\ same_but_bias self sb
    /\ (ActNorm.training self = true -> ActNorm.bias_inited sb = true)
    /\ (ActNorm.bias_inited self = true \/ ActNorm.training self = false ->
        sb = self).
Proof.
  intros (Sb & Sl & Wb & Wl) Hx.
  destruct (ActNorm.bias_inited self) eqn:Ei; cbn [negb].
  { exists self. unfold same_but_bias, ActNorm.shaped. intuition. }
  unfold ActNorm.initialize_bias.
  destruct (ActNorm.training self) eqn:Et; cbn [negb].
  2:{ exists self. unfold same_but_bias, ActNorm.shaped.
      intuition discriminate. }
  destruct (@copy__ok (ActNorm.bias self)
              (tmap (fun v => (-1 * v)%R)
                 (ops.reduce_mean x (Some [0; 2; 3]) true)))
    as (b & Eb & Shb & Wfb).
  { cbn [tmap shape]. rewrite (reduce_mean_shape_nhw x Hx), Sb.
    apply broadcast_shape_refl. }
  rewrite Eb. cbn [bind].
  exists (ActNorm.write_bias self b).
  split; [reflexivity|]. split.
  { unfold ActNorm.shaped, ActNorm.write_bias. cbn.
    rewrite Shb. auto. }
  split.
  { unfold same_but_bias, ActNorm.write_bias. cbn. intuition. }
  split; [reflexivity|].
  intros [?|?]; discriminate.
Qed.

Lemma maybe_initialize_logs (self : ActNorm.t) (x : tensor) (n h w : nat) :
  ActNorm.shaped self ->
  shape x = [n; ActNorm.num_channels self; h; w] ->
  exists sl,
    (if negb (ActNorm.logs_inited self) then ActNorm.initialize_logs self x
     else Ok self) = Ok sl
    /\ ActNorm.shaped sl
    /\ same_but_logs self sl
    /\ (ActNorm.training self = true -> ActNorm.logs_inited sl = true)
    /\ (ActNorm.logs_inited self = true \/ ActNorm.training self = false ->
        sl = self).
Proof.
  intros (Sb & Sl & Wb & Wl) Hx.
  destruct (ActNorm.logs_inited self) eqn:Ei; cbn [negb].
  { exists self. unfold same_but_logs, ActNorm.shaped. intuition. }
  unfold ActNorm.initialize_logs.
  destruct (ActNorm.training self) eqn:Et; cbn [negb].
  2:{ exists self. unfold same_but_logs, ActNorm.shaped.
      intuition discriminate. }
  match goal with
  | |- context [copy_ ?d ?s] =>
      destruct (@copy__ok d s) as (l & El & Shl & Wfl)
  end.
  { cbn [tmap shape]. rewrite Sl.
    destruct (ActNorm.batch_variance self).
    - rewrite (@reduce_mean_shape_all _ n (ActNorm.num_channels self) h w)
        by exact Hx.
      apply broadcast_shape_pooled.
    - rewrite (@reduce_mean_shape_nhw _ n (ActNorm.num_channels self) h w)
        by exact Hx.
      apply broadcast_shape_refl. }
  rewrite El. cbn [bind].
  exists (ActNorm.write_logs self l).
  split; [reflexivity|]. split.
  { unfold ActNorm.shaped, ActNorm.write_logs. cbn.
    rewrite Shl. auto. }
  split.
  { unfold same_but_logs, ActNorm.write_logs. cbn. intuition. }
  split; [reflexivity|].
  intros [?|?]; discriminate.
Qed.

Lemma center_ok (self : ActNorm.t) (x : tensor) (n h w : nat) (rev : bool) :
  ActNorm.shaped self ->
  shape x = [n; ActNorm.num_channels self; h; w] ->
  exists sb,
    ActNorm.shaped sb
    /\ same_but_bias self sb
    /\ (ActNorm.training self = true -> ActNorm.bias_inited sb = true)
    /\ (ActNorm.bias_inited self = true \/ ActNorm.training self = false ->
        sb = self)
    /\ ActNorm.actnorm_center self x rev
       = Ok (sb,
             tabulate [n; ActNorm.num_channels self; h; w]
               (fun k =>
                  (if rev then Rminus else Rplus)
                    (get x k)
                    (get (ActNorm.bias sb)
                       (channel_of [n; ActNorm.num_channels self; h; w] k)))).
Proof.
  intros Hsh Hx.
  destruct (@maybe_initialize_bias self x n h w Hsh Hx) as (sb & E & Hsb & Hsame & Ht & Hu).
  exists sb. repeat (split; [assumption|]).
  unfold ActNorm.actnorm_center. rewrite E. cbn [bind].
  destruct Hsb as (Sb & _). destruct Hsame as (Hc & _).
  rewrite Hc in Sb.
  destruct rev; cbn [negb];
    rewrite (@binop_channel _ x (ActNorm.bias sb) _ _ _ _ Hx Sb); reflexivity.
Qed.

Lemma scale_ok (self : ActNorm.t) (x : tensor) (logdet : option tensor)
    (n h w : nat) (rev : bool) :
  ActNorm.shaped self ->
  shape x = [n; ActNorm.num_channels self; h; w] ->
  exists sl,
    ActNorm.shaped sl
    /\ same_but_logs self sl
    /\ (ActNorm.training self = true -> ActNorm.logs_inited sl = true)
    /\ (ActNorm.logs_inited self = true \/ ActNorm.training self = false ->
        sl = self)
    /\ ActNorm.actnorm_scale self x logdet rev
       = Ok (sl,
             tabulate [n; ActNorm.num_channels self; h; w]
               (fun k =>
                  (get x k *
                   exp ((if rev then Ropp else (fun v => v))
                          (get (ActNorm.logs sl)
                             (channel_of [n; ActNorm.num_channels self; h; w] k)
                           * ActNorm.logscale_factor self)))%R),
             option_map
               (fun ld =>
                  tabulate (shape ld)
                    (fun k =>
                       (get ld k +
                        (if rev then (fun v => v * -1) else (fun v => v))
                          (Rsum (map (fun v => v * ActNorm.logscale_factor self)
                                   (data (ActNorm.logs sl)))
                           * INR (h * w)))%R))
               logdet).
Proof.
  intros Hsh Hx.
  destruct (@maybe_initialize_logs self x n h w Hsh Hx) as (sl & E & Hsl & Hsame & Ht & Hu).
  exists sl. repeat (split; [assumption|]).
  unfold ActNorm.actnorm_scale. rewrite E. cbn [bind].
  destruct Hsl as (_ & Sl & _ & Wl).
  destruct Hsame as (Hc & _ & Hlf & _).
  rewrite Hc in Sl. rewrite Hlf.
  set (C := ActNorm.num_channels self) in *.
  set (lf := ActNorm.logscale_factor self) in *.
  set (logs' := tmap (fun v => (v * lf)%R) (ActNorm.logs sl)).
  assert (Hlen : length (data (ActNorm.logs sl)) = C).
  { unfold wf in Wl. rewrite Wl, Sl. simpl. lia. }
  assert (Hy : (if negb rev then binop Rmult x (tmap exp logs')
                else binop Rmult x (tmap exp (tmap Ropp logs')))
               = Ok (tabulate [n; C; h; w]
                       (fun k =>
                          (get x k *
                           exp ((if rev then Ropp else (fun v => v))
                                  (get (ActNorm.logs sl)
                                     (channel_of [n; C; h; w] k) * lf)))%R))).
  { destruct rev; cbn [negb].
    - rewrite (@binop_channel _ x _ n C h w) by (assumption || exact Sl).
      f_equal. apply tabulate_ext. intros k Hk.
      pose proof (@channel_of_lt _ _ _ _ _ Hk) as Hch.
      unfold logs'.
      rewrite !get_tmap; cbn [tmap data]; rewrite ?length_map; try lia.
      reflexivity.
    - rewrite (@binop_channel _ x _ n C h w) by (assumption || exact Sl).
      f_equal. apply tabulate_ext. intros k Hk.
      pose proof (@channel_of_lt _ _ _ _ _ Hk) as Hch.
      unfold logs'.
      rewrite !get_tmap; cbn [tmap data]; rewrite ?length_map; try lia.
      reflexivity. }
  rewrite Hy. cbn [bind].
  destruct logdet as [ld|]; cbn [option_map bind]; [|reflexivity].
  unfold dim. cbn [tabulate shape nth_error bind].
  unfold tsum, logs', tmap. cbn [shape data map].
  destruct rev; rewrite binop__scalar; reflexivity.
Qed.

Lemma forward_ok (self : ActNorm.t) (x : tensor) (logdet : option tensor)
    (rev : bool) :
  ActNorm.shaped self ->
  ActNorm.valid_input self x ->
  exists s',
    ActNorm.shaped s'
    /\ same_config self s'
    /\ (ActNorm.training self = true ->
        ActNorm.bias_inited s' = true /\ ActNorm.logs_inited s' = true)
    /\ ((ActNorm.bias_inited self = true /\ ActNorm.logs_inited self = true)
        \/ ActNorm.training self = false -> s' = self)
    /\ ActNorm.forward self x logdet rev
       = Ok (s',
             actnorm_output (ActNorm.bias s') (ActNorm.logs s')
               (ActNorm.logscale_factor self) x rev,
             actnorm_logdet (ActNorm.logs s')
               (ActNorm.logscale_factor self) x rev logdet).
Proof.
  intros Hsh (n & h & w & Hx).
  unfold ActNorm.forward, actnorm_output, actnorm_logdet.
  rewrite Hx. cbn [length Nat.eqb nth assert bind].
  rewrite Nat.eqb_refl. cbn [assert bind].
  set (C := ActNorm.num_channels self) in *.
  destruct rev; cbn [negb].
  - (* reverse: scale, then center *)
    destruct (@scale_ok self x logdet n h w true Hsh Hx)
      as (sl & Hsl & Hsame & Ht & Hu & E).
    fold C in E. rewrite E. cbn [bind].
    destruct Hsame as (Hc & Hsc & Hlf & Hbv & Htr & Hb & Hbi).
    assert (Hx1 : forall g, shape (tabulate [n; C; h; w] g)
                            = [n; ActNorm.num_channels sl; h; w])
      by (intro g; rewrite Hc; reflexivity).
    match goal with
    | |- context [ActNorm.actnorm_center sl ?x1 true] =>
        destruct (@center_ok sl x1 n h w true Hsl (Hx1 _))
          as (sb & Hsb & Hsame' & Ht' & Hu' & E')
    end.
    rewrite E'. cbn [bind].
    destruct Hsame' as (Hc' & Hsc' & Hlf' & Hbv' & Htr' & Hl' & Hli').
    exists sb. split; [exact Hsb|].
    split; [unfold same_config; repeat split; congruence|].
    split; [intro T; split; [apply Ht'; congruence | rewrite Hli'; auto]|].
    split.
    { intro H. assert (sl = self) by tauto. subst sl. apply Hu'. tauto. }
    rewrite Hc, Hl'. fold C. f_equal. f_equal. f_equal.
    apply tabulate_ext. intros k Hk. cbn zeta.
    rewrite get_tabulate by exact Hk. reflexivity.
  - (* forward: center, then scale *)
    destruct (@center_ok self x n h w false Hsh Hx)
      as (sb & Hsb & Hsame & Ht & Hu & E).
    fold C in E. rewrite E. cbn [bind].
    destruct Hsame as (Hc & Hsc & Hlf & Hbv & Htr & Hl & Hli).
    assert (Hx1 : forall g, shape (tabulate [n; C; h; w] g)
                            = [n; ActNorm.num_channels sb; h; w])
      by (intro g; rewrite Hc; reflexivity).
    match goal with
    | |- context [ActNorm.actnorm_scale sb ?x1 logdet false] =>
        destruct (@scale_ok sb x1 logdet n h w false Hsb (Hx1 _))
          as (sl & Hsl & Hsame' & Ht' & Hu' & E')
    end.
    rewrite E'.
    destruct Hsame' as (Hc' & Hsc' & Hlf' & Hbv' & Htr' & Hb' & Hbi').
    exists sl. split; [exact Hsl|].
    split; [unfold same_config; repeat split; congruence|].
    split; [intro T; split; [rewrite Hbi'; auto | apply Ht'; congruence]|].
    split.
    { intro H. assert (sb = self) by tauto. subst sb. apply Hu'. tauto. }
    rewrite Hc, Hlf, Hb'. fold C. f_equal. f_equal. f_equal.
    apply tabulate_ext. intros k Hk. cbn zeta.
    rewrite get_tabulate by exact Hk. reflexivity.
Qed.

Lemma exp_cancel (a b L : R) : ((a + b) * exp L * exp (- L) - b)%R = a.
Proof.
  rewrite Rmult_assoc, <- exp_plus, Rplus_opp_r, exp_0. ring.
Qed.

Lemma actnorm_output_inverse (b l : tensor) (lf : R) (x : tensor) :
  wf x ->
  actnorm_output b l lf (actnorm_output b l lf x false) true = x.
Proof.
  intro Hwf. unfold actnorm_output at 1. cbn [actnorm_output shape tabulate].
  transitivity (tabulate (shape x) (get x)); [|apply tabulate_get; exact Hwf].
  apply tabulate_ext. intros k Hk. cbn zeta.
  unfold actnorm_output at 1. rewrite get_tabulate by exact Hk.
  cbn zeta. apply exp_cancel.
Qed.

Lemma actnorm_logdet_inverse (l : tensor) (lf : R) (x y : tensor)
    (logdet : option tensor) :
  shape y = shape x ->
  (forall ld, logdet = Some ld -> wf ld) ->
  actnorm_logdet l lf y true (actnorm_logdet l lf x false logdet) = logdet.
Proof.
  intros Hs Hwf. destruct logdet as [ld|]; [|reflexivity].
  unfold actnorm_logdet. cbn [option_map]. f_equal.
  cbn [tabulate shape].
  transitivity (tabulate (shape ld) (get ld));
    [|apply tabulate_get; apply Hwf; reflexivity].
  apply tabulate_ext. intros k Hk.
  rewrite get_tabulate by exact Hk. rewrite Hs. ring.
Qed.

(** C6.  On every rank-4 input with the configured channel count and every
    accumulator (present or absent), [forward] with [reverse=False]
    followed by [forward] with [reverse=True] on its results succeeds,
    returns the input and the initial accumulator, and the second call
    leaves the layer as the first one left it.  Scalars are exact reals, so
    the tolerance of the claim is an equality here. *)
Theorem actnorm_forward_reverse (self : ActNorm.t) (x : tensor)
    (logdet : option tensor) :
  ActNorm.shaped self ->
  ActNorm.valid_input self x ->
  wf x ->
  (forall ld, logdet = Some ld -> wf ld) ->
  exists s1 y ld1,
    ActNorm.forward self x logdet false = Ok (s1, y, ld1)
    /\ ActNorm.forward s1 y ld1 true = Ok (s1, x, logdet).
Proof.
  intros Hsh Hv Hwf Hld.
  destruct (@forward_ok self x logdet false Hsh Hv)
    as (s1 & Hs1 & Hcfg & Hflags & _ & E1).
  destruct Hcfg as (Hc & _ & Hlf & _ & Htr).
  eexists s1, _, _. split; [exact E1|].
  assert (Hv1 : ActNorm.valid_input s1
                  (actnorm_output (ActNorm.bias s1) (ActNorm.logs s1)
                     (ActNorm.logscale_factor self) x false)).
  { destruct Hv as (n & h & w & Hx). exists n, h, w.
    rewrite Hc. exact Hx. }
  destruct (@forward_ok s1 _
              (actnorm_logdet (ActNorm.logs s1) (ActNorm.logscale_factor self)
                 x false logdet) true Hs1 Hv1)
    as (s2 & _ & _ & _ & Hsame & E2).
  assert (s2 = s1).
  { apply Hsame. destruct (ActNorm.training self) eqn:T.
    - left. apply Hflags. reflexivity.
    - right. congruence. }
  subst s2. rewrite E2, Hlf.
  rewrite actnorm_output_inverse by exact Hwf.
  rewrite actnorm_logdet_inverse by (reflexivity || exact Hld).
  reflexivity.
Qed.

Lemma init_shaped (C : nat) (scale lf : R) (bv : bool) :
  ActNorm.shaped (ActNorm.init C scale lf bv).
Proof.
  unfold ActNorm.shaped, ActNorm.init. cbn.
  repeat split; apply tabulate_wf.
Qed.

(** C6 witness: a fresh one-channel layer, a 1 x 1 x 1 x 2 input and a
    one-element accumulator. *)
Lemma actnorm_forward_reverse_witness :
  let self := ActNorm.init 1 1 3 false in
  let x := mkTensor [1; 1; 1; 2] [2; 5]%R in
  let logdet := Some (mkTensor [1] [0%R]) in
  exists s1 y ld1,
    ActNorm.forward self x logdet false = Ok (s1, y, ld1)
    /\ ActNorm.forward s1 y ld1 true = Ok (s1, x, logdet).
Proof.
  intros self x logdet.
  apply (@actnorm_forward_reverse self x logdet).
  - apply init_shaped.
  - exists 1, 1, 2. reflexivity.
  - reflexivity.
  - intros ld E. injection E as <-. reflexivity.
Defined.

(** *** The initialisation latch *)

Lemma train_shaped (b : bool) (s : ActNorm.t) :
  ActNorm.shaped s -> ActNorm.shaped (ActNorm.train b s).
Proof. intro H. exact H. Qed.

Lemma train_train (b b' : bool) (s : ActNorm.t) :
  ActNorm.train b (ActNorm.train b' s) = ActNorm.train b s.
Proof. reflexivity. Qed.

Lemma train_id (s : ActNorm.t) : ActNorm.train (ActNorm.training s) s = s.
Proof. destruct s; reflexivity. Qed.

Lemma run_app (s : ActNorm.t) (a b : list ActNorm.call) :
  ActNorm.run s (a ++ b) = (s' <- ActNorm.run s a ;; ActNorm.run s' b).
Proof.
  revert s. induction a as [|c a IH]; intro s; [reflexivity|].
  cbn [app ActNorm.run].
  destruct (ActNorm.forward (ActNorm.train (ActNorm.call_training c) s)
              (ActNorm.call_x c) (ActNorm.call_logdet c)
              (ActNorm.call_reverse c)) as [[[s' y] ld]|e];
    cbn [bind]; [apply IH | reflexivity].
Qed.

(** Calls in non-training mode leave the parameters and the flags alone. *)
Lemma run_eval (C : nat) (evals : list ActNorm.call) :
  forall s,
    ActNorm.shaped s -> ActNorm.num_channels s = C ->
    Forall (fun c => ActNorm.call_training c = false
                     /\ exists n h w, shape (ActNorm.call_x c) = [n; C; h; w])
           evals ->
    exists s0, ActNorm.run s evals = Ok s0
               /\ ActNorm.train true s0 = ActNorm.train true s.
Proof.
  induction evals as [|c evals IH]; intros s Hsh HC Hall.
  - exists s. split; reflexivity.
  - inversion Hall as [|? ? [Ht Hv] Hall']; subst.
    cbn [ActNorm.run]. rewrite Ht.
    destruct (@forward_ok (ActNorm.train false s) (ActNorm.call_x c)
                (ActNorm.call_logdet c) (ActNorm.call_reverse c))
      as (s' & Hs' & _ & _ & Hsame & E).
    + apply train_shaped. exact Hsh.
    + exact Hv.
    + rewrite E. cbn [bind].
      assert (s' = ActNorm.train false s) by (apply Hsame; right; reflexivity).
      subst s'.
      destruct (IH (ActNorm.train false s)) as (s0 & E0 & T0); auto.
      exists s0. split; [exact E0|]. rewrite T0. apply train_train.
Qed.

(** Once both flags are set no call writes the parameters. *)
Lemma run_inited (C : nat) (rest : list ActNorm.call) :
  forall s,
    ActNorm.shaped s -> ActNorm.num_channels s = C ->
    ActNorm.bias_inited s = true -> ActNorm.logs_inited s = true ->
    Forall (fun c => exists n h w, shape (ActNorm.call_x c) = [n; C; h; w])
           rest ->
    exists s2, ActNorm.run s rest = Ok s2
               /\ ActNorm.bias s2 = ActNorm.bias s
               /\ ActNorm.logs s2 = ActNorm.logs s.
Proof.
  induction rest as [|c rest IH]; intros s Hsh HC Hb Hl Hall.
  - exists s. repeat split; reflexivity.
  - inversion Hall as [|? ? Hv Hall']; subst.
    cbn [ActNorm.run].
    set (st := ActNorm.train (ActNorm.call_training c) s).
    destruct (@forward_ok st (ActNorm.call_x c)
                (ActNorm.call_logdet c) (ActNorm.call_reverse c))
      as (s' & Hs' & _ & _ & Hsame & E).
    + apply train_shaped. exact Hsh.
    + exact Hv.
    + rewrite E. cbn [bind].
      assert (s' = st) by (apply Hsame; left; split; assumption).
      subst s'.
      destruct (IH st) as (s2 & E2 & B2 & L2); auto.
      exists s2. split; [exact E2|]. split; assumption.
Qed.

(** C3, as amended.  Start from a fresh layer and make any number of valid
    non-training calls, then a first training-mode call [c], then any valid
    calls in any mode.  All calls succeed; the non-training calls before
    [c] leave bias and logs at their initial zeros; after the whole
    sequence bias and logs are exactly what the call [c] alone writes on a
    fresh layer. *)
Theorem actnorm_single_shot_init (C : nat) (scale lf : R) (bv : bool)
    (evals rest : list ActNorm.call) (c : ActNorm.call) :
  let fresh := ActNorm.init C scale lf bv in
  Forall (fun c => ActNorm.call_training c = false
                   /\ exists n h w, shape (ActNorm.call_x c) = [n; C; h; w])
         evals ->
  ActNorm.call_training c = true ->
  (exists n h w, shape (ActNorm.call_x c) = [n; C; h; w]) ->
  Forall (fun c => exists n h w, shape (ActNorm.call_x c) = [n; C; h; w])
         rest ->
  exists s0 s1 s2,
    ActNorm.run fresh evals = Ok s0
    /\ ActNorm.bias s0 = ActNorm.bias fresh
    /\ ActNorm.logs s0 = ActNorm.logs fresh
    /\ ActNorm.run fresh [c] = Ok s1
    /\ ActNorm.run fresh (evals ++ c :: rest) = Ok s2
    /\ ActNorm.bias s2 = ActNorm.bias s1
    /\ ActNorm.logs s2 = ActNorm.logs s1.
Proof.
  intros fresh Hevals Hc Hvc Hrest.
  pose proof (init_shaped C scale lf bv) as Hfresh. fold fresh in Hfresh.
  destruct (@run_eval C evals fresh Hfresh eq_refl Hevals) as (s0 & E0 & T0).
  assert (Tf : ActNorm.train true fresh = fresh) by reflexivity.
  destruct (@forward_ok fresh (ActNorm.call_x c) (ActNorm.call_logdet c)
              (ActNorm.call_reverse c) Hfresh Hvc)
    as (s1 & Hs1 & Hcfg & Hflags & _ & E1).
  destruct (Hflags eq_refl) as [Hb1 Hl1].
  destruct Hcfg as (Hc1 & _).
  destruct (@run_inited C rest s1 Hs1 Hc1 Hb1 Hl1 Hrest) as (s2 & E2 & B2 & L2).
  exists s0, s1, s2.
  split; [exact E0|].
  split; [change (ActNorm.bias (ActNorm.train true s0)
                  = ActNorm.bias (ActNorm.train true fresh));
          now rewrite T0|].
  split; [change (ActNorm.logs (ActNorm.train true s0)
                  = ActNorm.logs (ActNorm.train true fresh));
          now rewrite T0|].
  split.
  { cbn [ActNorm.run]. rewrite Hc, Tf, E1. reflexivity. }
  split; [|split; assumption].
  rewrite run_app, E0. cbn [bind ActNorm.run].
  rewrite Hc, T0, Tf, E1. cbn [bind]. exact E2.
Qed.

(** C3 witness: one non-training call, the first training call, one more
    training call. *)
Lemma actnorm_single_shot_init_witness :
  let fresh := ActNorm.init 1 1 3 false in
  let e := ActNorm.mkCall false ones_1_1_1_1 None false in
  let c := ActNorm.mkCall true ones_1_1_1_1 None false in
  exists s0 s1 s2,
    ActNorm.run fresh [e] = Ok s0
    /\ ActNorm.bias s0 = ActNorm.bias fresh
    /\ ActNorm.logs s0 = ActNorm.logs fresh
    /\ ActNorm.run fresh [c] = Ok s1
    /\ ActNorm.run fresh ([e] ++ c :: [c]) = Ok s2
    /\ ActNorm.bias s2 = ActNorm.bias s1
    /\ ActNorm.logs s2 = ActNorm.logs s1.
Proof.
  intros fresh e c.
  apply (@actnorm_single_shot_init 1 1 3 false [e] [c] c).
  - repeat constructor. exists 1, 1, 1. reflexivity.
  - reflexivity.
  - exists 1, 1, 1. reflexivity.
  - repeat constructor. exists 1, 1, 1. reflexivity.
Defined.

(** C3 as stated fails: the first call of a fresh layer is made in
    non-training mode, and the training-mode call that follows still
    writes the bias (from 0 to -1 on an input whose mean is 1). *)
Lemma actnorm_late_training_call_writes :
  let fresh := ActNorm.init 1 1 3 false in
  exists s1 s2,
    ActNorm.run fresh [ActNorm.mkCall false ones_1_1_1_1 None false] = Ok s1
    /\ ActNorm.run s1 [ActNorm.mkCall true ones_1_1_1_1 None false] = Ok s2
    /\ get (ActNorm.bias s1) 0 = 0%R
    /\ get (ActNorm.bias s2) 0 = (-1)%R
    /\ ActNorm.bias s2 <> ActNorm.bias s1.
Proof.
  intro fresh. eexists. eexists.
  split; [cbn; reflexivity|].
  split; [cbn; reflexivity|].
  assert (G1 : get (ActNorm.bias (ActNorm.train false fresh)) 0 = 0%R)
    by reflexivity.
  split; [cbn; reflexivity|].
  assert (G2 : (-1 * ((1 + 0) / 1))%R = (-1)%R) by lra.
  split; [cbn; exact G2|].
  intro E. apply (f_equal (fun t => get t 0)) in E. cbn in E. lra.
Qed.

(** ** Zero-initialised layers *)

Lemma nth_map_zero {A : Type} (l : list A) :
  forall k, nth k (map (fun _ => 0%R) l) 0%R = 0%R.
Proof.
  induction l as [|a l IH]; intros [|k]; simpl; auto.
Qed.

Lemma get_zero_ (t : tensor) (k : nat) : get (zero_ t) k = 0%R.
Proof. apply nth_map_zero. Qed.

Lemma get_zeros (s : list nat) (k : nat) : get (zeros s) k = 0%R.
Proof. apply nth_map_zero. Qed.

Lemma Rsum_zero (l : list R) : (forall v, In v l -> v = 0%R) -> Rsum l = 0%R.
Proof.
  induction l as [|a l IH]; intro H; simpl; [reflexivity|].
  rewrite (H a) by (left; reflexivity).
  rewrite IH by (intros v Hv; apply H; right; exact Hv). ring.
Qed.

Lemma Rsum_map_zero {A : Type} (f : A -> R) (l : list A) :
  (forall a, f a = 0%R) -> Rsum (map f l) = 0%R.
Proof.
  intro H. apply Rsum_zero. intros v Hv.
  apply in_map_iff in Hv. destruct Hv as (a & <- & _). apply H.
Qed.

Lemma binop__left_zero (a b : tensor) :
  broadcast_shape (shape a) (shape b) = Some (shape a) ->
  (forall k, k < numel (shape a) -> get a k = 0%R) ->
  binop_ Rmult a b = Ok (zeros (shape a)).
Proof.
  intros Hb Hz. unfold binop_. rewrite Hb, list_nat_eqb_refl.
  f_equal. apply tabulate_ext. intros k Hk. cbn zeta.
  rewrite bget_self by exact Hk. rewrite Hz by exact Hk. ring.
Qed.

Lemma conv2d_shape_form (sx sw : list nat) (stride : nat) (padding : nat * nat)
    (dilation groups : nat) (s' : list nat) :
  F.conv2d_shape sx sw stride padding dilation groups = Ok s' ->
  exists n ho wo, s' = [n; nth 0 sw 0; ho; wo].
Proof.
  unfold F.conv2d_shape.
  destruct sx as [|n [|cin [|h [|w [|? ?]]]]]; try discriminate.
  destruct sw as [|o [|cg [|kh [|kw [|? ?]]]]]; try discriminate.
  destruct (groups =? 0); [discriminate|].
  destruct (negb (cin =? cg * groups)); [discriminate|].
  destruct (negb (o mod groups =? 0)); [discriminate|].
  destruct (F.conv_out h (fst padding) dilation kh stride) as [ho|];
    [|discriminate].
  destruct (F.conv_out w (snd padding) dilation kw stride) as [wo|];
    [|discriminate].
  cbn [bind]. intro E. injection E as <-. eauto.
Qed.

(** With a zero weight and a zero bias a convolution is zero wherever it is
    defined. *)
Lemma conv2d_zero (x w b : tensor) (stride : nat) (padding : nat * nat)
    (dilation groups : nat) :
  F.conv2d x (zero_ w) (Some (zero_ b)) stride padding dilation groups
  = (s' <- F.conv2d_shape (shape x) (shape w) stride padding dilation groups ;;
     Ok (zeros s')).
Proof.
  unfold F.conv2d. cbn [zero_ tmap shape].
  destruct (F.conv2d_shape (shape x) (shape w) stride padding dilation groups)
    as [s'|e]; cbn [bind]; [|reflexivity].
  f_equal. apply tabulate_ext. intros k _.
  change (tmap (fun _ => 0%R) w) with (zero_ w).
  change (tmap (fun _ => 0%R) b) with (zero_ b).
  destruct (unravel s' k) as [|a [|oc [|y [|z [|? ?]]]]]; try reflexivity.
  rewrite Rsum_map_zero.
  - rewrite get_zero_. ring.
  - intro t.
    destruct (unravel _ t) as [|c [|i [|j [|? ?]]]]; try reflexivity.
    rewrite get_zero_. ring.
Qed.

Lemma broadcast_shape_last (pre : list nat) (o : nat) :
  broadcast_shape (rev (o :: pre)) [o] = Some (rev (o :: pre)).
Proof.
  unfold broadcast_shape. rewrite rev_involutive.
  cbn [rev app broadcast_rev]. rewrite broadcast_rev_nil_r, Nat.eqb_refl.
  reflexivity.
Qed.

Lemma linear_zero (x w b : tensor) :
  F.linear x (zero_ w) (Some (zero_ b))
  = (s' <- F.linear_shape (shape x) (shape w) ;; Ok (zeros s')).
Proof.
  unfold F.linear. cbn [zero_ tmap shape].
  destruct (F.linear_shape (shape x) (shape w)) as [s'|e]; cbn [bind];
    [|reflexivity].
  f_equal. apply tabulate_ext. intros k _. cbn zeta.
  change (tmap (fun _ => 0%R) w) with (zero_ w).
  change (tmap (fun _ => 0%R) b) with (zero_ b).
  rewrite Rsum_map_zero, get_zero_; [ring|].
  intro j. rewrite get_zero_. ring.
Qed.

Lemma conv2dzeros_init_inv (ic oc : nat) (ks : Conv2d.kernel_arg)
    (stride : nat) (pt : String.string) (lf : R) (dil groups : nat)
    (hb : bool) (w0 b0 : nat -> R) (L : Conv2dZeros.t) :
  Conv2dZeros.init ic oc ks stride pt lf dil groups hb w0 b0 = Ok L ->
  exists p W B,
    Conv2d.get_padding pt ks stride = Ok p
    /\ shape W = [oc; ic / groups; fst (Conv2d.pair_of ks);
                  snd (Conv2d.pair_of ks)]
    /\ L = Conv2dZeros.mk
             (nnConv2d.mk ic oc (Conv2d.pair_of ks) stride p dil groups
                (zero_ W) (Some (zero_ B)))
             lf (zeros [oc; 1; 1]).
Proof.
  unfold Conv2dZeros.init.
  destruct (Conv2d.get_padding pt ks stride) as [p|e]; [|discriminate].
  cbn [bind]. unfold nnConv2d.init.
  destruct (groups =? 0); [discriminate|].
  destruct (negb (ic mod groups =? 0)); [discriminate|].
  destruct (negb (oc mod groups =? 0)); [discriminate|].
  cbn [bind nnConv2d.bias].
  destruct hb; cbn [bind]; [|discriminate].
  intro E. injection E as <-.
  eexists p, _, _. split; [reflexivity|]. split; [|reflexivity].
  reflexivity.
Qed.

(** C8.  A [Conv2dZeros] or a [LinearZeros] as constructed maps every input
    to zeros: [forward] returns the all-zero tensor of the output shape
    whenever the input has a shape the underlying convolution (linear map)
    accepts, and raises the shape error of that operation otherwise. *)
Theorem zero_layers_output_zero :
  (forall ic oc ks stride pt lf dil groups hb w0 b0 L x,
     Conv2dZeros.init ic oc ks stride pt lf dil groups hb w0 b0 = Ok L ->
     Conv2dZeros.forward L x
     = (s' <- F.conv2d_shape (shape x)
                [oc; ic / groups; fst (Conv2d.pair_of ks);
                 snd (Conv2d.pair_of ks)]
                stride (nnConv2d.padding (Conv2dZeros.conv L)) dil groups ;;
        Ok (zeros s')))
  /\ (forall i o hb lf w0 b0 L x,
        LinearZeros.init i o hb lf w0 b0 = Ok L ->
        LinearZeros.forward L x
        = (s' <- F.linear_shape (shape x) [o; i] ;; Ok (zeros s'))).
Proof.
  split.
  - intros ic oc ks stride pt lf dil groups hb w0 b0 L x Hinit.
    destruct (conv2dzeros_init_inv _ _ _ _ _ _ _ _ _ _ _ Hinit)
      as (p & W & B & _ & HW & ->).
    unfold Conv2dZeros.forward, nnConv2d.forward.
    cbn [Conv2dZeros.conv Conv2dZeros.logs Conv2dZeros.logscale_factor
         nnConv2d.weight nnConv2d.bias nnConv2d.stride nnConv2d.padding
         nnConv2d.dilation nnConv2d.groups].
    rewrite conv2d_zero, HW.
    destruct (F.conv2d_shape (shape x) _ stride p dil groups) as [s'|e] eqn:Es;
      cbn [bind]; [|reflexivity].
    destruct (conv2d_shape_form _ _ _ _ _ _ Es) as (n & ho & wo & ->).
    cbn [nth].
    apply binop__left_zero.
    + apply broadcast_shape_chw.
    + intros k _. apply get_zeros.
  - intros i o hb lf w0 b0 L x Hinit.
    unfold LinearZeros.init in Hinit.
    destruct hb; cbn [bind] in Hinit; [|discriminate].
    injection Hinit as <-.
    unfold LinearZeros.forward.
    cbn [LinearZeros.weight LinearZeros.bias LinearZeros.logs
         LinearZeros.logscale_factor].
    rewrite linear_zero. cbn [tabulate shape].
    destruct (F.linear_shape (shape x) [o; i]) as [s'|e] eqn:Es;
      cbn [bind]; [|reflexivity].
    apply binop__left_zero.
    + unfold F.linear_shape in Es.
      destruct (rev (shape x)) as [|i' pre]; [discriminate|].
      destruct (i =? i'); [|discriminate].
      injection Es as <-. apply broadcast_shape_last.
    + intros k _. apply get_zeros.
Qed.

(** C8 witness: a 3 x 3 zero-convolution on a 1 x 1 x 2 x 2 input and a
    2-to-3 zero-linear layer on a batch of one vector. *)
Lemma zero_layers_output_zero_witness :
  (exists L,
     Conv2dZeros.init 1 1 (Conv2d.KPair 3 3) 1 "SAME" 3 1 1 true INR INR = Ok L
     /\ Conv2dZeros.forward L (mkTensor [1; 1; 2; 2] [1; 2; 3; 4]%R)
        = Ok (zeros [1; 1; 2; 2]))
  /\ (exists L,
        LinearZeros.init 2 3 true 3 INR INR = Ok L
        /\ LinearZeros.forward L (mkTensor [1; 2] [1; 2]%R)
           = Ok (zeros [1; 3])).
Proof.
  split.
  - eexists. split; [reflexivity|].
    rewrite (proj1 zero_layers_output_zero
               1 1 (Conv2d.KPair 3 3) 1 "SAME"%string 3%R 1 1 true INR INR
               _ _ eq_refl).
    reflexivity.
  - eexists. split; [reflexivity|].
    rewrite (proj2 zero_layers_output_zero 2 3 true 3%R INR INR _ _ eq_refl).
    reflexivity.
Defined.

(** ** Invertible1x1Conv *)

(** Whenever [forward] returns with a present accumulator, it has added
    (subtracted, in reverse) [log|det W|] times the product of the sizes
    of axes 1 and 2 of the input. *)
Lemma invertible1x1conv_accumulates (self : Invertible1x1Conv.t)
    (x ld z : tensor) (ld' : option tensor) (rev : bool) :
  Invertible1x1Conv.forward self x (Some ld) rev = Ok (z, ld') ->
  exists dt d1 d2,
    linalg.det (Invertible1x1Conv.weight self) = Ok dt
    /\ dim x 1 = Ok d1 /\ dim x 2 = Ok d2
    /\ ld' = Some (tabulate (shape ld)
                     (fun k => (if rev then Rminus else Rplus)
                                 (get ld k)
                                 (ln (Rabs dt) * INR (d1 * d2))%R)).
Proof.
  unfold Invertible1x1Conv.forward.
  destruct (dim x 1) as [d1|]; [|discriminate].
  destruct (dim x 2) as [d2|]; [|discriminate].
  cbn [bind].
  destruct (linalg.det (Invertible1x1Conv.weight self)) as [dt|];
    [|discriminate].
  cbn [bind]. intro H. exists dt, d1, d2.
  repeat (split; [reflexivity|]).
  destruct rev; cbn [negb] in H.
  - destruct (linalg.inverse _) as [winv|]; [|discriminate].
    cbn [bind] in H.
    destruct (F.conv2d _ _ _ _ _ _ _) as [z'|]; [|discriminate].
    cbn [bind Invertible1x1Conv.accumulate] in H.
    rewrite binop__scalar in H. cbn [bind] in H.
    injection H as _ <-. reflexivity.
  - destruct (F.conv2d _ _ _ _ _ _ _) as [z'|]; [|discriminate].
    cbn [bind Invertible1x1Conv.accumulate] in H.
    rewrite binop__scalar in H. cbn [bind] in H.
    injection H as _ <-. reflexivity.
Qed.

Lemma mixing_layer_det : linalg.det (Invertible1x1Conv.weight mixing_layer_det_2) = Ok 2%R.
Proof.
  unfold linalg.det. cbn. f_equal. ring.
Qed.

Lemma ln_2_pos : (0 < ln 2)%R.
Proof. rewrite <- ln_1. apply ln_increasing; lra. Qed.

(** C1 (the code departs from it).  The weight has determinant 2 and the
    input has shape (1, 2, 1, 3), so C * H = 2 and H * W = 3: [forward]
    adds [2 * log 2] to the accumulator, not the [3 * log 2] of the
    claim; in reverse it subtracts the same [2 * log 2]. *)
Theorem invertible1x1conv_logdet_uses_C_times_H :
  exists z ld' zr ldr,
    Invertible1x1Conv.forward mixing_layer_det_2 ones_1_2_1_3 (Some zero_accumulator) false
    = Ok (z, Some ld')
    /\ get ld' 0 = (get zero_accumulator 0 + INR (2 * 1) * ln 2)%R
    /\ get ld' 0 <> (get zero_accumulator 0 + INR (1 * 3) * ln 2)%R
    /\ Invertible1x1Conv.forward mixing_layer_det_2 ones_1_2_1_3 (Some zero_accumulator) true
       = Ok (zr, Some ldr)
    /\ get ldr 0 = (get zero_accumulator 0 - INR (2 * 1) * ln 2)%R.
Proof.
  assert (Habs : Rabs 2 = 2%R) by (apply Rabs_pos_eq; lra).
  assert (Hinv : exists winv,
             linalg.inverse (Invertible1x1Conv.weight mixing_layer_det_2) = Ok winv
             /\ shape winv = [2; 2]).
  { unfold linalg.inverse. rewrite mixing_layer_det. cbn [bind].
    destruct (Req_EM_T 2 0) as [E|_]; [lra|].
    eexists. split; reflexivity. }
  destruct Hinv as (winv & Ew & Sw).
  assert (Hf : exists z ld',
             Invertible1x1Conv.forward mixing_layer_det_2 ones_1_2_1_3 (Some zero_accumulator) false
             = Ok (z, Some ld')
             /\ get ld' 0 = (0 + ln (Rabs 2) * INR 2)%R).
  { unfold Invertible1x1Conv.forward. rewrite mixing_layer_det.
    eexists. eexists. split; [cbn; reflexivity|]. cbn. reflexivity. }
  assert (Hr : exists z ld',
             Invertible1x1Conv.forward mixing_layer_det_2 ones_1_2_1_3 (Some zero_accumulator) true
             = Ok (z, Some ld')
             /\ get ld' 0 = (0 - ln (Rabs 2) * INR 2)%R).
  { unfold Invertible1x1Conv.forward. rewrite mixing_layer_det, Ew.
    cbn [bind dim ones_1_2_1_3 shape nth_error negb].
    unfold F.conv2d. cbn [shape mixing_layer_det_2 Invertible1x1Conv.weight app].
    cbn [F.conv2d_shape Nat.eqb negb Nat.mul Nat.modulo Nat.divmod fst snd
         F.conv_out bind Nat.ltb Nat.leb Nat.add Nat.sub Nat.div].
    eexists. eexists. split; [cbn; reflexivity|]. cbn. reflexivity. }
  destruct Hf as (z & ld' & Ef & Gf). destruct Hr as (zr & ldr & Er & Gr).
  exists z, ld', zr, ldr.
  pose proof ln_2_pos as Hpos.
  rewrite Habs in Gf, Gr.
  assert (I2 : INR (2 * 1) = 2%R) by (simpl; lra).
  assert (I3 : INR (1 * 3) = 3%R) by (simpl; lra).
  assert (I2' : INR 2 = 2%R) by (simpl; lra).
  assert (G0 : get zero_accumulator 0 = 0%R) by reflexivity.
  rewrite I2, I3, G0. rewrite I2' in Gf, Gr.
  split; [exact Ef|]. split; [lra|]. split; [lra|].
  split; [exact Er|]. lra.
Qed.

(** ** Conv2d *)

Lemma normalize_ok (x : tensor) (d : nat) :
  d < length (shape x) -> exists y, F.normalize x d = Ok y.
Proof.
  intro H. unfold F.normalize.
  destruct (Nat.ltb_spec d (length (shape x))) as [_|?]; [|lia].
  eexists. reflexivity.
Qed.

Lemma conv2d_rank (x w y : tensor) (b : option tensor) (stride : nat)
    (padding : nat * nat) (dilation groups : nat) :
  F.conv2d x w b stride padding dilation groups = Ok y ->
  length (shape y) = 4.
Proof.
  unfold F.conv2d.
  destruct (F.conv2d_shape _ _ _ _ _ _) as [s'|] eqn:Es; [|discriminate].
  cbn [bind]. intro E. injection E as <-.
  destruct (conv2d_shape_form _ _ _ _ _ _ Es) as (n & ho & wo & ->).
  reflexivity.
Qed.

(** The weight-normalisation block of [Conv2d.forward] has no effect: the
    three normalised tensors are computed and dropped, and what follows
    works on the convolution output. *)
Lemma conv2d_forward_drops_normalize (self : Conv2d.t) (x : tensor) :
  Conv2d.forward self x
  = (y <- nnConv2d.forward (Conv2d.conv self) x ;;
     if Conv2d.do_actnorm self then
       match Conv2d.actnorm self with
       | Some a =>
           r <- ActNorm.forward a y None false ;;
           let '(a', x', _) := r in
           Ok (Conv2d.mk (Conv2d.conv self) (Conv2d.do_weight_norm self)
                 (Conv2d.do_actnorm self) (Some a'), x')
       | None => Raise AttributeError
       end
     else Ok (self, y)).
Proof.
  unfold Conv2d.forward.
  destruct (nnConv2d.forward (Conv2d.conv self) x) as [y|e] eqn:Ey;
    cbn [bind]; [|reflexivity].
  destruct (Conv2d.do_weight_norm self); cbn [bind]; [|reflexivity].
  apply conv2d_rank in Ey.
  destruct (@normalize_ok y 0) as (y0 & ->); [lia|].
  destruct (@normalize_ok y 2) as (y2 & ->); [lia|].
  destruct (@normalize_ok y 3) as (y3 & ->); [lia|].
  reflexivity.
Qed.

Lemma sqrt_sq_sum (v : R) : (0 <= v)%R -> sqrt (v * (v * 1) + 0) = v.
Proof.
  intro H. replace (v * (v * 1) + 0)%R with (Rsqr v) by (unfold Rsqr; ring).
  apply sqrt_Rsqr. exact H.
Qed.

Lemma normalize_single (v : R) (d : nat) :
  (1 <= v)%R -> d < 4 ->
  F.normalize (mkTensor [1; 1; 1; 1] [v]) d = Ok (mkTensor [1; 1; 1; 1] [1%R]).
Proof.
  intros Hv Hd. unfold F.normalize. cbn [shape length].
  destruct (Nat.ltb_spec d 4) as [_|?]; [|lia].
  f_equal. unfold tabulate. cbn [numel Nat.mul Nat.add seq map]. f_equal.
  assert (E : forall e, e = v ->
            (v / Rmax (sqrt (e * (e * 1) + 0)) (1 / 10 ^ 12))%R = 1%R).
  { intros e ->. rewrite sqrt_sq_sum by lra.
    rewrite Rmax_left.
    - field. lra.
    - apply Rle_trans with 1%R; [|exact Hv].
      apply Rlt_le, Rmult_lt_reg_r with (10 ^ 12)%R; [lra|].
      unfold Rdiv. rewrite Rmult_assoc, Rinv_l by lra. lra. }
  destruct d as [|[|[|[|d]]]]; try lia; cbn; f_equal; apply E; reflexivity.
Qed.

(** C5 (the code departs from it).  A 1 x 1 convolution with weight 1,
    weight normalisation on and no ActNorm, on the 1 x 1 x 1 x 1 input 2:
    [forward] returns the convolution output 2, while normalising that
    output along the batch axis and each spatial axis gives 1. *)
Theorem conv2d_weightnorm_returns_raw_output :
  exists self y n0 n2 n3,
    Conv2d.init 1 1 (Conv2d.KInt 1) 1 "SAME" true false 1 1
      INR INR (fun _ => 1%R) = Ok self
    /\ Conv2d.do_weight_norm self = true
    /\ Conv2d.forward self twos_1_1_1_1 = Ok (self, y)
    /\ nnConv2d.forward (Conv2d.conv self) twos_1_1_1_1 = Ok y
    /\ get y 0 = 2%R
    /\ F.normalize y 0 = Ok n0
    /\ F.normalize n0 2 = Ok n2
    /\ F.normalize n2 3 = Ok n3
    /\ get n3 0 = 1%R
    /\ y <> n3.
Proof.
  exists unit_conv2d_weightnorm, (mkTensor [1; 1; 1; 1] [2%R]).
  exists (mkTensor [1; 1; 1; 1] [1%R]), (mkTensor [1; 1; 1; 1] [1%R]),
         (mkTensor [1; 1; 1; 1] [1%R]).
  split; [reflexivity|].
  split; [reflexivity|].
  assert (Ey : nnConv2d.forward (Conv2d.conv unit_conv2d_weightnorm) twos_1_1_1_1
               = Ok (mkTensor [1; 1; 1; 1] [2%R])).
  { cbn. unfold tabulate. cbn. do 3 f_equal. ring. }
  split.
  { rewrite conv2d_forward_drops_normalize, Ey. reflexivity. }
  split; [exact Ey|].
  split; [reflexivity|].
  split; [apply normalize_single; [lra | lia]|].
  split; [apply normalize_single; [lra | lia]|].
  split; [apply normalize_single; [lra | lia]|].
  split; [reflexivity|].
  intro E. apply (f_equal (fun t => get t 0)) in E. cbn in E. lra.
Qed.

(** ** Split2d, reverse direction *)

Lemma slice_indices_lt (step stop : nat) :
  forall fuel start i,
    In i (slice_indices fuel start stop step) -> i < stop.
Proof.
  induction fuel as [|fuel IH]; intros start i H; simpl in H; [contradiction|].
  destruct (Nat.ltb_spec start stop) as [Hlt|]; [|contradiction].
  destruct H as [<-|H]; [exact Hlt | eapply IH; exact H].
Qed.

Lemma slice_indices_length_2 (stop : nat) :
  forall fuel start,
    stop - start <= fuel ->
    length (slice_indices fuel start stop 2) = (stop - start + 1) / 2.
Proof.
  induction fuel as [|fuel IH]; intros start Hf.
  - simpl. replace (stop - start) with 0 by lia. reflexivity.
  - cbn [slice_indices].
    destruct (Nat.ltb_spec start stop) as [Hlt|Hge].
    + cbn [length]. rewrite IH by lia.
      destruct (Nat.eq_dec (stop - start) 1) as [E|E].
      * rewrite E. replace (stop - (start + 2)) with 0 by lia. reflexivity.
      * replace (stop - start + 1) with ((stop - (start + 2) + 1) + 1 * 2)
          by lia.
        rewrite Nat.div_add by lia. lia.
    + cbn [length]. replace (stop - start) with 0 by lia. reflexivity.
Qed.

Lemma even_halves (c : nat) :
  Nat.even c = true ->
  length (slice_indices c 0 c 2) = c / 2
  /\ length (slice_indices c 1 c 2) = c / 2.
Proof.
  intro He. apply Nat.even_spec in He. destruct He as [m ->].
  destruct m as [|m]; [split; reflexivity|].
  rewrite !slice_indices_length_2 by lia.
  replace (2 * S m - 0 + 1) with (1 + S m * 2) by lia.
  replace (2 * S m - 1 + 1) with (0 + S m * 2) by lia.
  replace (2 * S m) with (0 + S m * 2) by lia.
  rewrite !Nat.div_add by lia. simpl. lia.
Qed.

Lemma slice_channels_ok (x : tensor) (n c h w : nat) (rest : list nat)
    (start step : nat) :
  shape x = n :: c :: h :: w :: rest ->
  exists y, slice_channels x start None step = Ok y
            /\ shape y
               = n :: length (slice_indices c start c step) :: h :: w :: rest.
Proof.
  intro Hs. unfold slice_channels, dim. rewrite Hs. cbn [nth_error bind].
  apply (@select_channels_ok x n c h w rest _ Hs).
  intros i Hi. eapply slice_indices_lt. exact Hi.
Qed.

Lemma conv_same_3 (size : nat) : 0 < size -> F.conv_out size 1 1 3 1 = Ok size.
Proof.
  intro H. unfold F.conv_out. cbn [Nat.eqb Nat.sub Nat.mul Nat.add].
  destruct (Nat.ltb_spec (size + 2) 3) as [?|_]; [lia|].
  f_equal. rewrite Nat.div_1_r. lia.
Qed.

Lemma split2d_prior_ok (self : Split2d.t) (z : tensor) (n h w : nat) :
  Split2d.well_shaped self ->
  Nat.even (Split2d.num_channels self) = true ->
  shape z = [n; Split2d.num_channels self / 2; h; w] ->
  0 < h -> 0 < w ->
  exists mean logs,
    Split2d.prior self z = Ok (mean, logs)
    /\ shape mean = [n; Split2d.num_channels self / 2; h; w]
    /\ shape logs = [n; Split2d.num_channels self / 2; h; w].
Proof.
  intros (HW & Hst & Hpad & Hdil & Hgr & Hlogs) He Hz Hh Hw.
  set (C := Split2d.num_channels self) in *.
  unfold Split2d.prior, Conv2dZeros.forward, nnConv2d.forward, F.conv2d.
  rewrite Hz, HW, Hst, Hpad, Hdil, Hgr.
  unfold F.conv2d_shape. cbn [Nat.eqb fst snd].
  rewrite Nat.mul_1_r, Nat.eqb_refl, Nat.mod_1_r. cbn [negb Nat.eqb].
  rewrite !conv_same_3 by assumption. cbn [bind].
  rewrite (@binop__chw Rmult _ _ n C h w) by (reflexivity || exact Hlogs).
  cbn [bind].
  destruct (even_halves C He) as [L0 L1].
  match goal with
  | |- context [slice_channels ?t 0 None 2] =>
      destruct (@slice_channels_ok t n C h w [] 0 2 eq_refl) as (m & Em & Sm);
      destruct (@slice_channels_ok t n C h w [] 1 2 eq_refl) as (l & El & Sl)
  end.
  rewrite Em. cbn [bind]. rewrite El. cbn [bind].
  exists m, l. split; [reflexivity|].
  rewrite Sm, Sl, L0, L1. split; reflexivity.
Qed.

(** C10.  With [reverse=True], whatever [Split2d.forward] returns carries
    the accumulator it was given, present or absent; and on every
    retained half of shape (N, C/2, H, W) with H, W >= 1, for a layer
    with an even channel count C, the call does return. *)
Theorem split2d_reverse_keeps_logdet (self : Split2d.t) (z1 : tensor)
    (logdet : option tensor) (noise : nat -> R) :
  (forall z logdet',
     Split2d.forward self z1 logdet true noise = Ok (z, logdet') ->
     logdet' = logdet)
  /\ (Split2d.well_shaped self ->
      Nat.even (Split2d.num_channels self) = true ->
      forall n h w,
        shape z1 = [n; Split2d.num_channels self / 2; h; w] ->
        0 < h -> 0 < w ->
        exists z, Split2d.forward self z1 logdet true noise = Ok (z, logdet)).
Proof.
  split.
  - intros z logdet'. unfold Split2d.forward. cbn [negb].
    destruct (Split2d.prior self z1) as [[mean logs]|]; [|discriminate].
    cbn [bind].
    destruct (GaussianDiag.sample noise mean logs) as [z2|]; [|discriminate].
    cbn [bind].
    destruct (cat_channels z1 z2) as [zz|]; [|discriminate].
    cbn [bind]. intro E. injection E as _ <-. reflexivity.
  - intros Hws He n h w Hz Hh Hw.
    destruct (@split2d_prior_ok self z1 n h w Hws He Hz Hh Hw)
      as (mean & logs & Ep & Sm & Sl).
    unfold Split2d.forward. cbn [negb]. rewrite Ep. cbn [bind].
    unfold GaussianDiag.sample, GaussianDiag.eps.
    rewrite binop_same by (cbn [tmap tabulate shape]; congruence).
    cbn [bind].
    rewrite binop_same by (cbn [tmap tabulate shape]; congruence).
    cbn [bind].
    unfold cat_channels. cbn [tabulate shape]. rewrite Hz, Sm.
    rewrite Nat.eqb_refl, list_nat_eqb_refl. cbn [andb bind].
    eexists. reflexivity.
Qed.

(** C10 witness: a two-channel layer as constructed, on a retained half of
    shape (1, 1, 1, 1). *)
Lemma split2d_reverse_keeps_logdet_witness :
  exists self,
    Split2d.init 2 INR INR = Ok self
    /\ exists z,
         Split2d.forward self retained_half present_accumulator true INR = Ok (z, present_accumulator).
Proof.
  eexists. split; [reflexivity|].
  refine (proj2 (split2d_reverse_keeps_logdet _ retained_half present_accumulator INR)
            _ _ 1 1 1 _ _ _).
  - repeat split.
  - reflexivity.
  - reflexivity.
  - lia.
  - lia.
Defined.

(** ** Absent accumulator *)

Lemma actnorm_absent_accumulator (self : ActNorm.t) (x : tensor) (rev : bool) :
  ActNorm.shaped self -> ActNorm.valid_input self x ->
  exists s' y, ActNorm.forward self x None rev = Ok (s', y, None).
Proof.
  intros Hsh Hv.
  destruct (@forward_ok self x None rev Hsh Hv) as (s' & _ & _ & _ & _ & E).
  eexists s', _. exact E.
Qed.

Lemma invertible1x1conv_absent_accumulator (self : Invertible1x1Conv.t)
    (x z : tensor) (ld' : option tensor) (rev : bool) :
  Invertible1x1Conv.forward self x None rev = Ok (z, ld') -> ld' = None.
Proof.
  unfold Invertible1x1Conv.forward.
  destruct (dim x 1); [|discriminate]. destruct (dim x 2); [|discriminate].
  cbn [bind].
  destruct (linalg.det _); [|discriminate]. cbn [bind].
  destruct rev; cbn [negb].
  - destruct (linalg.inverse _); [|discriminate]. cbn [bind].
    destruct (F.conv2d _ _ _ _ _ _ _); [|discriminate].
    cbn. intro E. injection E as _ <-. reflexivity.
  - destruct (F.conv2d _ _ _ _ _ _ _); [|discriminate].
    cbn. intro E. injection E as _ <-. reflexivity.
Qed.

Lemma squeeze2d_absent_accumulator (self : Squeeze2d.t) (x y : tensor)
    (ld' : option tensor) (rev : bool) :
  Squeeze2d.forward self x None rev = Ok (y, ld') -> ld' = None.
Proof.
  unfold Squeeze2d.forward.
  destruct (if negb rev then _ else _); [|discriminate].
  cbn. intro E. injection E as _ <-. reflexivity.
Qed.

(** C4 (the code departs from it).  [Split2d.forward] with [reverse=False]
    and an absent accumulator does not succeed: it raises on every input.
    The statement that updates the accumulator has no test for an absent
    one either, so [logdet += ...] on [None] is a [TypeError]. *)
Theorem split2d_forward_absent_accumulator_raises :
  (forall (self : Split2d.t) (x : tensor) (noise : nat -> R),
     Split2d.forward self x None false noise = Raise AttributeError)
  /\ (forall v : tensor, Split2d.iadd None v = Raise TypeError).
Proof.
  split.
  - intros self x noise. unfold Split2d.forward. cbn [negb].
    rewrite lookup_input. reflexivity.
  - intro v. reflexivity.
Qed.


(* ================================================================== *)
(** * Further properties of the layers *)

(** ** Padding *)

Lemma odd_half (k : nat) : Nat.odd k = true -> 2 * ((k - 1) / 2) = k - 1.
Proof.
  intro H. apply Nat.odd_spec in H. destruct H as [m ->].
  replace (2 * m + 1 - 1) with (m * 2) by lia.
  rewrite Nat.div_mul by lia. lia.
Qed.

Lemma even_half (k : nat) :
  Nat.even k = true -> 0 < k -> 2 * ((k - 1) / 2) = k - 2.
Proof.
  intros H Hk. apply Nat.even_spec in H. destruct H as [m ->].
  destruct m as [|m]; [lia|].
  replace (2 * S m - 1) with (1 + m * 2) by lia.
  rewrite Nat.div_add by lia. simpl. lia.
Qed.

(** X1.  The padding that [get_padding] computes for ['SAME'] keeps the
    size of an axis under a stride-1, dilation-1 convolution when the
    kernel size is odd; with an even kernel size the axis loses one
    element. *)
Theorem same_padding_output_size (kernel_size : Conv2d.kernel_arg)
    (stride : nat) (p : nat * nat) (h w : nat) :
  Conv2d.get_padding "SAME" kernel_size stride = Ok p ->
  0 < fst (Conv2d.pair_of kernel_size) ->
  0 < snd (Conv2d.pair_of kernel_size) ->
  2 <= h -> 2 <= w ->
  stride = 1
  /\ F.conv_out h (fst p) 1 (fst (Conv2d.pair_of kernel_size)) stride
     = Ok (if Nat.odd (fst (Conv2d.pair_of kernel_size)) then h else h - 1)
  /\ F.conv_out w (snd p) 1 (snd (Conv2d.pair_of kernel_size)) stride
     = Ok (if Nat.odd (snd (Conv2d.pair_of kernel_size)) then w else w - 1).
Proof.
  unfold Conv2d.get_padding. cbn [String.eqb Ascii.eqb Bool.eqb orb assert bind].
  destruct (Nat.eqb_spec stride 1) as [->|]; cbn [assert bind]; [|discriminate].
  intro E. injection E as <-.
  set (kh := fst (Conv2d.pair_of kernel_size)).
  set (kw := snd (Conv2d.pair_of kernel_size)).
  intros Hkh Hkw Hh Hw. split; [reflexivity|].
  assert (G : forall size k, 0 < k -> 2 <= size ->
            F.conv_out size ((k - 1) / 2) 1 k 1
            = Ok (if Nat.odd k then size else size - 1)).
  { intros size k Hk Hs. unfold F.conv_out. cbn [Nat.eqb].
    rewrite Nat.mul_1_l, Nat.div_1_r.
    destruct (Nat.odd k) eqn:Ho.
    - rewrite (@odd_half k Ho).
      destruct (Nat.ltb_spec (size + (k - 1)) (k - 1 + 1)); [lia|].
      f_equal. lia.
    - assert (He : Nat.even k = true)
        by (rewrite <- Nat.negb_odd, Ho; reflexivity).
      rewrite (@even_half k He Hk).
      pose proof (proj1 (Nat.even_spec k) He) as [m Em].
      destruct (Nat.ltb_spec (size + (k - 2)) (k - 1 + 1)); [lia|].
      f_equal. lia. }
  cbn [fst snd]. split; apply G; assumption.
Qed.

(** X1 witness: the default 3 x 3 kernel on an 8 x 8 image. *)
Lemma same_padding_output_size_witness :
  1 = 1
  /\ F.conv_out 8 1 1 3 1 = Ok 8
  /\ F.conv_out 8 1 1 3 1 = Ok 8.
Proof.
  apply (@same_padding_output_size (Conv2d.KPair 3 3) 1 (1, 1) 8 8).
  - reflexivity.
  - simpl. lia.
  - simpl. lia.
  - lia.
  - lia.
Defined.

(** X2.  [get_padding] fails, with [AssertionError], exactly when the
    padding type is neither ['SAME'] nor ['VALID'] or when it is ['SAME']
    with a stride other than 1; ['VALID'] always pads by zero. *)
Theorem get_padding_failures (padding_type : String.string)
    (kernel_size : Conv2d.kernel_arg) (stride : nat) :
  (Conv2d.get_padding padding_type kernel_size stride = Raise AssertionError
   <-> (padding_type <> "SAME"%string /\ padding_type <> "VALID"%string)
       \/ (padding_type = "SAME"%string /\ stride <> 1))
  /\ (forall e, Conv2d.get_padding padding_type kernel_size stride = Raise e ->
                e = AssertionError)
  /\ Conv2d.get_padding "VALID" kernel_size stride = Ok (0, 0).
Proof.
  unfold Conv2d.get_padding.
  split; [|split; [|reflexivity]].
  - destruct (String.eqb_spec padding_type "SAME") as [->|Hs].
    + cbn [orb assert bind String.eqb Ascii.eqb Bool.eqb].
      destruct (Nat.eqb_spec stride 1) as [->|Hne]; cbn [assert bind].
      * split; [discriminate|]. intros [[H _]|[_ H]]; congruence.
      * split; [|reflexivity]. intros _. right. split; [reflexivity|exact Hne].
    + destruct (String.eqb_spec padding_type "VALID") as [->|Hv];
        cbn [orb assert bind].
      * split; [discriminate|]. intros [[_ H]|[H _]]; congruence.
      * split; [|reflexivity]. intros _. left. split; assumption.
  - intro e.
    destruct (String.eqb padding_type "SAME"); cbn [orb assert bind].
    + destruct (stride =? 1); cbn [assert bind]; [discriminate|].
      intro E. injection E as <-. reflexivity.
    + destruct (String.eqb padding_type "VALID"); cbn [assert bind];
        [discriminate|].
      intro E. injection E as <-. reflexivity.
Qed.

(** ** Construction of the zero-initialised layers *)

(** X3.  [Conv2dZeros] and [LinearZeros] cannot be built without a bias:
    with [bias=False] the base class leaves [self.bias] at [None] and the
    zero-initialisation [self.bias.data.zero_()] raises; no argument
    makes the construction succeed, and with arguments the base class
    accepts the exception is [AttributeError]. *)
Theorem zero_layers_need_bias :
  (forall ic oc ks stride pt lf dil groups w0 b0,
     (forall L, Conv2dZeros.init ic oc ks stride pt lf dil groups false w0 b0
                <> Ok L)
     /\ (forall p, Conv2d.get_padding pt ks stride = Ok p ->
                   groups <> 0 -> ic mod groups = 0 -> oc mod groups = 0 ->
                   Conv2dZeros.init ic oc ks stride pt lf dil groups false w0 b0
                   = Raise AttributeError))
  /\ (forall i o lf w0 b0,
        LinearZeros.init i o false lf w0 b0 = Raise AttributeError).
Proof.
  split; [|reflexivity].
  intros ic oc ks stride pt lf dil groups w0 b0. split.
  - intros L H.
    destruct (conv2dzeros_init_inv _ _ _ _ _ _ _ _ _ _ _ H) as (p & W & B & Hp & _ & _).
    revert H. unfold Conv2dZeros.init. rewrite Hp. cbn [bind].
    unfold nnConv2d.init.
    destruct (groups =? 0); [discriminate|].
    destruct (negb (ic mod groups =? 0)); [discriminate|].
    destruct (negb (oc mod groups =? 0)); [discriminate|].
    cbn. discriminate.
  - intros p Hp Hg Hi Ho.
    unfold Conv2dZeros.init. rewrite Hp. cbn [bind].
    unfold nnConv2d.init.
    destruct (Nat.eqb_spec groups 0) as [?|_]; [contradiction|].
    rewrite Hi, Ho. reflexivity.
Qed.

(** X3 witness: the default arguments of [Conv2dZeros] with [bias=False]. *)
Lemma zero_layers_need_bias_witness :
  Conv2dZeros.init 2 4 (Conv2d.KPair 3 3) 1 "SAME" 3 1 1 false INR INR
  = Raise AttributeError.
Proof.
  apply (proj2 (proj1 zero_layers_need_bias 2 4 (Conv2d.KPair 3 3) 1
                  "SAME"%string 3%R 1 1 INR INR) (1, 1)).
  - reflexivity.
  - lia.
  - reflexivity.
  - reflexivity.
Defined.

(** ** ActNorm: validation, inverse order, fixed parameters *)

Lemma valid_input_dec (self : ActNorm.t) (x : tensor) :
  ActNorm.valid_input self x
  <-> length (shape x) = 4 /\ nth 1 (shape x) 0 = ActNorm.num_channels self.
Proof.
  unfold ActNorm.valid_input. split.
  - intros (n & h & w & ->). split; reflexivity.
  - intros [Hr Hc].
    destruct (shape x) as [|n [|c [|h [|w [|? ?]]]]]; try discriminate.
    cbn [nth] in Hc. subst c. eauto.
Qed.

(** X4.  [ActNorm.forward] checks its input before anything else: on a
    rank-4 input with the configured channel count it returns a tensor of
    the shape of the input and an accumulator of the shape it was given,
    and on any other input it raises [AssertionError], in both
    directions. *)
Theorem actnorm_forward_validates (self : ActNorm.t) (x : tensor)
    (logdet : option tensor) (rev : bool) :
  ActNorm.shaped self ->
  (ActNorm.valid_input self x ->
   exists s' y logdet',
     ActNorm.forward self x logdet rev = Ok (s', y, logdet')
     /\ shape y = shape x
     /\ option_map shape logdet' = option_map shape logdet
     /\ ActNorm.shaped s')
  /\ (~ ActNorm.valid_input self x ->
      ActNorm.forward self x logdet rev = Raise AssertionError).
Proof.
  intro Hsh. split.
  - intro Hv.
    destruct (@forward_ok self x logdet rev Hsh Hv)
      as (s' & Hs' & _ & _ & _ & E).
    eexists s', _, _. split; [exact E|].
    split; [reflexivity|]. split; [|exact Hs'].
    destruct logdet; reflexivity.
  - intro Hnv. rewrite valid_input_dec in Hnv.
    unfold ActNorm.forward.
    destruct (Nat.eqb_spec (length (shape x)) 4) as [Hr|Hr];
      cbn [assert bind]; [|reflexivity].
    destruct (Nat.eqb_spec (nth 1 (shape x) 0) (ActNorm.num_channels self))
      as [Hc|Hc]; cbn [assert bind]; [|reflexivity].
    exfalso. apply Hnv. split; assumption.
Qed.

(** X4 witness: a fresh two-channel layer, one valid input. *)
Lemma actnorm_forward_validates_witness :
  let self := ActNorm.init 2 1 3 false in
  let x := mkTensor [1; 2; 1; 1] [1; 2]%R in
  (ActNorm.valid_input self x ->
   exists s' y logdet',
     ActNorm.forward self x None false = Ok (s', y, logdet')
     /\ shape y = shape x
     /\ option_map shape logdet' = option_map shape None
     /\ ActNorm.shaped s')
  /\ (~ ActNorm.valid_input self x ->
      ActNorm.forward self x None false = Raise AssertionError).
Proof.
  intros self x.
  apply (@actnorm_forward_validates self x None false).
  apply init_shaped.
Defined.

Lemma exp_cancel_rev (a b L : R) : ((a * exp (- L) - b + b) * exp L)%R = a.
Proof.
  replace (a * exp (- L) - b + b)%R with (a * exp (- L))%R by ring.
  rewrite Rmult_assoc, <- exp_plus, Rplus_opp_l, exp_0. ring.
Qed.

Lemma actnorm_output_inverse_rev (b l : tensor) (lf : R) (x : tensor) :
  wf x ->
  actnorm_output b l lf (actnorm_output b l lf x true) false = x.
Proof.
  intro Hwf. unfold actnorm_output at 1. cbn [actnorm_output shape tabulate].
  transitivity (tabulate (shape x) (get x)); [|apply tabulate_get; exact Hwf].
  apply tabulate_ext. intros k Hk. cbn zeta.
  unfold actnorm_output at 1. rewrite get_tabulate by exact Hk.
  cbn zeta. apply exp_cancel_rev.
Qed.

Lemma actnorm_logdet_inverse_rev (l : tensor) (lf : R) (x y : tensor)
    (logdet : option tensor) :
  shape y = shape x ->
  (forall ld, logdet = Some ld -> wf ld) ->
  actnorm_logdet l lf y false (actnorm_logdet l lf x true logdet) = logdet.
Proof.
  intros Hs Hwf. destruct logdet as [ld|]; [|reflexivity].
  unfold actnorm_logdet. cbn [option_map]. f_equal.
  cbn [tabulate shape].
  transitivity (tabulate (shape ld) (get ld));
    [|apply tabulate_get; apply Hwf; reflexivity].
  apply tabulate_ext. intros k Hk.
  rewrite get_tabulate by exact Hk. rewrite Hs. ring.
Qed.

(** X5.  The reverse pass of ActNorm followed by the forward pass gives the
    input and the accumulator back (exact arithmetic), also when the
    reverse pass is the call that initialises the parameters; the second
    call leaves the layer as the first one left it. *)
Theorem actnorm_reverse_forward (self : ActNorm.t) (x : tensor)
    (logdet : option tensor) :
  ActNorm.shaped self ->
  ActNorm.valid_input self x ->
  wf x ->
  (forall ld, logdet = Some ld -> wf ld) ->
  exists s1 y ld1,
    ActNorm.forward self x logdet true = Ok (s1, y, ld1)
    /\ ActNorm.forward s1 y ld1 false = Ok (s1, x, logdet).
Proof.
  intros Hsh Hv Hwf Hld.
  destruct (@forward_ok self x logdet true Hsh Hv)
    as (s1 & Hs1 & Hcfg & Hflags & _ & E1).
  destruct Hcfg as (Hc & _ & Hlf & _ & Htr).
  eexists s1, _, _. split; [exact E1|].
  assert (Hv1 : ActNorm.valid_input s1
                  (actnorm_output (ActNorm.bias s1) (ActNorm.logs s1)
                     (ActNorm.logscale_factor self) x true)).
  { destruct Hv as (n & h & w & Hx). exists n, h, w.
    rewrite Hc. exact Hx. }
  destruct (@forward_ok s1 _
              (actnorm_logdet (ActNorm.logs s1) (ActNorm.logscale_factor self)
                 x true logdet) false Hs1 Hv1)
    as (s2 & _ & _ & _ & Hsame & E2).
  assert (s2 = s1).
  { apply Hsame. destruct (ActNorm.training self) eqn:T.
    - left. apply Hflags. reflexivity.
    - right. congruence. }
  subst s2. rewrite E2, Hlf.
  rewrite actnorm_output_inverse_rev by exact Hwf.
  rewrite actnorm_logdet_inverse_rev by (reflexivity || exact Hld).
  reflexivity.
Qed.

(** X5 witness: a fresh one-channel layer in training mode. *)
Lemma actnorm_reverse_forward_witness :
  let self := ActNorm.init 1 1 3 false in
  let x := mkTensor [1; 1; 1; 2] [2; 5]%R in
  let logdet := Some (mkTensor [1] [0%R]) in
  exists s1 y ld1,
    ActNorm.forward self x logdet true = Ok (s1, y, ld1)
    /\ ActNorm.forward s1 y ld1 false = Ok (s1, x, logdet).
Proof.
  intros self x logdet.
  apply (@actnorm_reverse_forward self x logdet).
  - apply init_shaped.
  - exists 1, 1, 2. reflexivity.
  - reflexivity.
  - intros ld E. injection E as <-. reflexivity.
Defined.

Lemma channel_of_ravel (n c h w a j y z : nat) :
  a < n -> j < c -> y < h -> z < w ->
  channel_of [n; c; h; w] (ravel [n; c; h; w] [a; j; y; z]) = j.
Proof.
  intros. unfold channel_of.
  rewrite unravel_ravel by (repeat constructor; assumption).
  reflexivity.
Qed.

(** X6.  Once both latches are set, or in non-training mode, [forward]
    works with the parameters as they are and leaves the layer unchanged:
    element (n, c, h, w) of the output is [(x + bias[c]) * exp(logs[c] *
    logscale_factor)], in reverse [x * exp(-(logs[c] * logscale_factor)) -
    bias[c]], and every element of a present accumulator moves by
    [sum(logs * logscale_factor) * H * W], added forwards and subtracted
    in reverse. *)
Theorem actnorm_fixed_parameters (self : ActNorm.t) (x : tensor)
    (logdet : option tensor) (rev : bool) (N H W : nat) :
  ActNorm.shaped self ->
  shape x = [N; ActNorm.num_channels self; H; W] ->
  (ActNorm.bias_inited self = true /\ ActNorm.logs_inited self = true)
  \/ ActNorm.training self = false ->
  let lf := ActNorm.logscale_factor self in
  let dlogdet :=
    (Rsum (map (fun v => v * lf) (data (ActNorm.logs self))) * INR (H * W))%R in
  exists y logdet',
    ActNorm.forward self x logdet rev = Ok (self, y, logdet')
    /\ shape y = shape x
    /\ (forall n c h w, n < N -> c < ActNorm.num_channels self -> h < H -> w < W ->
          let k := ravel (shape x) [n; c; h; w] in
          get y k
          = if rev
            then (get x k * exp (- (get (ActNorm.logs self) c * lf))
                  - get (ActNorm.bias self) c)%R
            else ((get x k + get (ActNorm.bias self) c)
                  * exp (get (ActNorm.logs self) c * lf))%R)
    /\ match logdet, logdet' with
       | None, None => True
       | Some ld, Some ld' =>
           shape ld' = shape ld
           /\ forall k, k < numel (shape ld) ->
                get ld' k
                = if rev then (get ld k - dlogdet)%R
                  else (get ld k + dlogdet)%R
       | _, _ => False
       end.
Proof.
  intros Hsh Hx Hfixed lf dlogdet.
  assert (Hv : ActNorm.valid_input self x) by (exists N, H, W; exact Hx).
  destruct (@forward_ok self x logdet rev Hsh Hv)
    as (s' & _ & _ & _ & Hsame & E).
  rewrite (Hsame Hfixed) in E. clear s' Hsame.
  eexists _, _. split; [exact E|].
  split; [reflexivity|]. split.
  - intros n c h w Hn Hc Hh Hw k. unfold actnorm_output.
    assert (Hk : k < numel (shape x)).
    { unfold k. apply ravel_lt. rewrite Hx. repeat constructor; assumption. }
    rewrite get_tabulate by exact Hk. cbn zeta.
    subst k. rewrite Hx.
    rewrite !channel_of_ravel by assumption.
    fold lf. destruct rev; reflexivity.
  - unfold actnorm_logdet. destruct logdet as [ld|]; cbn [option_map]; [|exact I].
    split; [reflexivity|].
    intros k Hk. rewrite get_tabulate by exact Hk.
    rewrite Hx. cbn [nth]. fold lf. fold dlogdet.
    destruct rev; ring.
Qed.

(** X6 witness: a one-channel layer switched to non-training mode. *)
Lemma actnorm_fixed_parameters_witness :
  let self := ActNorm.train false (ActNorm.init 1 1 3 false) in
  let x := mkTensor [1; 1; 1; 2] [2; 5]%R in
  exists y logdet',
    ActNorm.forward self x None false = Ok (self, y, logdet')
    /\ shape y = shape x.
Proof.
  intros self x.
  destruct (@actnorm_fixed_parameters self x None false 1 1 2)
    as (y & ld' & E & Hs & _).
  - apply init_shaped.
  - reflexivity.
  - right. reflexivity.
  - exists y, ld'. split; assumption.
Defined.

(** ** Invertible1x1Conv: shapes and accumulator *)

Lemma conv_out_1x1 (size r : nat) : F.conv_out size 0 1 1 1 = Ok r -> r = size.
Proof.
  unfold F.conv_out. cbn [Nat.eqb Nat.sub Nat.mul Nat.add].
  destruct (Nat.ltb_spec (size + 0) 1); [discriminate|].
  intro E. injection E as <-.
  change (fst (Nat.divmod (size + 0 - 1) 0 0 0)) with ((size + 0 - 1) / 1).
  rewrite Nat.div_1_r. lia.
Qed.

Lemma conv2d_shape_1x1 (sx s' : list nat) (r : nat) :
  F.conv2d_shape sx [r; r; 1; 1] 1 (0, 0) 1 1 = Ok s' -> s' = sx.
Proof.
  unfold F.conv2d_shape.
  destruct sx as [|n [|cin [|h [|w [|? ?]]]]]; try discriminate.
  cbn [Nat.eqb fst snd].
  destruct (Nat.eqb_spec cin (r * 1)) as [->|]; [|discriminate].
  cbn [negb]. destruct (negb (r mod 1 =? 0)); [discriminate|].
  destruct (F.conv_out h 0 1 1 1) as [ho|] eqn:Eh; [|discriminate].
  destruct (F.conv_out w 0 1 1 1) as [wo|] eqn:Ew; [|discriminate].
  cbn [bind]. intro E. injection E as <-.
  apply conv_out_1x1 in Eh, Ew. subst. rewrite Nat.mul_1_r. reflexivity.
Qed.

Lemma det_square (w : tensor) (dt : R) :
  linalg.det w = Ok dt -> exists r, shape w = [r; r].
Proof.
  unfold linalg.det.
  destruct (shape w) as [|r [|c [|? ?]]]; try discriminate.
  destruct (Nat.eqb_spec r c) as [->|]; [|discriminate].
  eauto.
Qed.

Lemma invertible1x1conv_shape (self : Invertible1x1Conv.t) (x z : tensor)
    (logdet logdet' : option tensor) (rev : bool) :
  Invertible1x1Conv.forward self x logdet rev = Ok (z, logdet') ->
  shape z = shape x.
Proof.
  unfold Invertible1x1Conv.forward.
  destruct (dim x 1); [|discriminate]. destruct (dim x 2); [|discriminate].
  cbn [bind].
  destruct (linalg.det _) as [dt|] eqn:Ed; [|discriminate].
  destruct (det_square _ Ed) as (r & Hr). rewrite Hr. cbn [bind app].
  assert (G : forall d : list R, forall acc : result (option tensor),
            (z0 <- F.conv2d x (mkTensor [r; r; 1; 1] d) None 1 (0, 0) 1 1 ;;
             ld <- acc ;; Ok (z0, ld)) = Ok (z, logdet') ->
            shape z = shape x).
  { intros d acc. unfold F.conv2d. cbn [shape].
    destruct (F.conv2d_shape (shape x) [r; r; 1; 1] 1 (0, 0) 1 1) as [s'|] eqn:Es;
      [|discriminate].
    cbn [bind]. destruct acc; [|discriminate]. cbn [bind].
    intro E. injection E as <- _. cbn [tabulate shape].
    eapply conv2d_shape_1x1. exact Es. }
  destruct rev; cbn [negb].
  - destruct (linalg.inverse _) as [winv|]; [|discriminate]. cbn [bind].
    apply G.
  - apply G.
Qed.

(** X7.  Whenever the forward pass of [Invertible1x1Conv] and the reverse
    pass on its results both return, the output of each pass has the shape
    of its input and the accumulator is back at its initial value: the
    reverse pass subtracts exactly what the forward pass added. *)
Theorem invertible1x1conv_logdet_cancels (self : Invertible1x1Conv.t)
    (x z x' ld : tensor) (ld1 ld2 : option tensor) :
  wf ld ->
  Invertible1x1Conv.forward self x (Some ld) false = Ok (z, ld1) ->
  Invertible1x1Conv.forward self z ld1 true = Ok (x', ld2) ->
  ld2 = Some ld /\ shape z = shape x /\ shape x' = shape x.
Proof.
  intros Hwf E1 E2.
  pose proof (@invertible1x1conv_shape _ _ _ _ _ _ E1) as Sz.
  pose proof (@invertible1x1conv_shape _ _ _ _ _ _ E2) as Sx'.
  destruct (@invertible1x1conv_accumulates _ _ _ _ _ _ E1)
    as (dt & d1 & d2 & Hdt & Hd1 & Hd2 & ->).
  destruct (@invertible1x1conv_accumulates _ _ _ _ _ _ E2)
    as (dt' & d1' & d2' & Hdt' & Hd1' & Hd2' & ->).
  rewrite Hdt in Hdt'. injection Hdt' as <-.
  unfold dim in *. rewrite Sz in Hd1', Hd2'.
  rewrite Hd1 in Hd1'. rewrite Hd2 in Hd2'.
  injection Hd1' as <-. injection Hd2' as <-.
  split; [|split; congruence].
  f_equal. cbn [tabulate shape].
  transitivity (tabulate (shape ld) (get ld)); [|apply tabulate_get; exact Hwf].
  apply tabulate_ext. intros k Hk.
  rewrite get_tabulate by exact Hk. ring.
Qed.

(** X7 witness: the two-channel layer of determinant 2 on a
    1 x 2 x 1 x 3 input. *)
Lemma invertible1x1conv_logdet_cancels_witness :
  exists z ld1 x',
    Invertible1x1Conv.forward mixing_layer_det_2 ones_1_2_1_3
      (Some zero_accumulator) false = Ok (z, ld1)
    /\ Invertible1x1Conv.forward mixing_layer_det_2 z ld1 true
       = Ok (x', Some zero_accumulator).
Proof.
  assert (Hf : exists z ld1,
             Invertible1x1Conv.forward mixing_layer_det_2 ones_1_2_1_3
               (Some zero_accumulator) false = Ok (z, ld1)
             /\ shape z = [1; 2; 1; 3]).
  { unfold Invertible1x1Conv.forward. rewrite mixing_layer_det.
    eexists. eexists. split; [cbn; reflexivity|]. reflexivity. }
  destruct Hf as (z & ld1 & Ef & Sz).
  assert (Hr : exists x' ld2,
             Invertible1x1Conv.forward mixing_layer_det_2 z ld1 true
             = Ok (x', ld2)).
  { unfold Invertible1x1Conv.forward, dim. rewrite Sz.
    cbn [nth_error bind]. rewrite mixing_layer_det. cbn [bind negb].
    unfold linalg.inverse. rewrite mixing_layer_det. cbn [bind].
    destruct (Req_EM_T 2 0) as [E|_]; [lra|].
    unfold F.conv2d. cbn [shape mixing_layer_det_2 Invertible1x1Conv.weight app].
    rewrite Sz.
    cbn [F.conv2d_shape Nat.eqb negb Nat.mul Nat.modulo Nat.divmod fst snd
         F.conv_out bind Nat.ltb Nat.leb Nat.add Nat.sub Nat.div].
    destruct ld1 as [l1|]; cbn [Invertible1x1Conv.accumulate bind].
    - rewrite binop__scalar. cbn [bind]. eauto.
    - eauto. }
  destruct Hr as (x' & ld2 & Er).
  destruct (@invertible1x1conv_logdet_cancels mixing_layer_det_2
              ones_1_2_1_3 z x' zero_accumulator ld1 ld2 eq_refl Ef Er)
    as (-> & _ & _).
  exists z, ld1, x'. split; assumption.
Defined.

(** ** Permutation2d: the default table, inputs of another width *)

Lemma nth_rev_seq (C i : nat) : i < C -> nth i (rev (seq 0 C)) 0 = C - 1 - i.
Proof.
  intro H. rewrite rev_nth by (rewrite length_seq; exact H).
  rewrite length_seq, seq_nth by lia. lia.
Qed.

Lemma permutation2d_init_tables (C : nat) (shuffle : bool) (sigma : list nat)
    (p : Permutation2d.t) :
  (shuffle = true -> Permutation sigma (seq 0 C)) ->
  Permutation2d.init C shuffle sigma = Ok p ->
  Permutation2d.indices p
  = (if shuffle then Permutation2d.shuffle_by sigma (rev (seq 0 C))
     else rev (seq 0 C))
  /\ Permutation (Permutation2d.indices p) (seq 0 C)
  /\ length (Permutation2d.indices_inverse p) = C
  /\ (forall j, j < C ->
        nth (nth j (Permutation2d.indices p) 0)
            (Permutation2d.indices_inverse p) 0 = j)
  /\ (forall i, i < C ->
        nth (nth i (Permutation2d.indices_inverse p) 0)
            (Permutation2d.indices p) 0 = i)
  /\ (forall k, In k (Permutation2d.indices_inverse p) -> k < C).
Proof.
  intros Hsigma Hinit.
  pose proof (@init_indices_perm C shuffle sigma Hsigma) as Hperm.
  unfold Permutation2d.init in Hinit.
  set (indices := if shuffle
                  then Permutation2d.shuffle_by sigma (rev (seq 0 C))
                  else rev (seq 0 C)) in *.
  destruct (@invert_tables C indices Hperm) as (inv & E & L & Q1 & Q2 & Q3).
  rewrite E in Hinit. cbn [bind] in Hinit. injection Hinit as <-.
  cbn [Permutation2d.indices Permutation2d.indices_inverse].
  repeat split; assumption.
Qed.

(** X8.  With [shuffle=False] the table is the reversal of the channels
    and the inverse table is the same table: channel [c] of the output is
    channel [C - 1 - c] of the input, and applying the forward pass twice
    gives the input back. *)
Theorem permutation2d_default_reverses (C : nat) (sigma : list nat) :
  exists p,
    Permutation2d.init C false sigma = Ok p
    /\ Permutation2d.indices p = rev (seq 0 C)
    /\ Permutation2d.indices_inverse p = Permutation2d.indices p
    /\ forall x n h w,
         wf x -> shape x = [n; C; h; w] ->
         (exists y,
            Permutation2d.forward p x false = Ok y
            /\ shape y = shape x
            /\ forall a c i j, a < n -> c < C -> i < h -> j < w ->
                 get y (ravel [n; C; h; w] [a; c; i; j])
                 = get x (ravel [n; C; h; w] [a; C - 1 - c; i; j]))
         /\ (y <- Permutation2d.forward p x false ;;
             Permutation2d.forward p y false) = Ok x.
Proof.
  destruct (Permutation2d.init C false sigma) as [p|e] eqn:Hinit.
  2:{ exfalso. unfold Permutation2d.init in Hinit.
      destruct (@invert_tables C (rev (seq 0 C)))
        as (inv & E & _); [symmetry; apply Permutation_rev|].
      rewrite E in Hinit. discriminate. }
  destruct (@permutation2d_init_tables C false sigma p) as
    (Hi & Hperm & L & Q1 & Q2 & Q3); [discriminate | exact Hinit |].
  exists p. split; [reflexivity|]. split; [exact Hi|].
  assert (Li : length (Permutation2d.indices p) = C)
    by (rewrite Hi, length_rev; apply length_seq).
  assert (Hinv : Permutation2d.indices_inverse p = Permutation2d.indices p).
  { apply nth_ext with (d := 0) (d' := 0); [congruence|].
    intros i Hlt. rewrite L in Hlt.
    assert (Hj : C - 1 - i < C) by lia.
    specialize (Q1 (C - 1 - i) Hj).
    rewrite Hi in Q1 at 1. rewrite nth_rev_seq in Q1 by exact Hj.
    replace (C - 1 - (C - 1 - i)) with i in Q1 by lia.
    rewrite Q1, Hi, nth_rev_seq by exact Hlt. reflexivity. }
  split; [exact Hinv|].
  intros x n h w Hwf Hx.
  assert (Hlt : forall i, In i (Permutation2d.indices p) -> i < C).
  { intros i Hin. apply (Permutation_in _ Hperm) in Hin.
    apply in_seq in Hin. lia. }
  split.
  - unfold Permutation2d.forward. rewrite Hx.
    cbn [length Nat.eqb assert bind negb].
    unfold select_channels. rewrite Hx.
    assert (FA : forallb (fun i => i <? C) (Permutation2d.indices p) = true).
    { apply forallb_forall. intros i Hin. apply Nat.ltb_lt. auto. }
    rewrite FA, Li.
    eexists. split; [reflexivity|]. split; [reflexivity|].
    intros a c i j Ha Hc Hi' Hj.
    assert (Hr : Forall2 lt [a; c; i; j] [n; C; h; w])
      by (repeat constructor; assumption).
    rewrite get_tabulate by (apply ravel_lt; exact Hr).
    rewrite unravel_ravel by exact Hr.
    rewrite Hi, nth_rev_seq by exact Hc. reflexivity.
  - apply permutation2d_forward_pair
      with (A := Permutation2d.indices p) (B := Permutation2d.indices p)
           (C := C); auto.
    + rewrite Hx. reflexivity.
    + rewrite Hx. reflexivity.
    + intros i Hlt'. rewrite <- Hinv at 1. apply Q2. exact Hlt'.
Qed.

(** X8 witness: three channels. *)
Lemma permutation2d_default_reverses_witness :
  exists p,
    Permutation2d.init 3 false [] = Ok p
    /\ Permutation2d.indices p = [2; 1; 0]
    /\ Permutation2d.indices_inverse p = [2; 1; 0].
Proof.
  destruct (permutation2d_default_reverses 3 []) as (p & E & Hi & Hinv & _).
  exists p. split; [exact E|]. split; [exact Hi|].
  rewrite Hinv. exact Hi.
Defined.

Lemma forallb_lt_false (l : list nat) (c k : nat) :
  In k l -> c <= k -> forallb (fun i => i <? c) l = false.
Proof.
  intros Hin Hk.
  destruct (forallb (fun i => i <? c) l) eqn:E; [|reflexivity].
  rewrite forallb_forall in E. specialize (E k Hin).
  apply Nat.ltb_lt in E. lia.
Qed.

(** X9.  [Permutation2d.forward] does not compare the channel count of its
    input with [num_channels]: on a rank-4 input with at least
    [num_channels] channels it returns a tensor with [num_channels]
    channels (the further channels are dropped), and with fewer channels
    it raises [IndexError]; this holds in both directions. *)
Theorem permutation2d_other_widths (C : nat) (shuffle : bool)
    (sigma : list nat) (p : Permutation2d.t) (x : tensor) (n c h w : nat)
    (reverse : bool) :
  (shuffle = true -> Permutation sigma (seq 0 C)) ->
  Permutation2d.init C shuffle sigma = Ok p ->
  shape x = [n; c; h; w] ->
  (C <= c ->
   exists y, Permutation2d.forward p x reverse = Ok y
             /\ shape y = [n; C; h; w])
  /\ (c < C -> Permutation2d.forward p x reverse = Raise IndexError).
Proof.
  intros Hsigma Hinit Hx.
  destruct (@permutation2d_init_tables C shuffle sigma p Hsigma Hinit) as
    (_ & Hperm & L & Q1 & Q2 & Q3).
  assert (Li : length (Permutation2d.indices p) = C)
    by (rewrite (Permutation_length Hperm); apply length_seq).
  assert (Hlt : forall i, In i (Permutation2d.indices p) -> i < C).
  { intros i Hin. apply (Permutation_in _ Hperm) in Hin.
    apply in_seq in Hin. lia. }
  unfold Permutation2d.forward. rewrite Hx.
  cbn [length Nat.eqb assert bind].
  split.
  - intro Hle. destruct reverse; cbn [negb].
    + destruct (@select_channels_ok x n c h w []
                  (Permutation2d.indices_inverse p) Hx) as (y & E & S).
      { intros i Hin. apply Q3 in Hin. lia. }
      exists y. rewrite S, L. auto.
    + destruct (@select_channels_ok x n c h w []
                  (Permutation2d.indices p) Hx) as (y & E & S).
      { intros i Hin. apply Hlt in Hin. lia. }
      exists y. rewrite S, Li. auto.
  - intro Hc. unfold select_channels. rewrite Hx.
    destruct reverse; cbn [negb].
    + rewrite (@forallb_lt_false _ c c); [reflexivity| |lia].
      rewrite <- (Q1 c Hc). apply nth_In. rewrite L. apply Hlt.
      apply nth_In. lia.
    + rewrite (@forallb_lt_false _ c c); [reflexivity| |lia].
      rewrite <- (Q2 c Hc). apply nth_In. rewrite Li. apply Q3.
      apply nth_In. lia.
Qed.

(** X9 witness: a two-channel layer on a three-channel input. *)
Lemma permutation2d_other_widths_witness :
  exists p y,
    Permutation2d.init 2 false [] = Ok p
    /\ Permutation2d.forward p (mkTensor [1; 3; 1; 1] [1; 2; 3]%R) false = Ok y
    /\ shape y = [1; 2; 1; 1].
Proof.
  eexists.
  destruct (proj1 (@permutation2d_other_widths 2 false []
                     _ (mkTensor [1; 3; 1; 1] [1; 2; 3]%R) 1 3 1 1 false
                     (fun H => False_ind _ (Bool.diff_false_true H))
                     eq_refl eq_refl)) as (y & E & S).
  - lia.
  - exists y. split; [reflexivity|]. split; assumption.
Defined.

(** ** GaussianDiag *)

Lemma sq_over_exp2 (l n m : R) :
  ((m + exp l * n - m) ^ 2 / exp (2 * l))%R = (n ^ 2)%R.
Proof.
  replace (2 * l)%R with (l + l)%R by ring. rewrite exp_plus.
  pose proof (exp_pos l). field. lra.
Qed.

Lemma tmap_tabulate (g : R -> R) (s : list nat) (f : nat -> R) :
  tmap g (tabulate s f) = tabulate s (fun k => g (f k)).
Proof. unfold tmap, tabulate. cbn [shape data]. now rewrite map_map. Qed.

Lemma binop_tabulate_r (op : R -> R -> R) (a : tensor) (g : nat -> R) :
  binop op a (tabulate (shape a) g)
  = Ok (tabulate (shape a) (fun k => op (get a k) (g k))).
Proof.
  rewrite binop_same by reflexivity. f_equal.
  apply tabulate_ext. intros k Hk. now rewrite get_tabulate.
Qed.

Lemma binop_tabulate_l (op : R -> R -> R) (b : tensor) (f : nat -> R) :
  binop op (tabulate (shape b) f) b
  = Ok (tabulate (shape b) (fun k => op (f k) (get b k))).
Proof.
  rewrite binop_same by reflexivity. cbn [tabulate shape]. f_equal.
  apply tabulate_ext. intros k Hk. now rewrite get_tabulate.
Qed.

Lemma binop_tabulate (op : R -> R -> R) (s : list nat) (f g : nat -> R) :
  binop op (tabulate s f) (tabulate s g)
  = Ok (tabulate s (fun k => op (f k) (g k))).
Proof.
  rewrite binop_same by reflexivity. cbn [tabulate shape]. f_equal.
  apply tabulate_ext. intros k Hk. now rewrite !get_tabulate.
Qed.

(** A well-formed tensor seen through [tmap]. *)
Lemma tmap_as_tabulate (g : R -> R) (t : tensor) :
  wf t -> tmap g t = tabulate (shape t) (fun k => g (get t k)).
Proof.
  intro Hwf. rewrite <- (tabulate_get Hwf) at 1. apply tmap_tabulate.
Qed.

(** X10.  For a mean and log-scales of one shape, [sample] returns
    [mean + exp(logs) * eps] elementwise, and the log-density [logps] of
    that sample no longer depends on the mean: it is
    [-0.5 * (log(2 pi) + 2 * logs + eps ** 2)] elementwise. *)
Theorem gaussian_sample_logps (noise : nat -> R) (mean logs : tensor) :
  shape mean = shape logs ->
  wf logs ->
  GaussianDiag.sample noise mean logs
  = Ok (tabulate (shape mean)
          (fun k => (get mean k + exp (get logs k) * noise k)%R))
  /\ (x <- GaussianDiag.sample noise mean logs ;;
      GaussianDiag.logps mean logs x)
     = Ok (tabulate (shape mean)
             (fun k => (- (1 / 2)
                        * (ln (2 * PI) + 2 * get logs k + noise k ^ 2))%R)).
Proof.
  intros Hs Hwf.
  assert (Es : GaussianDiag.sample noise mean logs
               = Ok (tabulate (shape mean)
                       (fun k => (get mean k + exp (get logs k) * noise k)%R))).
  { unfold GaussianDiag.sample, GaussianDiag.eps.
    rewrite (tmap_as_tabulate exp Hwf), Hs, binop_tabulate. cbn [bind].
    rewrite <- Hs. apply binop_tabulate_r. }
  split; [exact Es|].
  rewrite Es. cbn [bind]. unfold GaussianDiag.logps.
  rewrite binop_tabulate_l. cbn [bind].
  rewrite tmap_tabulate.
  rewrite (tmap_as_tabulate (fun v => (2 * v)%R) Hwf), tmap_tabulate.
  rewrite (tmap_as_tabulate (fun v => (ln (2 * PI) + 2 * v)%R) Hwf).
  rewrite Hs, binop_tabulate. cbn [bind].
  rewrite binop_tabulate. cbn [bind].
  rewrite tmap_tabulate. f_equal. apply tabulate_ext. intros k Hk.
  rewrite sq_over_exp2. reflexivity.
Qed.

(** X10 witness: one element, mean 1, log-scale 0. *)
Lemma gaussian_sample_logps_witness :
  let mean := mkTensor [1; 1; 1; 1] [1%R] in
  let logs := mkTensor [1; 1; 1; 1] [0%R] in
  GaussianDiag.sample INR mean logs
  = Ok (tabulate (shape mean)
          (fun k => (get mean k + exp (get logs k) * INR k)%R))
  /\ (x <- GaussianDiag.sample INR mean logs ;;
      GaussianDiag.logps mean logs x)
     = Ok (tabulate (shape mean)
             (fun k => (- (1 / 2)
                        * (ln (2 * PI) + 2 * get logs k + INR k ^ 2))%R)).
Proof.
  intros mean logs.
  apply (@gaussian_sample_logps INR mean logs); reflexivity.
Defined.

Lemma filter_none {A : Type} (P : A -> bool) (l : list A) :
  (forall a, In a l -> P a = false) -> filter P l = [].
Proof.
  induction l as [|a l IH]; intro H; cbn [filter]; [reflexivity|].
  rewrite (H a) by (left; reflexivity).
  apply IH. intros b Hb. apply H. right. exact Hb.
Qed.

Lemma filter_all {A : Type} (P : A -> bool) (l : list A) :
  (forall a, In a l -> P a = true) -> filter P l = l.
Proof.
  induction l as [|a l IH]; intro H; cbn [filter]; [reflexivity|].
  rewrite (H a) by (left; reflexivity). f_equal.
  apply IH. intros b Hb. apply H. right. exact Hb.
Qed.

(** The flat indices whose leading index is [a] form the [a]-th block. *)
Lemma filter_block (M n a : nat) (P : nat -> bool) :
  a < n ->
  (forall k, k < n * M -> P k = (a =? k / M)) ->
  filter P (seq 0 (n * M)) = seq (a * M) M.
Proof.
  intros Ha HP.
  destruct M as [|M'].
  { rewrite Nat.mul_0_r. reflexivity. }
  remember (S M') as M eqn:EM.
  assert (HM : M <> 0) by lia. clear EM M'.
  replace (n * M) with (a * M + (M + (n - a - 1) * M)) in * by nia.
  remember ((n - a - 1) * M) as rest eqn:Er. clear Er.
  remember (a * M) as start eqn:Es.
  rewrite seq_app, filter_app. cbn [Nat.add].
  rewrite seq_app, filter_app.
  rewrite filter_none, filter_all, filter_none.
  - rewrite app_nil_r. reflexivity.
  - intros k Hk. apply in_seq in Hk. rewrite HP by lia.
    apply Nat.eqb_neq. intro E.
    assert (M * (a + 1) <= k) by nia.
    pose proof (Nat.div_le_lower_bound k M (a + 1) HM H). lia.
  - intros k Hk. apply in_seq in Hk. rewrite HP by lia.
    apply Nat.eqb_eq. apply Nat.div_unique with (k - start); nia.
  - intros k Hk. apply in_seq in Hk. rewrite HP by lia.
    apply Nat.eqb_neq. intro E.
    assert (k / M < a) by (apply Nat.Div0.div_lt_upper_bound; nia). lia.
Qed.

Lemma map_seq_shift (g : nat -> R) (start len : nat) :
  map g (seq start len) = map (fun j => g (start + j)) (seq 0 len).
Proof.
  revert start. induction len as [|len IH]; intro start; [reflexivity|].
  cbn [seq map]. rewrite Nat.add_0_r. f_equal.
  rewrite IH, <- seq_shift, map_map.
  apply map_ext. intro j. f_equal. lia.
Qed.

(** [flatten_sum] on a rank-4 tensor: one sum per batch element, over the
    block of that element. *)
Lemma flatten_sum_blocks (n c h w : nat) (g : nat -> R) :
  exists r,
    GaussianDiag.flatten_sum (tabulate [n; c; h; w] g) = Ok r
    /\ shape r = [n]
    /\ wf r
    /\ forall a, a < n ->
         get r a = Rsum (map (fun j => g (a * (c * h * w) + j))
                           (seq 0 (c * h * w))).
Proof.
  unfold GaussianDiag.flatten_sum. cbn [tabulate shape length Nat.eqb assert bind].
  eexists. split; [reflexivity|].
  unfold ops.reduce_sum. cbn [shape].
  split; [reflexivity|]. split.
  { unfold wf. cbn [shape data tabulate]. rewrite length_map, length_seq.
    cbn. lia. }
  intros a Ha.
  set (t := mkTensor [n; c; h; w] (map g (seq 0 (numel [n; c; h; w])))).
  change (get (tabulate (ops.keep_shape [n; c; h; w] (Some [1; 2; 3]))
                 (fun k' =>
                    Rsum (map (get t)
                            (filter
                               (fun k =>
                                  ops.agree (Some [1; 2; 3])
                                    (unravel (ops.keep_shape [n; c; h; w]
                                                (Some [1; 2; 3])) k')
                                    (unravel [n; c; h; w] k))
                               (seq 0 (numel [n; c; h; w])))))) a
          = Rsum (map (fun j => g (a * (c * h * w) + j)) (seq 0 (c * h * w)))).
  assert (Hks : ops.keep_shape [n; c; h; w] (Some [1; 2; 3]) = [n; 1; 1; 1])
    by reflexivity.
  rewrite Hks.
  rewrite get_tabulate by (cbn; lia).
  replace (numel [n; c; h; w]) with (n * (c * h * w)) by (cbn; lia).
  rewrite (@filter_block (c * h * w) n a) by
    (try exact Ha; intros k Hk; cbn;
     change (fst (Nat.divmod a 0 0 0)) with (a / 1);
     rewrite Nat.div_1_r, andb_true_r;
     replace (c * (h * (w * 1))) with (c * h * w) by lia; reflexivity).
  rewrite map_seq_shift. f_equal. apply map_ext_in.
  intros j Hj. apply in_seq in Hj.
  change (get t (a * (c * h * w) + j))
    with (get (tabulate [n; c; h; w] g) (a * (c * h * w) + j)).
  apply get_tabulate. cbn. nia.
Qed.

Lemma logps_tabulate (mean logs x : tensor) :
  shape mean = shape x -> shape logs = shape x -> wf logs ->
  GaussianDiag.logps mean logs x
  = Ok (tabulate (shape x)
          (fun k => (- (1 / 2)
                     * (ln (2 * PI) + 2 * get logs k
                        + (get x k - get mean k) ^ 2
                          / exp (2 * get logs k)))%R)).
Proof.
  intros Hm Hl Hwf. unfold GaussianDiag.logps.
  rewrite binop_same by congruence. cbn [bind].
  rewrite tmap_tabulate.
  rewrite (tmap_as_tabulate (fun v => (2 * v)%R) Hwf), tmap_tabulate.
  rewrite (tmap_as_tabulate (fun v => (ln (2 * PI) + 2 * v)%R) Hwf).
  rewrite Hl, binop_tabulate. cbn [bind].
  rewrite binop_tabulate. cbn [bind].
  rewrite tmap_tabulate. reflexivity.
Qed.

(** X11.  For a mean, log-scales and an input of one shape, [logp] on
    rank-4 tensors returns one number per batch element, the sum of the
    elementwise log-densities over the channels, rows and columns of that
    element; on tensors of another rank it raises [AssertionError]. *)
Theorem gaussian_logp_per_batch (mean logs x : tensor) :
  shape mean = shape x -> shape logs = shape x -> wf logs ->
  (length (shape x) <> 4 ->
   GaussianDiag.logp mean logs x = Raise AssertionError)
  /\ (forall n c h w,
        shape x = [n; c; h; w] ->
        exists r,
          GaussianDiag.logp mean logs x = Ok r
          /\ shape r = [n]
          /\ wf r
          /\ forall a, a < n ->
               get r a
               = Rsum (map (fun j =>
                         let k := a * (c * h * w) + j in
                         (- (1 / 2)
                          * (ln (2 * PI) + 2 * get logs k
                             + (get x k - get mean k) ^ 2
                               / exp (2 * get logs k)))%R)
                       (seq 0 (c * h * w)))).
Proof.
  intros Hm Hl Hwf. unfold GaussianDiag.logp.
  rewrite logps_tabulate by assumption. cbn [bind].
  split.
  - intro Hr. unfold GaussianDiag.flatten_sum. cbn [tabulate shape].
    destruct (Nat.eqb_spec (length (shape x)) 4); [contradiction|reflexivity].
  - intros n c h w Hx. rewrite Hx.
    apply flatten_sum_blocks.
Qed.

(** X11 witness: batch of two, one element each. *)
Lemma gaussian_logp_per_batch_witness :
  let mean := mkTensor [2; 1; 1; 1] [0; 0]%R in
  let logs := mkTensor [2; 1; 1; 1] [0; 0]%R in
  let x := mkTensor [2; 1; 1; 1] [1; 2]%R in
  exists r, GaussianDiag.logp mean logs x = Ok r /\ shape r = [2] /\ wf r.
Proof.
  intros mean logs x.
  destruct (proj2 (@gaussian_logp_per_batch mean logs x eq_refl eq_refl eq_refl)
              2 1 1 1 eq_refl) as (r & E & S & W & _).
  exists r. auto.
Defined.

(** ** Split2d: the reverse pass *)

Lemma conv2dzeros_zero_forward (W B : tensor) (ic oc : nat) (ks : nat * nat)
    (stride : nat) (p : nat * nat) (dil groups : nat) (lf : R) (x : tensor) :
  nth 0 (shape W) 0 = oc ->
  Conv2dZeros.forward
    (Conv2dZeros.mk
       (nnConv2d.mk ic oc ks stride p dil groups (zero_ W) (Some (zero_ B)))
       lf (zeros [oc; 1; 1])) x
  = (s' <- F.conv2d_shape (shape x) (shape W) stride p dil groups ;;
     Ok (zeros s')).
Proof.
  intro HW. unfold Conv2dZeros.forward, nnConv2d.forward.
  cbn [Conv2dZeros.conv Conv2dZeros.logs Conv2dZeros.logscale_factor
       nnConv2d.weight nnConv2d.bias nnConv2d.stride nnConv2d.padding
       nnConv2d.dilation nnConv2d.groups].
  rewrite conv2d_zero.
  destruct (F.conv2d_shape (shape x) _ stride p dil groups) as [s'|e] eqn:Es;
    cbn [bind]; [|reflexivity].
  destruct (conv2d_shape_form _ _ _ _ _ _ Es) as (n & ho & wo & ->).
  rewrite HW.
  apply binop__left_zero.
  - apply broadcast_shape_chw.
  - intros k _. apply get_zeros.
Qed.

Lemma select_channels_zeros (n c h w : nat) (rest A : list nat) :
  (forall i, In i A -> i < c) ->
  select_channels (zeros (n :: c :: h :: w :: rest)) A
  = Ok (zeros (n :: length A :: h :: w :: rest)).
Proof.
  intro HA. unfold select_channels. cbn [zeros tabulate shape].
  assert (FA : forallb (fun i => i <? c) A = true).
  { apply forallb_forall. intros i Hi. apply Nat.ltb_lt. auto. }
  rewrite FA. f_equal. apply tabulate_ext. intros k _.
  destruct (unravel _ k) as [|a [|b r]]; try reflexivity.
  apply (get_zeros (n :: c :: h :: w :: rest)).
Qed.

Lemma slice_channels_zeros (n c h w start step : nat) :
  slice_channels (zeros [n; c; h; w]) start None step
  = Ok (zeros [n; length (slice_indices c start c step); h; w]).
Proof.
  unfold slice_channels, dim. cbn [zeros tabulate shape nth_error bind].
  apply (@select_channels_zeros n c h w []).
  intros i Hi. eapply slice_indices_lt. exact Hi.
Qed.

Lemma sample_tabulate (noise : nat -> R) (mean logs : tensor) :
  shape mean = shape logs -> wf logs ->
  GaussianDiag.sample noise mean logs
  = Ok (tabulate (shape mean)
          (fun k => (get mean k + exp (get logs k) * noise k)%R)).
Proof.
  intros Hs Hwf. unfold GaussianDiag.sample, GaussianDiag.eps.
  rewrite (tmap_as_tabulate exp Hwf), Hs, binop_tabulate. cbn [bind].
  rewrite <- Hs. apply binop_tabulate_r.
Qed.

Lemma split2d_init_inv (C : nat) (w0 b0 : nat -> R) (self : Split2d.t) :
  Split2d.init C w0 b0 = Ok self ->
  exists W B,
    shape W = [C; C / 2; 3; 3]
    /\ self = Split2d.mk C
                (Conv2dZeros.mk
                   (nnConv2d.mk (C / 2) C (3, 3) 1 (1, 1) 1 1
                      (zero_ W) (Some (zero_ B)))
                   3 (zeros [C; 1; 1])).
Proof.
  unfold Split2d.init.
  destruct (Conv2dZeros.init _ _ _ _ _ _ _ _ _ _ _) as [cz|] eqn:E;
    [|discriminate].
  cbn [bind]. intro H. injection H as <-.
  destruct (conv2dzeros_init_inv _ _ _ _ _ _ _ _ _ _ _ E)
    as (p & W & B & Hp & HW & ->).
  cbn in Hp. injection Hp as <-.
  rewrite Nat.div_1_r in HW.
  exists W, B. split; [exact HW|reflexivity].
Qed.

(** X12.  A [Split2d] as constructed has a zero prior, so its reverse pass
    appends the noise itself: on a retained half of shape (N, C/2, H, W)
    it returns the concatenation of the input with the tensor of the
    values drawn, and the accumulator it was given. *)
Theorem split2d_fresh_reverse_appends_noise (C : nat) (w0 b0 : nat -> R)
    (self : Split2d.t) (z1 : tensor) (logdet : option tensor)
    (noise : nat -> R) (n h w : nat) :
  Split2d.init C w0 b0 = Ok self ->
  Nat.even C = true ->
  shape z1 = [n; C / 2; h; w] ->
  0 < h -> 0 < w ->
  exists z,
    cat_channels z1 (tabulate [n; C / 2; h; w] noise) = Ok z
    /\ shape z = [n; C / 2 + C / 2; h; w]
    /\ Split2d.forward self z1 logdet true noise = Ok (z, logdet).
Proof.
  intros Hinit He Hz Hh Hw.
  destruct (split2d_init_inv Hinit) as (W & B & HW & ->).
  destruct (even_halves C He) as [L0 L1].
  assert (Ep : Split2d.prior
                 (Split2d.mk C
                    (Conv2dZeros.mk
                       (nnConv2d.mk (C / 2) C (3, 3) 1 (1, 1) 1 1
                          (zero_ W) (Some (zero_ B)))
                       3 (zeros [C; 1; 1]))) z1
               = Ok (zeros [n; C / 2; h; w], zeros [n; C / 2; h; w])).
  { unfold Split2d.prior. cbn [Split2d.conv2d_zeros].
    rewrite conv2dzeros_zero_forward by (rewrite HW; reflexivity).
    rewrite Hz, HW. unfold F.conv2d_shape. cbn [Nat.eqb fst snd].
    rewrite Nat.mul_1_r, Nat.eqb_refl, Nat.mod_1_r. cbn [negb Nat.eqb].
    rewrite !conv_same_3 by assumption. cbn [bind].
    rewrite !slice_channels_zeros, L0, L1. reflexivity. }
  assert (Ez : exists z,
             cat_channels z1 (tabulate [n; C / 2; h; w] noise) = Ok z
             /\ shape z = [n; C / 2 + C / 2; h; w]).
  { unfold cat_channels. cbn [tabulate shape]. rewrite Hz.
    rewrite Nat.eqb_refl, list_nat_eqb_refl. cbn [andb].
    eexists. split; reflexivity. }
  destruct Ez as (z & Ez & Sz). exists z. split; [exact Ez|]. split; [exact Sz|].
  unfold Split2d.forward. cbn [negb]. rewrite Ep. cbn [bind].
  rewrite sample_tabulate by (reflexivity || apply tabulate_wf).
  cbn [bind].
  replace (shape (zeros [n; C / 2; h; w])) with [n; C / 2; h; w]
    by reflexivity.
  set (s := [n; C / 2; h; w]) in *.
  assert (Et : tabulate s
                 (fun k => (get (zeros s) k
                            + exp (get (zeros s) k) * noise k)%R)
               = tabulate s noise).
  { apply tabulate_ext. intros k _. rewrite get_zeros, exp_0. ring. }
  rewrite Et, Ez. reflexivity.
Qed.

(** X12 witness: two channels, a 1 x 1 x 1 x 1 retained half. *)
Lemma split2d_fresh_reverse_appends_noise_witness :
  exists self z,
    Split2d.init 2 INR INR = Ok self
    /\ cat_channels retained_half (tabulate [1; 1; 1; 1] INR) = Ok z
    /\ Split2d.forward self retained_half None true INR = Ok (z, None).
Proof.
  eexists.
  destruct (@split2d_fresh_reverse_appends_noise 2 INR INR _ retained_half
              None INR 1 1 1 eq_refl eq_refl eq_refl) as (z & Ez & _ & Ef);
    [lia | lia |].
  exists z. split; [reflexivity|]. split; assumption.
Defined.

Lemma slice_indices_step1 (stop : nat) :
  forall fuel start,
    stop - start <= fuel ->
    slice_indices fuel start stop 1 = seq start (stop - start).
Proof.
  induction fuel as [|fuel IH]; intros start Hf.
  - replace (stop - start) with 0 by lia. reflexivity.
  - cbn [slice_indices].
    destruct (Nat.ltb_spec start stop) as [Hlt|Hge].
    + rewrite IH by lia.
      replace (stop - start) with (S (stop - (start + 1))) by lia.
      cbn [seq]. f_equal. f_equal. lia.
    + replace (stop - start) with 0 by lia. reflexivity.
Qed.

Lemma cat_channels_get (a b z : tensor) (n ca cb : nat) (r : list nat) :
  shape a = n :: ca :: r -> shape b = n :: cb :: r ->
  cat_channels a b = Ok z ->
  shape z = n :: (ca + cb) :: r
  /\ wf z
  /\ forall i c t,
       Forall2 lt (i :: c :: t) (n :: (ca + cb) :: r) ->
       get z (ravel (n :: (ca + cb) :: r) (i :: c :: t))
       = if c <? ca then get a (ravel (n :: ca :: r) (i :: c :: t))
         else get b (ravel (n :: cb :: r) (i :: (c - ca) :: t)).
Proof.
  intros Ha Hb. unfold cat_channels. rewrite Ha, Hb.
  rewrite Nat.eqb_refl, list_nat_eqb_refl. unfold andb.
  intro E. injection E as <-.
  split; [reflexivity|]. split; [apply tabulate_wf|].
  intros i c t Hr.
  rewrite get_tabulate by (apply ravel_lt; exact Hr).
  pose proof (unravel_ravel Hr) as U. cbn [unravel numel] in U.
  injection U as U1 U2 U3. rewrite U1, U2, U3. reflexivity.
Qed.

Lemma cat_channels_shapes (a b z : tensor) (n ca : nat) (r : list nat) :
  shape a = n :: ca :: r ->
  cat_channels a b = Ok z ->
  exists cb, shape b = n :: cb :: r.
Proof.
  intros Ha. unfold cat_channels. rewrite Ha.
  destruct (shape b) as [|n' [|cb rb]]; try discriminate.
  destruct (Nat.eqb_spec n n') as [<-|]; unfold andb; [|discriminate].
  unfold list_nat_eqb.
  destruct (list_eq_dec Nat.eq_dec r rb) as [<-|]; [|discriminate].
  intros _. exists cb. reflexivity.
Qed.

(** Splitting a concatenation at the seam gives the two parts back. *)
Lemma cat_then_slice (a b z : tensor) (n ca cb h w : nat) (rest : list nat) :
  wf a -> wf b ->
  shape a = n :: ca :: h :: w :: rest ->
  shape b = n :: cb :: h :: w :: rest ->
  cat_channels a b = Ok z ->
  slice_channels z 0 (Some ca) 1 = Ok a
  /\ slice_channels z ca None 1 = Ok b.
Proof.
  intros Wa Wb Ha Hb Hz.
  destruct (cat_channels_get a b Ha Hb Hz) as (Sz & _ & Gz).
  unfold slice_channels, dim. rewrite Sz. cbn [nth_error bind].
  rewrite Nat.min_l by lia.
  rewrite !slice_indices_step1 by lia.
  replace (ca - 0) with ca by lia. replace (ca + cb - ca) with cb by lia.
  unfold select_channels. rewrite Sz.
  assert (F1 : forallb (fun i => i <? ca + cb) (seq 0 ca) = true).
  { apply forallb_forall. intros i Hi. apply in_seq in Hi.
    apply Nat.ltb_lt. lia. }
  assert (F2 : forallb (fun i => i <? ca + cb) (seq ca cb) = true).
  { apply forallb_forall. intros i Hi. apply in_seq in Hi.
    apply Nat.ltb_lt. lia. }
  rewrite F1, F2, !length_seq.
  split.
  - transitivity (Ok (tabulate (shape a) (get a)));
      [|now rewrite (tabulate_get Wa)].
    rewrite Ha. f_equal. apply tabulate_ext. intros k Hk.
    destruct (@unravel_cons2 _ _ _ _ Hk) as (i & c & t & E & Hi & Hc & Ht).
    rewrite E. rewrite seq_nth by exact Hc. cbn [Nat.add].
    assert (Hr : Forall2 lt (i :: c :: t) (n :: ca + cb :: h :: w :: rest))
      by (constructor; [exact Hi|constructor; [lia|exact Ht]]).
    rewrite Gz by exact Hr.
    destruct (Nat.ltb_spec c ca) as [_|?]; [|lia].
    rewrite <- E, ravel_unravel by exact Hk. reflexivity.
  - transitivity (Ok (tabulate (shape b) (get b)));
      [|now rewrite (tabulate_get Wb)].
    rewrite Hb. f_equal. apply tabulate_ext. intros k Hk.
    destruct (@unravel_cons2 _ _ _ _ Hk) as (i & c & t & E & Hi & Hc & Ht).
    rewrite E. rewrite seq_nth by exact Hc.
    assert (Hr : Forall2 lt (i :: ca + c :: t) (n :: ca + cb :: h :: w :: rest))
      by (constructor; [exact Hi|constructor; [lia|exact Ht]]).
    rewrite Gz by exact Hr.
    destruct (Nat.ltb_spec (ca + c) ca) as [?|_]; [lia|].
    replace (ca + c - ca) with c by lia.
    rewrite <- E, ravel_unravel by exact Hk. reflexivity.
Qed.

Lemma split2d_reverse_returns (self : Split2d.t) (z1 : tensor)
    (logdet : option tensor) (noise : nat -> R) (n h w : nat) :
  Split2d.well_shaped self ->
  Nat.even (Split2d.num_channels self) = true ->
  shape z1 = [n; Split2d.num_channels self / 2; h; w] ->
  0 < h -> 0 < w ->
  exists z, Split2d.forward self z1 logdet true noise = Ok (z, logdet).
Proof.
  intros Hws He Hz Hh Hw.
  destruct (@split2d_prior_ok self z1 n h w Hws He Hz Hh Hw)
    as (mean & logs & Ep & Sm & Sl).
  unfold Split2d.forward. cbn [negb]. rewrite Ep. cbn [bind].
  unfold GaussianDiag.sample, GaussianDiag.eps.
  rewrite binop_same by (cbn [tmap tabulate shape]; congruence).
  cbn [bind].
  rewrite binop_same by (cbn [tmap tabulate shape]; congruence).
  cbn [bind].
  unfold cat_channels. cbn [tabulate shape]. rewrite Hz, Sm.
  rewrite Nat.eqb_refl, list_nat_eqb_refl. cbn [andb bind].
  eexists. reflexivity.
Qed.

(** X13.  Whenever the reverse pass of [Split2d] returns, splitting its
    output at the channel count of the retained half gives that half back
    as the leading channels, and the trailing channels are the sample
    drawn from the prior of the retained half. *)
Theorem split2d_reverse_then_split (self : Split2d.t) (z1 z : tensor)
    (logdet logdet' : option tensor) (noise : nat -> R) (n c h w : nat) :
  wf z1 ->
  shape z1 = [n; c; h; w] ->
  Split2d.forward self z1 logdet true noise = Ok (z, logdet') ->
  slice_channels z 0 (Some c) 1 = Ok z1
  /\ exists mean logs z2,
       Split2d.prior self z1 = Ok (mean, logs)
       /\ GaussianDiag.sample noise mean logs = Ok z2
       /\ slice_channels z c None 1 = Ok z2.
Proof.
  intros Wz Hz. unfold Split2d.forward. cbn [negb].
  destruct (Split2d.prior self z1) as [[mean logs]|]; [|discriminate].
  cbn [bind].
  destruct (GaussianDiag.sample noise mean logs) as [z2|] eqn:Es;
    [|discriminate].
  cbn [bind].
  destruct (cat_channels z1 z2) as [zz|] eqn:Ec; [|discriminate].
  cbn [bind]. intro E. injection E as <- _.
  (* the sample is a tabulated tensor whose shape agrees with [z1] apart
     from the channel count *)
  assert (Hz2 : wf z2 /\ exists cb, shape z2 = [n; cb; h; w]).
  { split.
    - unfold GaussianDiag.sample in Es.
      destruct (binop Rmult _ _) as [m|]; [|discriminate]. cbn [bind] in Es.
      unfold binop in Es.
      destruct (broadcast_shape (shape mean) (shape m)) as [s|]; [|discriminate].
      injection Es as <-. apply tabulate_wf.
    - apply (@cat_channels_shapes z1 z2 zz n c [h; w] Hz Ec). }
  destruct Hz2 as (Wz2 & cb & Hz2).
  destruct (@cat_then_slice z1 z2 zz n c cb h w [] Wz Wz2 Hz Hz2 Ec) as [S1 S2].
  split; [exact S1|]. exists mean, logs, z2. auto.
Qed.

(** X13 witness: the two-channel layer as constructed. *)
Lemma split2d_reverse_then_split_witness :
  exists self z,
    Split2d.init 2 INR INR = Ok self
    /\ Split2d.forward self retained_half None true INR = Ok (z, None)
    /\ slice_channels z 0 (Some 1) 1 = Ok retained_half.
Proof.
  assert (Hs : exists self,
             Split2d.init 2 INR INR = Ok self
             /\ Split2d.well_shaped self
             /\ Split2d.num_channels self = 2).
  { eexists. split; [reflexivity|]. split; [repeat split|reflexivity]. }
  destruct Hs as (self & Ei & Hws & Hc).
  destruct (@split2d_reverse_returns self retained_half None INR 1 1 1)
    as (z & Ez); try (rewrite Hc; reflexivity); try lia; try exact Hws.
  exists self, z. split; [exact Ei|]. split; [exact Ez|].
  exact (proj1 (@split2d_reverse_then_split self retained_half z None None INR
                  1 1 1 1 eq_refl eq_refl Ez)).
Defined.

(** ** Squeeze2d: element order, volume, the other round trip *)

(** X14.  [squeeze] moves every [f] by [f] spatial block into [f * f]
    channels, channel-major, then row within the block, then column within
    the block: element (n, c*f*f + i*f + j, a, b) of the output is element
    (n, c, a*f + i, b*f + j) of the input. *)
Theorem squeeze_element_order (x : tensor) (N C h w f : nat) :
  wf x ->
  shape x = [N; C; h * f; w * f] ->
  2 <= f -> 0 < C -> 0 < h -> 0 < w ->
  exists y,
    Squeeze2d.squeeze x f = Ok y
    /\ shape y = [N; C * f * f; h; w]
    /\ wf y
    /\ forall n c i j a b,
         n < N -> c < C -> i < f -> j < f -> a < h -> b < w ->
         get y (ravel [N; C * f * f; h; w] [n; c * f * f + i * f + j; a; b])
         = get x (ravel [N; C; h * f; w * f] [n; c; a * f + i; b * f + j]).
Proof.
  intros Hwf Hs Hf HC Hh Hw.
  destruct x as [s d]. cbn [shape] in Hs. subst s.
  unfold wf in Hwf. cbn [shape data] in Hwf.
  rewrite (@squeeze_block N C h w f d Hf HC Hh Hw Hwf).
  eexists. split; [reflexivity|]. split; [reflexivity|]. split.
  { unfold wf, permute_contiguous, tabulate. cbn [shape data map nth].
    rewrite length_map, length_seq. cbn [numel]. lia. }
  intros n c i j a b Hn Hc Hi Hj Ha Hb.
  pose proof (@permute_contiguous_get
                (mkTensor [N; C; h; f; w; f] d)
                [0; 1; 3; 5; 2; 4] [n; c; i; j; a; b]) as P.
  cbn [shape map nth strides] in P.
  unfold get at 1. cbn [data].
  change (nth ?k (data ?t) 0%R) with (get t k).
  replace (ravel [N; C * f * f; h; w] [n; c * f * f + i * f + j; a; b])
    with (ravel [N; C; f; f; h; w] [n; c; i; j; a; b])
    by (unfold ravel; cbn [dot strides numel]; lia).
  rewrite P by (repeat constructor; assumption).
  unfold get. cbn [data]. f_equal.
  unfold ravel. cbn [dot strides numel]. lia.
Qed.

(** X14 witness: factor 2 on a 1 x 1 x 2 x 2 tensor. *)
Lemma squeeze_element_order_witness :
  let x := mkTensor [1; 1; 2; 2] [1; 2; 3; 4]%R in
  exists y,
    Squeeze2d.squeeze x 2 = Ok y
    /\ shape y = [1; 4; 1; 1]
    /\ wf y.
Proof.
  intro x.
  destruct (@squeeze_element_order x 1 1 1 1 2) as (y & E & S & W & _);
    try lia; try reflexivity.
  exists y. auto.
Defined.

Lemma view_infer_inv (t t' : tensor) (rest : list nat) :
  view_infer t rest = Ok t' ->
  exists q, shape t' = q :: rest
            /\ data t' = data t
            /\ q * numel rest = numel (shape t).
Proof.
  unfold view_infer.
  destruct (numel rest =? 0); [discriminate|].
  destruct (Nat.eqb_spec (numel (shape t) mod numel rest) 0) as [E|];
    [|discriminate].
  intro H. injection H as <-. cbn [shape data].
  eexists. split; [reflexivity|]. split; [reflexivity|].
  apply Nat.Div0.div_exact in E. lia.
Qed.

Lemma view_infer_numel (t t' : tensor) (rest : list nat) :
  view_infer t rest = Ok t' -> numel (shape t') = numel (shape t).
Proof.
  intro H. destruct (view_infer_inv _ _ H) as (q & -> & _ & E). exact E.
Qed.

Lemma reshape_volume (x x1 y : tensor) (r1 r2 r3 r4 r5 : nat)
    (dims rest : list nat) :
  view_infer x [r1; r2; r3; r4; r5] = Ok x1 ->
  (forall q, numel (map (fun d => nth d [q; r1; r2; r3; r4; r5] 0) dims)
             = numel [q; r1; r2; r3; r4; r5]) ->
  view_infer (permute_contiguous x1 dims) rest = Ok y ->
  numel (shape y) = numel (shape x) /\ wf y.
Proof.
  intros E1 Hp E2.
  destruct (view_infer_inv _ _ E1) as (q & S1 & _ & N1).
  destruct (view_infer_inv _ _ E2) as (q2 & S2 & D2 & N2).
  assert (Hn : numel (map (fun d => nth d (shape x1) 0) dims)
               = numel (shape x)).
  { rewrite <- N1, S1. apply Hp. }
  split.
  - rewrite S2. cbn [numel]. rewrite N2. exact Hn.
  - unfold wf. rewrite D2, S2. cbn [numel]. rewrite N2.
    unfold permute_contiguous, tabulate. cbn [data shape].
    now rewrite length_map, length_seq.
Qed.

(** X15.  [Squeeze2d.forward] is a pure reshape in both directions:
    whenever it returns, the accumulator is the one it was given, the
    output has as many elements as the input, and the output is well
    formed when the input is. *)
Theorem squeeze2d_forward_preserves_volume (self : Squeeze2d.t)
    (x y : tensor) (logdet logdet' : option tensor) (reverse : bool) :
  Squeeze2d.forward self x logdet reverse = Ok (y, logdet') ->
  logdet' = logdet
  /\ numel (shape y) = numel (shape x)
  /\ (wf x -> wf y).
Proof.
  unfold Squeeze2d.forward.
  destruct (if negb reverse then _ else _) as [o|] eqn:E; [|discriminate].
  cbn [bind]. intro H. injection H as <- <-. split; [reflexivity|].
  assert (G : numel (shape o) = numel (shape x) /\ (wf x -> wf o)).
  { destruct reverse; cbn [negb] in E.
    - unfold Squeeze2d.unsqueeze in E.
      destruct (assert (1 <=? Squeeze2d.factor self)); [|discriminate].
      cbn [bind] in E.
      destruct (Squeeze2d.factor self =? 1).
      { injection E as <-. auto. }
      destruct (dim x 1) as [nc|]; [|discriminate].
      destruct (dim x 2) as [nh|]; [|discriminate].
      destruct (dim x 3) as [nw|]; [|discriminate].
      cbn [bind] in E.
      destruct (assert _); [|discriminate]. cbn [bind] in E.
      destruct (view_infer x _) as [x1|] eqn:E1; [|discriminate].
      cbn [bind] in E.
      pose proof (fun Hp => @reshape_volume x x1 o _ _ _ _ _ _ _ E1 Hp E)
        as Hv.
      destruct Hv as [Hn Hw]; [intro q; cbn [map nth numel]; lia|]. auto.
    - unfold Squeeze2d.squeeze in E.
      destruct (assert (1 <=? Squeeze2d.factor self)); [|discriminate].
      cbn [bind] in E.
      destruct (Squeeze2d.factor self =? 1).
      { injection E as <-. auto. }
      destruct (dim x 1) as [nc|]; [|discriminate].
      destruct (dim x 2) as [nh|]; [|discriminate].
      destruct (dim x 3) as [nw|]; [|discriminate].
      cbn [bind] in E.
      destruct (assert _); [|discriminate]. cbn [bind] in E.
      destruct (view_infer x _) as [x1|] eqn:E1; [|discriminate].
      cbn [bind] in E.
      pose proof (fun Hp => @reshape_volume x x1 o _ _ _ _ _ _ _ E1 Hp E)
        as Hv.
      destruct Hv as [Hn Hw]; [intro q; cbn [map nth numel]; lia|]. auto. }
  exact G.
Qed.

(** X15 witness: the default factor on a 1 x 1 x 2 x 2 tensor. *)
Lemma squeeze2d_forward_preserves_volume_witness :
  let x := mkTensor [1; 1; 2; 2] [1; 2; 3; 4]%R in
  exists y,
    Squeeze2d.forward (Squeeze2d.mk 2) x None false = Ok (y, None)
    /\ numel (shape y) = numel (shape x)
    /\ wf y.
Proof.
  intro x.
  assert (E : exists y,
            Squeeze2d.forward (Squeeze2d.mk 2) x None false = Ok (y, None)).
  { unfold Squeeze2d.forward. cbn [negb Squeeze2d.factor].
    change x with (mkTensor [1; 1; 1 * 2; 1 * 2] [1; 2; 3; 4]%R).
    rewrite squeeze_block by (lia || reflexivity).
    eexists. reflexivity. }
  destruct E as (y & E).
  destruct (@squeeze2d_forward_preserves_volume _ x y None None false E)
    as (_ & Hn & Hw).
  exists y. split; [exact E|]. split; [exact Hn|].
  apply Hw. reflexivity.
Defined.

Section UnsqueezeThenSqueeze.

Variables (N C h w f : nat) (d : list R).
Hypothesis Hf : 2 <= f.
Hypothesis HC : 0 < C.
Hypothesis Hh : 0 < h.
Hypothesis Hw : 0 < w.
Hypothesis Hd : length d = numel [N; C * f * f; h; w].
Hypothesis H4 : 4 <= C * f * f.
Hypothesis Hm4 : (C * f * f) mod 4 = 0.

Let y : tensor := mkTensor [N; C * f * f; h; w] d.
Let u6 : list nat := [N; C; f; f; h; w].
Let v6 : list nat := [N; C; h; f; w; f].

Let unsqueezed : tensor :=
  mkTensor [N; C; h * f; w * f]
    (data (permute_contiguous (mkTensor u6 d) [0; 1; 4; 2; 5; 3])).

Lemma unsqueeze_general : Squeeze2d.unsqueeze y f = Ok unsqueezed.
Proof.
  unfold Squeeze2d.unsqueeze, assert.
  destruct (Nat.leb_spec 1 f) as [_|?]; [|lia].
  destruct (Nat.eqb_spec f 1) as [?|_]; [lia|].
  unfold y, dim. cbn [bind shape nth_error].
  destruct (Nat.leb_spec 4 (C * f * f)) as [_|?]; [|lia].
  rewrite Hm4. cbn [Nat.eqb andb bind].
  replace (f ^ 2) with (f * f) by (simpl; lia).
  replace (C * f * f / (f * f)) with C
    by (rewrite <- Nat.mul_assoc, Nat.div_mul; nia).
  rewrite (@view_infer_ok _ _ N) by dims_tac.
  cbn [bind].
  rewrite (@view_infer_ok _ _ N) by dims_tac.
  reflexivity.
Qed.

Lemma unsqueezed_length :
  length (data unsqueezed) = numel [N; C; h * f; w * f].
Proof.
  unfold unsqueezed, permute_contiguous, tabulate, u6.
  cbn [data shape map nth]. rewrite length_map, length_seq.
  cbn [numel]. lia.
Qed.

Lemma squeeze_unsqueeze_data :
  data (permute_contiguous (mkTensor v6 (data unsqueezed)) [0; 1; 3; 5; 2; 4])
  = d.
Proof.
  assert (Hn : numel u6 = length d) by (rewrite Hd; simpl; lia).
  apply nth_ext with (d := 0%R) (d' := 0%R).
  - unfold permute_contiguous, tabulate.
    cbn [data shape map nth]. rewrite length_map, length_seq.
    exact Hn.
  - intros k Hk.
    assert (Hk6 : k < numel u6).
    { unfold permute_contiguous, tabulate in Hk.
      cbn [data shape map nth] in Hk.
      rewrite length_map, length_seq in Hk. exact Hk. }
    pose proof (unravel_in_range u6 Hk6) as Hr.
    pose proof (ravel_unravel u6 Hk6) as Hrv.
    remember (unravel u6 k) as idx eqn:Eidx. clear Eidx.
    unfold u6 in Hr.
    repeat match goal with
           | H : Forall2 lt _ (_ :: _) |- _ => inversion H; subst; clear H
           | H : Forall2 lt _ [] |- _ => inversion H; subst; clear H
           end.
    rename x into n, x0 into c, x1 into i, x2 into j, x3 into a, x4 into b.
    change (get (permute_contiguous (mkTensor v6 (data unsqueezed))
                   [0; 1; 3; 5; 2; 4]) (ravel u6 [n; c; i; j; a; b])
            = get y (ravel u6 [n; c; i; j; a; b])).
    assert (E1 : get (permute_contiguous (mkTensor v6 (data unsqueezed))
                        [0; 1; 3; 5; 2; 4]) (ravel u6 [n; c; i; j; a; b])
                 = get (mkTensor v6 (data unsqueezed))
                       (ravel v6 [n; c; a; i; b; j])).
    { pose proof (@permute_contiguous_get (mkTensor v6 (data unsqueezed))
                    [0; 1; 3; 5; 2; 4] [n; c; i; j; a; b]) as P.
      cbn [shape map nth v6 strides] in P.
      unfold u6. rewrite P by (repeat constructor; assumption).
      f_equal. unfold ravel, v6. cbn [dot strides]. lia. }
    rewrite E1.
    assert (E2 : get (mkTensor v6 (data unsqueezed))
                     (ravel v6 [n; c; a; i; b; j])
                 = get (mkTensor u6 d) (ravel u6 [n; c; i; j; a; b])).
    { pose proof (@permute_contiguous_get (mkTensor u6 d)
                    [0; 1; 4; 2; 5; 3] [n; c; a; i; b; j]) as P.
      cbn [shape map nth u6 strides] in P.
      unfold get at 1. cbn [data unsqueezed]. fold u6.
      change (nth ?k (data ?t) 0%R) with (get t k).
      unfold u6, v6 in *. rewrite P by (repeat constructor; assumption).
      f_equal. unfold ravel. cbn [dot strides]. lia. }
    rewrite E2. reflexivity.
Qed.

Lemma squeeze_unsqueeze_block :
  (x <- Squeeze2d.unsqueeze y f ;; Squeeze2d.squeeze x f) = Ok y.
Proof.
  rewrite unsqueeze_general. cbn [bind].
  change unsqueezed
    with (mkTensor [N; C; h * f; w * f] (data unsqueezed)) at 1.
  rewrite (@squeeze_block N C h w f _ Hf HC Hh Hw unsqueezed_length).
  fold v6. rewrite squeeze_unsqueeze_data. reflexivity.
Qed.

End UnsqueezeThenSqueeze.

(** X16.  [squeeze] undoes [unsqueeze]: for a rank-4 tensor whose channel
    count is [C * f * f], with [f = 1] or a channel count that passes the
    guard of [unsqueeze] (at least 4, divisible by 4) and positive height
    and width, [squeeze (unsqueeze y f) f] is [y] itself. *)
Theorem squeeze_unsqueeze_roundtrip (y : tensor) (N C h w f : nat) :
  wf y ->
  shape y = [N; C * f * f; h; w] ->
  1 <= f ->
  f = 1 \/ (0 < h /\ 0 < w /\ 4 <= C * f * f /\ (C * f * f) mod 4 = 0) ->
  (x <- Squeeze2d.unsqueeze y f ;; Squeeze2d.squeeze x f) = Ok y.
Proof.
  intros Hwf Hs Hf Hcase.
  destruct Hcase as [->|(Hh & Hw & H4 & Hm4)]; [reflexivity|].
  destruct (Nat.eq_dec f 1) as [->|Hf1]; [reflexivity|].
  destruct y as [s d]. cbn [shape] in Hs. subst s.
  unfold wf in Hwf. cbn [shape data] in Hwf.
  apply squeeze_unsqueeze_block; try assumption; try lia.
Qed.

(** X16 witness: factor 2 on a 1 x 4 x 1 x 1 tensor. *)
Lemma squeeze_unsqueeze_roundtrip_witness :
  let y := mkTensor [1; 4; 1; 1] [1; 2; 3; 4]%R in
  (x <- Squeeze2d.unsqueeze y 2 ;; Squeeze2d.squeeze x 2) = Ok y.
Proof.
  intro y.
  apply (@squeeze_unsqueeze_roundtrip y 1 1 1 1 2).
  - reflexivity.
  - reflexivity.
  - lia.
  - right. simpl. lia.
Defined.

(** ** The convolution block [f] *)

Lemma conv2d_init_default (ic oc : nat) (ks : Conv2d.kernel_arg)
    (w0 b0 wn : nat -> R) :
  Conv2d.init ic oc ks 1 "SAME" false true 1 1 w0 b0 wn
  = Ok (Conv2d.mk
          (nnConv2d.mk ic oc (Conv2d.pair_of ks) 1
             ((fst (Conv2d.pair_of ks) - 1) / 2,
              (snd (Conv2d.pair_of ks) - 1) / 2) 1 1
             (tabulate [oc; ic / 1; fst (Conv2d.pair_of ks);
                        snd (Conv2d.pair_of ks)] wn)
             None)
          false true (Some (ActNorm.init oc 1 3 false))).
Proof.
  unfold Conv2d.init, Conv2d.get_padding.
  cbn [String.eqb Ascii.eqb Bool.eqb orb assert bind Nat.eqb].
  unfold nnConv2d.init. cbn [Nat.eqb].
  rewrite !Nat.mod_1_r. cbn [Nat.eqb negb bind].
  reflexivity.
Qed.

Lemma conv2dzeros_init_default (ic oc : nat) (w0 b0 : nat -> R) :
  Conv2dZeros.init ic oc (Conv2d.KPair 3 3) 1 "SAME" 3 1 1 true w0 b0
  = Ok (Conv2dZeros.mk
          (nnConv2d.mk ic oc (3, 3) 1 (1, 1) 1 1
             (zero_ (tabulate [oc; ic / 1; 3; 3] w0))
             (Some (zero_ (tabulate [oc] b0))))
          3 (zeros [oc; 1; 1])).
Proof.
  unfold Conv2dZeros.init, Conv2d.get_padding.
  cbn [String.eqb Ascii.eqb Bool.eqb orb assert bind Nat.eqb Conv2d.pair_of
       fst snd].
  unfold nnConv2d.init. cbn [Nat.eqb].
  rewrite !Nat.mod_1_r. cbn [Nat.eqb negb bind].
  reflexivity.
Qed.

Lemma conv2d_actnorm_forward (cv : nnConv2d.t) (a : ActNorm.t) (wnorm : bool)
    (x : tensor) (s' : list nat) :
  F.conv2d_shape (shape x) (shape (nnConv2d.weight cv)) (nnConv2d.stride cv)
    (nnConv2d.padding cv) (nnConv2d.dilation cv) (nnConv2d.groups cv) = Ok s' ->
  ActNorm.shaped a ->
  nth 0 (shape (nnConv2d.weight cv)) 0 = ActNorm.num_channels a ->
  exists a' y,
    Conv2d.forward (Conv2d.mk cv wnorm true (Some a)) x
    = Ok (Conv2d.mk cv wnorm true (Some a'), y)
    /\ shape y = s'
    /\ ActNorm.shaped a'.
Proof.
  intros Hs Ha Hc.
  rewrite conv2d_forward_drops_normalize.
  cbn [Conv2d.conv Conv2d.do_actnorm Conv2d.actnorm Conv2d.do_weight_norm].
  unfold nnConv2d.forward, F.conv2d. rewrite Hs. cbn [bind].
  destruct (conv2d_shape_form _ _ _ _ _ _ Hs) as (n & ho & wo & ->).
  match goal with
  | |- context [ActNorm.forward a ?t None false] =>
      destruct (@forward_ok a t None false Ha) as (a' & Ha' & _ & _ & _ & E)
  end.
  { exists n, ho, wo. cbn [tabulate shape]. rewrite Hc. reflexivity. }
  rewrite E. cbn [bind].
  eexists a', _. split; [reflexivity|]. split; [reflexivity|exact Ha'].
Qed.

Lemma conv_1x1_size (size : nat) : 0 < size -> F.conv_out size 0 1 1 1 = Ok size.
Proof.
  intro H. unfold F.conv_out. cbn [Nat.eqb Nat.sub Nat.mul Nat.add].
  destruct (Nat.ltb_spec (size + 0) 1) as [?|_]; [lia|].
  f_equal.
  change (fst (Nat.divmod (size + 0 - 1) 0 0 0)) with ((size + 0 - 1) / 1).
  rewrite Nat.div_1_r. lia.
Qed.

Lemma relu_shape (t : tensor) : shape (relu t) = shape t.
Proof. reflexivity. Qed.

(** X17.  For positive channel counts the block
    [f(in_channels, hidden_channels, out_channels)] is built without an
    exception, whatever the random initial weights, and as built it maps
    every non-empty input of shape (N, in_channels, H, W) to the all-zero
    tensor of shape (N, out_channels, H, W): its last layer is a
    zero-initialised convolution, and both "SAME" paddings keep H and W. *)
Theorem f_block_starts_at_zero (in_channels hidden_channels out_channels : nat)
    (draws : nat -> nat -> R) :
  0 < in_channels -> 0 < hidden_channels -> 0 < out_channels ->
  exists block,
    f in_channels hidden_channels out_channels draws = Ok block
    /\ forall x n h w,
         shape x = [n; in_channels; h; w] -> 0 < n -> 0 < h -> 0 < w ->
         exists block',
           Sequential.forward block x
           = Ok (block', zeros [n; out_channels; h; w]).
Proof.
  intros _ _ _.
  unfold f.
  rewrite !conv2d_init_default, conv2dzeros_init_default. cbn [bind].
  eexists. split; [reflexivity|].
  intros x n h w Hx _ Hh Hw.
  unfold Sequential.forward.
  cbn [Sequential.conv_in Sequential.conv_mid Sequential.conv_out].
  rewrite !Nat.div_1_r.
  (* first convolution, 3 x 3 *)
  match goal with
  | |- context [Conv2d.forward (Conv2d.mk ?cv ?wn true (Some ?a)) x] =>
      destruct (@conv2d_actnorm_forward cv a wn x
                  [n; hidden_channels; h; w])
        as (a1 & y1 & E1 & S1 & _)
  end.
  { cbn [nnConv2d.weight nnConv2d.stride nnConv2d.padding nnConv2d.dilation
         nnConv2d.groups tabulate shape Conv2d.pair_of fst snd].
    rewrite Hx. unfold F.conv2d_shape. cbn [Nat.eqb fst snd].
    rewrite Nat.mul_1_r, Nat.eqb_refl, Nat.mod_1_r. cbn [negb Nat.eqb].
    change ((3 - 1) / 2) with 1.
    rewrite !conv_same_3 by assumption. reflexivity. }
  { apply init_shaped. }
  { reflexivity. }
  rewrite E1. cbn [bind].
  (* second convolution, 1 x 1 *)
  match goal with
  | |- context [Conv2d.forward (Conv2d.mk ?cv ?wn true (Some ?a)) (relu y1)] =>
      destruct (@conv2d_actnorm_forward cv a wn (relu y1)
                  [n; hidden_channels; h; w])
        as (a2 & y2 & E2 & S2 & _)
  end.
  { cbn [nnConv2d.weight nnConv2d.stride nnConv2d.padding nnConv2d.dilation
         nnConv2d.groups tabulate shape Conv2d.pair_of fst snd].
    rewrite relu_shape, S1. unfold F.conv2d_shape. cbn [Nat.eqb fst snd].
    rewrite Nat.mul_1_r, Nat.eqb_refl, Nat.mod_1_r. cbn [negb Nat.eqb].
    change ((1 - 1) / 2) with 0.
    rewrite !conv_1x1_size by assumption. reflexivity. }
  { apply init_shaped. }
  { reflexivity. }
  rewrite E2. cbn [bind].
  (* zero convolution *)
  rewrite conv2dzeros_zero_forward by reflexivity.
  cbn [tabulate shape]. rewrite relu_shape, S2.
  unfold F.conv2d_shape. cbn [Nat.eqb fst snd].
  rewrite Nat.mul_1_r, Nat.eqb_refl, Nat.mod_1_r. cbn [negb Nat.eqb].
  rewrite !conv_same_3 by assumption. cbn [bind].
  eexists. reflexivity.
Qed.

(** X17 witness: a block from 2 to 4 channels through 3 hidden ones, on a
    1 x 2 x 2 x 2 input. *)
Lemma f_block_starts_at_zero_witness :
  exists block block',
    f 2 3 4 (fun _ => INR) = Ok block
    /\ Sequential.forward block (zeros [1; 2; 2; 2])
       = Ok (block', zeros [1; 4; 2; 2]).
Proof.
  destruct (@f_block_starts_at_zero 2 3 4 (fun _ => INR))
    as (block & Eb & H); [lia|lia|lia|].
  destruct (H (zeros [1; 2; 2; 2]) 1 2 2 eq_refl) as (block' & E);
    [lia|lia|lia|].
  exists block, block'. split; assumption.
Defined.

(** ** The wrapper [Conv2d] without activation normalisation *)

Lemma conv2d_zero_bias (x w b : tensor) (stride : nat) (padding : nat * nat)
    (dilation groups : nat) :
  F.conv2d x w (Some (zero_ b)) stride padding dilation groups
  = F.conv2d x w None stride padding dilation groups.
Proof.
  unfold F.conv2d.
  destruct (F.conv2d_shape (shape x) (shape w) stride padding dilation groups)
    as [s'|e]; cbn [bind]; [|reflexivity].
  f_equal. apply tabulate_ext. intros k _.
  destruct (unravel s' k) as [|a [|oc [|y [|z [|? ?]]]]]; try reflexivity.
  rewrite get_zero_. reflexivity.
Qed.

(** X18.  A [Conv2d] built with [do_actnorm=False] has no [ActNorm] and a
    bias that is zeroed, so whatever [do_weightnorm] says its forward pass is
    the bias-free convolution by the weights drawn by [normal_], with the
    padding chosen by [get_padding]; the layer itself is left unchanged. *)
Theorem conv2d_without_actnorm_is_bias_free
    (in_channels out_channels : nat) (kernel_size : Conv2d.kernel_arg)
    (stride : nat) (padding_type : String.string) (do_weightnorm : bool)
    (dilation groups : nat) (w0 b0 wn : nat -> R) (self : Conv2d.t) :
  Conv2d.init in_channels out_channels kernel_size stride padding_type
    do_weightnorm false dilation groups w0 b0 wn = Ok self ->
  Conv2d.actnorm self = None
  /\ exists padding,
       Conv2d.get_padding padding_type kernel_size stride = Ok padding
       /\ forall x,
            Conv2d.forward self x
            = (y <- F.conv2d x
                      (tabulate [out_channels; in_channels / groups;
                                 fst (Conv2d.pair_of kernel_size);
                                 snd (Conv2d.pair_of kernel_size)] wn)
                      None stride padding dilation groups ;;
               Ok (self, y)).
Proof.
  unfold Conv2d.init.
  destruct (Conv2d.get_padding padding_type kernel_size stride)
    as [padding|e]; cbn [bind]; [|discriminate].
  unfold nnConv2d.init.
  destruct (groups =? 0); [discriminate|].
  destruct (negb (in_channels mod groups =? 0)); [discriminate|].
  destruct (negb (out_channels mod groups =? 0)); [discriminate|].
  cbn [bind negb nnConv2d.with_weight nnConv2d.with_bias nnConv2d.bias
       nnConv2d.weight nnConv2d.in_channels nnConv2d.out_channels
       nnConv2d.kernel_size nnConv2d.stride nnConv2d.padding
       nnConv2d.dilation nnConv2d.groups tabulate shape].
  intro H. injection H as <-.
  split; [reflexivity|].
  exists padding. split; [reflexivity|].
  intro x. rewrite conv2d_forward_drops_normalize.
  cbn [Conv2d.conv Conv2d.do_actnorm Conv2d.actnorm Conv2d.do_weight_norm].
  unfold nnConv2d.forward.
  cbn [nnConv2d.bias nnConv2d.weight nnConv2d.stride nnConv2d.padding
       nnConv2d.dilation nnConv2d.groups].
  unfold nnConv2d.with_bias, nnConv2d.with_weight.
  cbn [nnConv2d.bias nnConv2d.weight nnConv2d.stride nnConv2d.padding
       nnConv2d.dilation nnConv2d.groups].
  rewrite conv2d_zero_bias. reflexivity.
Qed.

(** X18 witness: [Conv2d(1, 1, kernel_size=1, do_weightnorm=True,
    do_actnorm=False)]. *)
Lemma conv2d_without_actnorm_is_bias_free_witness :
  exists self,
    Conv2d.init 1 1 (Conv2d.KInt 1) 1 "SAME" true false 1 1 INR INR INR
    = Ok self
    /\ forall x,
         Conv2d.forward self x
         = (y <- F.conv2d x (tabulate [1; 1; 1; 1] INR) None 1 (0, 0) 1 1 ;;
            Ok (self, y)).
Proof.
  eexists. split; [reflexivity|].
  intro x.
  destruct (@conv2d_without_actnorm_is_bias_free 1 1 (Conv2d.KInt 1) 1 "SAME"
              true 1 1 INR INR INR _ eq_refl) as (_ & padding & Hp & H).
  cbn in Hp. injection Hp as <-.
  exact (H x).
Defined.
